(** * elemental: the element generator of [main.go], embedded in Rocq

    The Go program turns a catalog [elements : map[string]Desc] into two
    generated files per entry.  This development embeds

    - the name and attribute derivation of the body of the loop of [main],
      with the run-time panic of an index expression out of range;
    - the two templates and the fragment of [text/template] they use;
    - [filepath.Join] (Unix), which builds every output path;
    - [executeTemplate] and the loop of [main], as procedures over the
      trace of the calls made to the file system, with [panic] as an early
      exit; [format.Source] and the outcome of the calls to the file system
      are parameters of the run; the order in which [range] visits the map
      is any order of its entries;
    - the program that reads the catalog from a TOML file, on what the
      decoder returns;
    - [usage] with [path.Base], and [flag.Parse] on the string flags the
      programs declare;

    and proves the properties the specification states about them, then
    further properties of the code: the text of the generated files, the
    protocol of the calls, what makes a run panic, which files a run
    writes and where, and the names the catalog yields.

    Go strings are byte sequences: they are modelled by [string], whose
    characters are the 256 byte values of [ascii].

    The source holds the program twice, with the catalog as a map literal
    and with the catalog read from a TOML file; the loop and
    [executeTemplate] are the same in both, up to the names of the types
    and of the field [Attrs]. *)

From Stdlib Require Import Ascii String NArith List Lia Permutation Bool.
From stdpp Require Import base strings list gmap.

Local Open Scope string_scope.
Local Open Scope N_scope.

(* ===================================================================== *)
(** * Panics and results *)
(* ===================================================================== *)

(** The value of Go's [error] interface that the program passes to
    [panic]: only its message matters here. *)
Definition error := string.

(** What a run can panic with: the run-time error of an index expression
    out of range, or an [error] handed to [panic(err)]. *)
Inductive panicValue : Type :=
| IndexOutOfRange
| PanicError (err : error).

(** A computation that either returns or panics. *)
Inductive result (A : Type) : Type :=
| Ok (a : A)
| Panic (p : panicValue).
Arguments Ok {A} a.
Arguments Panic {A} p.

Definition rbind {A B : Type} (r : result A) (f : A -> result B) : result B :=
  match r with
  | Ok a => f a
  | Panic p => Panic p
  end.

(* ===================================================================== *)
(** * Bytes, UTF-8 and upper case *)
(* ===================================================================== *)

(** A byte from its value, and back. *)
Definition byte_of (n : N) : ascii := ascii_of_N (n mod 256).
Definition byte_val (b : ascii) : N := N_of_ascii b.

(** [utf8.RuneSelf]: bytes below it are single-byte characters. *)
Definition RuneSelf : N := 128.
Definition RuneError : N := 65533.
Definition MaxRune : N := 1114111.

(** [utf8.EncodeRune]: the UTF-8 encoding of a code point; surrogates and
    values above [MaxRune] are encoded as [RuneError]. *)
Definition utf8_encode3 (r : N) : string :=
  String (byte_of (N.lor 224 (N.shiftr r 12)))
    (String (byte_of (N.lor 128 (N.land (N.shiftr r 6) 63)))
       (String (byte_of (N.lor 128 (N.land r 63))) "")).

Definition utf8_EncodeRune (r : N) : string :=
  if r <=? 127 then String (byte_of r) ""
  else if r <=? 2047 then
    String (byte_of (N.lor 192 (N.shiftr r 6)))
      (String (byte_of (N.lor 128 (N.land r 63))) "")
  else if (MaxRune <? r) || ((55296 <=? r) && (r <=? 57343)) then
    utf8_encode3 RuneError
  else if r <=? 65535 then utf8_encode3 r
  else
    String (byte_of (N.lor 240 (N.shiftr r 18)))
      (String (byte_of (N.lor 128 (N.land (N.shiftr r 12) 63)))
         (String (byte_of (N.lor 128 (N.land (N.shiftr r 6) 63)))
            (String (byte_of (N.lor 128 (N.land r 63))) ""))).

(** The conversion [string(b)] of a byte value [b]: Go converts an integer
    to the UTF-8 representation of the code point with that value, so a
    byte of 128 or more becomes two bytes. *)
Definition string_of_byte (b : ascii) : string := utf8_EncodeRune (byte_val b).

(** [unicode.ToUpper] on the code points below U+0100, after the
    [CaseRanges] table of package [unicode]: the ASCII letters, the micro
    sign (to U+039C), the Latin-1 letters except the sharp s and the
    division sign, and the y with diaeresis (to U+0178). *)
Definition latin1_ToUpper (r : N) : N :=
  if (97 <=? r) && (r <=? 122) then r - 32
  else if r =? 181 then r + 743
  else if (224 <=? r) && (r <=? 246) then r - 32
  else if (248 <=? r) && (r <=? 254) then r - 32
  else if r =? 255 then r + 121
  else r.

(** [strings.ToUpper(string(b))], the only way the program calls
    [strings.ToUpper]: on an ASCII byte the fast path of [ToUpper] and the
    general path [Map(unicode.ToUpper, s)] agree with this definition. *)
Definition ToUpper_string_byte (b : ascii) : string :=
  utf8_EncodeRune (latin1_ToUpper (byte_val b)).

(** The ASCII upper-casing of one byte, bytes outside [a-z] unchanged. *)
Definition ascii_upper (b : ascii) : ascii :=
  if (97 <=? byte_val b) && (byte_val b <=? 122) then byte_of (byte_val b - 32)
  else b.

(** Whether a byte is an ASCII character. *)
Definition is_ascii_byte (b : ascii) : bool := byte_val b <? RuneSelf.

(** Whether a string begins with an ASCII character. *)
Definition starts_ascii (s : string) : bool :=
  match s with
  | EmptyString => false
  | String c _ => is_ascii_byte c
  end.

(* ===================================================================== *)
(** * The data model of [main.go] *)
(* ===================================================================== *)

(** The fields of the four structs keep their names, after a prefix for
    the struct: the fields of all records share one name space here. *)

(** [Attr]: one attribute of the catalog. *)
Record Attr : Type := mkAttr {
  Attr_Name : string;
  Attr_Override : string;
  Attr_Type : string
}.

(** [Desc]: one catalog entry, the value stored under the element's key. *)
Record Desc : Type := mkDesc {
  Desc_Override : string;
  Desc_Attributes : list Attr
}.

(** [templAttr]: a resolved attribute, as the templates read it. *)
Record templAttr : Type := mkTemplAttr {
  ta_Name : string;
  ta_JS : string;
  ta_Type : string
}.

(** [templElem]: the derived names of one entry, as the templates read
    them. *)
Record templElem : Type := mkTemplElem {
  te_Elem : string;
  te_Name : string;
  te_Props : string;
  te_Upper : string;
  te_Attrs : list templAttr
}.

(* ===================================================================== *)
(** * The catalog [elements] of [main.go] *)
(* ===================================================================== *)

(** The entries of the map literal, in the order of the source.  (The
    variant of the program that reads the catalog from a TOML file has the
    same loop and makes no assumption on the keys.) *)
Definition elements_list : list (string * Desc) :=
  [
   ("abbr", mkDesc "" []);
   ("acronym", mkDesc "" []);
   ("address", mkDesc "" []);
   ("applet", mkDesc ""
      [mkAttr "align" "" ""; mkAttr "alt" "" ""; mkAttr "archive" "" "";
       mkAttr "code" "" ""; mkAttr "codebase" "" "";
       mkAttr "datafld" "DataFld" ""; mkAttr "datasrc" "DataSrc" "";
       mkAttr "height" "" ""; mkAttr "hspace" "HSpace" "";
       mkAttr "mayscript" "MayScript" ""; mkAttr "name" "" "";
       mkAttr "object" "" ""; mkAttr "src" "" "";
       mkAttr "vspace" "VSpace" ""; mkAttr "width" "" ""]);
   ("area", mkDesc ""
      [mkAttr "alt" "" ""; mkAttr "coords" "" ""; mkAttr "download" "" "";
       mkAttr "href" "" ""; mkAttr "hreflang" "HrefLang" "";
       mkAttr "media" "" ""; mkAttr "referrerpolicy" "ReferrerPolicy" "";
       mkAttr "rel" "" ""; mkAttr "shape" "" ""; mkAttr "target" "" ""]);
   ("article", mkDesc "" []);
   ("aside", mkDesc "" []);
   ("audio", mkDesc ""
      [mkAttr "autoplay" "AutoPlay" ""; mkAttr "buffered" "" "";
       mkAttr "controls" "" ""; mkAttr "loop" "" "";
       mkAttr "mozCurrentSampleOffset" "MozCurrentSampleOffset" "";
       mkAttr "muted" "" ""; mkAttr "played" "" "";
       mkAttr "preload" "" ""; mkAttr "src" "" ""; mkAttr "volume" "" ""]);
   ("b", mkDesc "" []);
   ("base", mkDesc ""
      [mkAttr "href" "" ""; mkAttr "target" "" ""]);
   ("basefont", mkDesc "BaseFont"
      [mkAttr "color" "" ""; mkAttr "face" "" ""; mkAttr "size" "" ""]);
   ("bdi", mkDesc "" []);
   ("bdo", mkDesc "" []);
   ("blockquote", mkDesc "BlockQuote"
      [mkAttr "cite" "" ""]);
   ("body", mkDesc ""
      [mkAttr "onafterprint" "OnAfterPrint" "";
       mkAttr "onbeforeprint" "OnBeforePrint" "";
       mkAttr "onbeforeunload" "OnBeforeUnload" "";
       mkAttr "onblur" "OnBlur" ""; mkAttr "onerror" "OnError" "";
       mkAttr "onfocus" "OnFocus" "";
       mkAttr "onhashchange" "OnHashChange" "";
       mkAttr "onlanguagechange" "OnLanguageChange" "";
       mkAttr "onload" "OnLoad" ""; mkAttr "onmessage" "OnMessage" "";
       mkAttr "onoffline" "OnOffline" ""; mkAttr "ononline" "OnOnline" "";
       mkAttr "onpopstate" "OnPopState" ""; mkAttr "onredo" "OnRedo" "";
       mkAttr "onresize" "OnResize" ""; mkAttr "onstorage" "OnStorage" "";
       mkAttr "onundo" "OnUndo" ""; mkAttr "onunload" "OnUnload" ""]);
   ("canvas", mkDesc ""
      [mkAttr "height" "" ""; mkAttr "width" "" ""]);
   ("caption", mkDesc "" []);
   ("cite", mkDesc "" []);
   ("col", mkDesc ""
      [mkAttr "bgcolor" "BGColor" ""; mkAttr "span" "" ""]);
   ("colgroup", mkDesc ""
      [mkAttr "bgcolor" "BGColor" ""; mkAttr "span" "" ""]);
   ("data", mkDesc ""
      [mkAttr "value" "" ""]);
   ("datalist", mkDesc "DataList" []);
   ("dd", mkDesc "" []);
   ("del", mkDesc ""
      [mkAttr "cite" "" ""; mkAttr "datetime" "DateTime" ""]);
   ("details", mkDesc ""
      [mkAttr "open" "" "bool"]);
   ("dfn", mkDesc "" []);
   ("dialog", mkDesc ""
      [mkAttr "open" "" "bool"]);
   ("dl", mkDesc "" []);
   ("dt", mkDesc "" []);
   ("em", mkDesc "" []);
   ("embed", mkDesc ""
      [mkAttr "height" "" ""; mkAttr "src" "" ""; mkAttr "type" "" "";
       mkAttr "width" "" ""]);
   ("fieldset", mkDesc "FieldSet"
      [mkAttr "disabled" "" "bool"; mkAttr "form" "" "";
       mkAttr "name" "" ""]);
   ("figcaption", mkDesc "FigCaption" []);
   ("figure", mkDesc "" []);
   ("h2", mkDesc "" []);
   ("h5", mkDesc "" []);
   ("h6", mkDesc "" []);
   ("head", mkDesc "" []);
   ("header", mkDesc "" []);
   ("hgroup", mkDesc "HGroup" []);
   ("html", mkDesc "HTML"
      [mkAttr "xmlns" "XMLNS" ""]);
   ("ins", mkDesc ""
      [mkAttr "cite" "" ""; mkAttr "datetime" "DateTime" ""]);
   ("kbd", mkDesc "" []);
   ("legend", mkDesc "" []);
   ("link", mkDesc ""
      [mkAttr "as" "" ""; mkAttr "crossorigin" "CrossOrigin" "";
       mkAttr "disabled" "" "bool"; mkAttr "href" "" "";
       mkAttr "hreflang" "HrefLang" ""; mkAttr "integrity" "" "";
       mkAttr "media" "" ""; mkAttr "methods" "" "";
       mkAttr "prefetch" "" "";
       mkAttr "referrerpolicy" "ReferrerPolicy" ""; mkAttr "rel" "" "";
       mkAttr "sizes" "" ""; mkAttr "target" "" ""; mkAttr "title" "" "";
       mkAttr "type" "" ""]);
   ("main", mkDesc "" []);
   ("map", mkDesc ""
      [mkAttr "name" "" ""]);
   ("mark", mkDesc "" []);
   ("menu", mkDesc ""
      [mkAttr "type" "" ""]);
   ("meta", mkDesc ""
      [mkAttr "charset" "CharSet" ""; mkAttr "content" "" "";
       mkAttr "http-equiv" "HTTPEquiv" ""; mkAttr "name" "" ""]);
   ("meter", mkDesc ""
      [mkAttr "value" "" "float64"; mkAttr "min" "" "float64";
       mkAttr "max" "" "float64"; mkAttr "low" "" "float64";
       mkAttr "high" "" "float64"; mkAttr "optimum" "" "float64";
       mkAttr "form" "" ""]);
   ("noscript", mkDesc "NoScript" []);
   ("object", mkDesc ""
      [mkAttr "data" "" ""; mkAttr "form" "" ""; mkAttr "height" "" "";
       mkAttr "name" "" ""; mkAttr "type" "" "";
       mkAttr "typemustmatch" "TypeMustMatch" "";
       mkAttr "usemap" "UseMap" ""; mkAttr "width" "" ""]);
   ("ol", mkDesc ""
      [mkAttr "compact" "" ""; mkAttr "reversed" "" "bool";
       mkAttr "start" "" ""; mkAttr "type" "" ""]);
   ("optgroup", mkDesc "OptGroup"
      [mkAttr "disabled" "" "bool"; mkAttr "label" "" ""]);
   ("output", mkDesc ""
      [mkAttr "for" "" ""; mkAttr "form" "" ""; mkAttr "name" "" ""]);
   ("param", mkDesc ""
      [mkAttr "name" "" ""; mkAttr "value" "" ""]);
   ("picture", mkDesc "" []);
   ("progress", mkDesc ""
      [mkAttr "max" "" "float64"; mkAttr "value" "" "float64"]);
   ("q", mkDesc ""
      [mkAttr "cite" "" ""]);
   ("rp", mkDesc "RP" []);
   ("rt", mkDesc "RT" []);
   ("rtc", mkDesc "RTC" []);
   ("ruby", mkDesc "" []);
   ("s", mkDesc "Strike" []);
   ("samp", mkDesc "" []);
   ("script", mkDesc ""
      [mkAttr "async" "" ""; mkAttr "crossorigin" "CrossOrigin" "";
       mkAttr "defer" "" ""; mkAttr "integrity" "" "";
       mkAttr "nomodule" "NoModule" ""; mkAttr "nonce" "" "";
       mkAttr "src" "" ""; mkAttr "text" "" ""; mkAttr "type" "" ""]);
   ("section", mkDesc "" []);
   ("slot", mkDesc ""
      [mkAttr "name" "" ""]);
   ("small", mkDesc "" []);
   ("source", mkDesc ""
      [mkAttr "sizes" "" ""; mkAttr "src" "" "";
       mkAttr "srcset" "SrcSet" ""; mkAttr "type" "" "";
       mkAttr "media" "" ""]);
   ("strong", mkDesc "" []);
   ("style", mkDesc ""
      [mkAttr "type" "" ""; mkAttr "media" "" ""; mkAttr "nonce" "" "";
       mkAttr "title" "" ""]);
   ("sub", mkDesc "" []);
   ("tbody", mkDesc ""
      [mkAttr "bgcolor" "BGColor" ""]);
   ("td", mkDesc ""
      [mkAttr "bgcolor" "BGColor" ""; mkAttr "colspan" "ColSpan" "";
       mkAttr "headers" "" ""; mkAttr "rowspan" "RowSpan" ""]);
   ("template", mkDesc "" []);
   ("tfoot", mkDesc ""
      [mkAttr "bgcolor" "BGColor" ""]);
   ("th", mkDesc ""
      [mkAttr "abbr" "" ""; mkAttr "bgcolor" "BGColor" "";
       mkAttr "colspan" "ColSpan" ""; mkAttr "headers" "" "";
       mkAttr "rowspan" "RowSpan" ""; mkAttr "scope" "" ""]);
   ("thead", mkDesc ""
      [mkAttr "bgcolor" "BGColor" ""]);
   ("time", mkDesc ""
      [mkAttr "datetime" "DateTime" ""]);
   ("title", mkDesc "" []);
   ("tr", mkDesc "" []);
   ("track", mkDesc ""
      [mkAttr "default" "" "bool"; mkAttr "kind" "" "";
       mkAttr "label" "" ""; mkAttr "src" "" "";
       mkAttr "srclang" "SrcLang" ""]);
   ("u", mkDesc "" []);
   ("var", mkDesc "" []);
   ("video", mkDesc ""
      [mkAttr "autoplay" "" ""; mkAttr "buffered" "" "";
       mkAttr "controls" "" ""; mkAttr "crossorigin" "CrossOrigin" "";
       mkAttr "height" "" ""; mkAttr "loop" "" ""; mkAttr "muted" "" "";
       mkAttr "played" "" ""; mkAttr "preload" "" "";
       mkAttr "poster" "" ""; mkAttr "src" "" ""; mkAttr "width" "" "";
       mkAttr "playsinline" "PlaysInline" ""]);
   ("wbr", mkDesc "" [])
  ].

(** [elements]: a Go map; the order of the literal is not part of it. *)
Definition elements : gmap string Desc := list_to_map elements_list.

(* ===================================================================== *)
(** * Name derivation: the first half of the body of the loop of [main] *)
(* ===================================================================== *)

(** [strings.ToUpper(string(s[0])) + s[1:]].  The index expression [s[0]]
    is evaluated first and panics on the empty string. *)
Definition upperFirst (s : string) : result string :=
  match s with
  | EmptyString => Panic IndexOutOfRange
  | String c rest => Ok (ToUpper_string_byte c +:+ rest)
  end.

(** [upper]: the override when there is one, the capitalised key
    otherwise. *)
Definition main_upper (k : string) (v : Desc) : result string :=
  if negb (Desc_Override v =? "")%string then Ok (Desc_Override v)
  else upperFirst k.

(** One iteration of [for _, a := range v.Attributes]. *)
Definition main_attr (a : Attr) : result templAttr :=
  let js := Attr_Name a in
  rbind (if (Attr_Override a =? "")%string then upperFirst js
         else Ok (Attr_Override a))
    (fun name =>
       let t := if (Attr_Type a =? "")%string then "string" else Attr_Type a in
       Ok (mkTemplAttr name js t)).

(** The whole attribute loop: [attrs] grows by [append], one element per
    attribute, in the order of [v.Attributes]; the first panic ends it. *)
Fixpoint main_attrs_from (attrs : list templAttr) (l : list Attr)
  : result (list templAttr) :=
  match l with
  | [] => Ok attrs
  | a :: l' =>
      rbind (main_attr a) (fun ta => main_attrs_from (attrs ++ [ta])%list l')
  end.

Definition main_attrs (l : list Attr) : result (list templAttr) :=
  main_attrs_from [] l.

(** The value [e] the loop body builds for one entry. *)
Definition main_elem (k : string) (v : Desc) : result templElem :=
  rbind (main_upper k v) (fun upper =>
  rbind (main_attrs (Desc_Attributes v)) (fun attrs =>
  Ok {| te_Elem := upper +:+ "Elem";
        te_Name := k;
        te_Props := upper +:+ "Props";
        te_Upper := upper;
        te_Attrs := attrs |})).

(* ===================================================================== *)
(** * The fragment of [text/template] the two templates use *)
(* ===================================================================== *)

(** A parsed template is a list of nodes: literal text, the action
    [{{ .F }}] that prints a field of dot, and [{{ range .F }} .. {{ end }}]
    that runs its body with dot set to each element of a field. *)
#[warnings="-register-all"]
Inductive node : Type :=
| NText (s : string)
| NField (f : string)
| NRange (f : string) (body : list node).

(** [template.New(name).Parse(text)]. *)
Record template : Type := mkTemplate {
  tmpl_name : string;
  tmpl_nodes : list node
}.

(** The values dot ranges over when a template runs on a [templElem]. *)
Inductive value : Type :=
| VElem (e : templElem)
| VAttr (a : templAttr)
| VAttrs (l : list templAttr)
| VString (s : string).

(** Field selection [.F]: the exported fields of the two structs; anything
    else is the error "can't evaluate field". *)
Definition value_field (v : value) (f : string) : option value :=
  match v with
  | VElem e =>
      if (f =? "Elem")%string then Some (VString (te_Elem e))
      else if (f =? "Name")%string then Some (VString (te_Name e))
      else if (f =? "Props")%string then Some (VString (te_Props e))
      else if (f =? "Upper")%string then Some (VString (te_Upper e))
      else if (f =? "Attrs")%string then Some (VAttrs (te_Attrs e))
      else None
  | VAttr a =>
      if (f =? "Name")%string then Some (VString (ta_Name a))
      else if (f =? "JS")%string then Some (VString (ta_JS a))
      else if (f =? "Type")%string then Some (VString (ta_Type a))
      else None
  | VAttrs _ => None
  | VString _ => None
  end.

(** How an action prints a value ([fmt.Fprint]): a string as it is, a
    struct as its fields between braces, a slice as its elements between
    brackets. *)
Definition print_attr (a : templAttr) : string :=
  "{" +:+ ta_Name a +:+ " " +:+ ta_JS a +:+ " " +:+ ta_Type a +:+ "}".

Definition print_attrs (l : list templAttr) : string :=
  "[" +:+ String.concat " " (map print_attr l) +:+ "]".

Definition print_value (v : value) : string :=
  match v with
  | VString s => s
  | VAttr a => print_attr a
  | VAttrs l => print_attrs l
  | VElem e =>
      "{" +:+ te_Elem e +:+ " " +:+ te_Name e +:+ " " +:+ te_Props e +:+ " "
          +:+ te_Upper e +:+ " " +:+ print_attrs (te_Attrs e) +:+ "}"
  end.

(** Errors of [Execute]; the messages abbreviate those of the library. *)
Definition err_field (name f : string) : error :=
  "template: " +:+ name +:+ ": can't evaluate field " +:+ f.
Definition err_range (name f : string) : error :=
  "template: " +:+ name +:+ ": range can't iterate over " +:+ f.

(** A Go call that returns a value and an [error]: the value when the
    error is [nil], the error otherwise. *)
Inductive orError (A : Type) : Type :=
| Val (a : A)
| Err (err : error).
Arguments Val {A} a.
Arguments Err {A} err.

Definition ebind {A B : Type} (r : orError A) (f : A -> orError B) : orError B :=
  match r with
  | Val a => f a
  | Err err => Err err
  end.

(** The iterations of a [range] over the attributes: the outputs of the
    body, one per element in the order of the slice, or the first error. *)
Fixpoint each_attr (body : templAttr -> orError string) (l : list templAttr)
  : orError string :=
  match l with
  | [] => Val ""
  | a :: l' =>
      ebind (body a) (fun s =>
      ebind (each_attr body l') (fun s' => Val (s +:+ s')))
  end.

(** Running one node on dot: its output, or the error that stops the
    execution. *)
Fixpoint exec_node (name : string) (dot : value) (n : node) {struct n}
  : orError string :=
  match n with
  | NText s => Val s
  | NField f =>
      match value_field dot f with
      | Some v => Val (print_value v)
      | None => Err (err_field name f)
      end
  | NRange f body =>
      match value_field dot f with
      | Some (VAttrs l) =>
          each_attr
            (fun a =>
               (fix seq (ns : list node) : orError string :=
                  match ns with
                  | [] => Val ""
                  | n' :: ns' =>
                      ebind (exec_node name (VAttr a) n') (fun s =>
                      ebind (seq ns') (fun s' => Val (s +:+ s')))
                  end) body)
            l
      | Some _ => Err (err_range name f)
      | None => Err (err_field name f)
      end
  end.

(** Running a list of nodes: the outputs in sequence, or the first
    error. *)
Fixpoint exec_nodes (name : string) (dot : value) (ns : list node)
  : orError string :=
  match ns with
  | [] => Val ""
  | n :: ns' =>
      ebind (exec_node name dot n) (fun s =>
      ebind (exec_nodes name dot ns') (fun s' => Val (s +:+ s')))
  end.

(** [t.Execute(b, e)] into a fresh buffer [b]: the bytes of the buffer, or
    the error. *)
Definition template_Execute (t : template) (e : templElem) : orError string :=
  exec_nodes (tmpl_name t) (VElem e) (tmpl_nodes t).

(** ** The two templates *)

Definition nl : string := String (byte_of 10) "".
Definition tab : string := String (byte_of 9) "".
Definition dq : string := String (byte_of 34) "".

(** The text of a literal piece of a template, line by line. *)
Definition txt (pieces : list string) : string := fold_right String.append "" pieces.

(** [primaryTemplate], parsed. *)
Definition primaryTemplate : list node :=
  [NText (txt
     [nl;
      "// Copyright (c) 2018 Paul Jolly <paul@myitcv.org.uk>, all rights reserved.";
      nl;
      "// Use of this document is governed by a license found in the LICENSE document.";
      nl; nl; "package react"; nl; nl; "// "]);
   NField "Elem";
   NText (txt
     [" is the React element definition corresponding to the HTML <"]);
   NField "Name";
   NText (txt
     ["> element."; nl; "type "]);
   NField "Elem";
   NText (txt
     [" struct {"; nl; tab; "Element"; nl; "}"; nl; nl; "// _"]);
   NField "Props";
   NText (txt
     [" defines the properties for the <"]);
   NField "Name";
   NText (txt
     ["> element."; nl; "type _"]);
   NField "Props";
   NText (txt
     [" struct {"; nl; tab; "*BasicHTMLElement"; nl; nl; tab]);
   NRange "Attrs"
     [NField "Name";
      NText (txt
        [" "]);
      NField "Type";
      NText (txt
        [" `js:"; dq]);
      NField "JS";
      NText (txt
        [dq; "`"; nl; tab])];
   NText (txt
     [nl; "}"; nl; nl; "// A creates a new instance of a <"]);
   NField "Name";
   NText (txt
     ["> element with the provided props and children."; nl; "func "]);
   NField "Upper";
   NText (txt
     ["(props *"]);
   NField "Props";
   NText (txt
     [", children ...Element) *"]);
   NField "Elem";
   NText (txt
     [" {"; nl; tab; "rProps := &_"]);
   NField "Props";
   NText (txt
     ["{"; nl; tab; tab; "BasicHTMLElement: newBasicHTMLElement(),"; nl; tab;
      "}"; nl; nl; tab; "if props != nil {"; nl; tab; tab;
      "props.assign(rProps)"; nl; tab; "}"; nl; nl; tab; "return &"]);
   NField "Elem";
   NText (txt
     ["{"; nl; tab; tab; "Element: createElement("; dq]);
   NField "Name";
   NText (txt
     [dq; ", rProps, children...),"; nl; tab; "}"; nl; "}"; nl])].

(** [testTemplate], parsed. *)
Definition testTemplate : list node :=
  [NText (txt
     [nl; "// +build js"; nl; nl; "package react_test"; nl; nl; "import (";
      nl; tab; dq; "testing"; dq; nl; nl; tab; dq; "honnef.co/go/js/dom"; dq;
      nl; nl; tab; dq; "myitcv.io/react"; dq; nl; tab; dq;
      "myitcv.io/react/testutils"; dq; nl; ")"; nl; nl; "func Test"]);
   NField "Elem";
   NText (txt
     ["(t *testing.T) {"; nl; tab; "class := "; dq; "test"; dq; nl; nl; tab;
      "x := testutils.Wrapper(react."]);
   NField "Upper";
   NText (txt
     ["(&react."]);
   NField "Props";
   NText (txt
     ["{ClassName: class}))"; nl; tab;
      "cont := testutils.RenderIntoDocument(x)"; nl; nl; tab;
      "el := testutils.FindRenderedDOMComponentWithClass(cont, class)"; nl;
      nl; tab; "if _, ok := el.(*dom.HTMLAnchorElement); !ok {"; nl; tab;
      tab; "t.Fatal("; dq; "Failed to find <"]);
   NField "Name";
   NText (txt
     ["> element"; dq; ")"; nl; tab; "}"; nl; "}"; nl])].

(** [primary] and [test] of [main]. *)
Definition primary : template := mkTemplate "primary" primaryTemplate.
Definition test : template := mkTemplate "test" testTemplate.

(* ===================================================================== *)
(** * [filepath.Join] and [filepath.Clean] on Unix *)
(* ===================================================================== *)

Definition Separator : ascii := "/"%char.
Definition IsPathSeparator (c : ascii) : bool := Ascii.eqb c Separator.
Definition is_dot (c : ascii) : bool := Ascii.eqb c "."%char.

(** The output buffer of [Clean] is kept newest byte first, so that
    [out.w] is its length and [out.w--] drops its head. *)

(** [for out.w > dotdot && !os.IsPathSeparator(out.index(out.w)) { out.w-- }]:
    [dropped] is the byte at index [out.w], the one dropped last. *)
Fixpoint backtrack_loop (dotdot : nat) (dropped : ascii) (buf : list ascii)
  : list ascii :=
  match buf with
  | [] => []
  | c :: buf' =>
      if (dotdot <? length buf)%nat && negb (IsPathSeparator dropped)
      then backtrack_loop dotdot c buf'
      else buf
  end.

(** [out.w--] followed by the loop above. *)
Definition backtrack (dotdot : nat) (buf : list ascii) : list ascii :=
  match buf with
  | [] => []
  | c :: buf' => backtrack_loop dotdot c buf'
  end.

(** [for ; r < n && !os.IsPathSeparator(path[r]); r++ { out.append(path[r]) }]:
    what is left of the path, and the buffer. *)
Fixpoint copy_elem (path buf : list ascii) : list ascii * list ascii :=
  match path with
  | [] => ([], buf)
  | c :: rest =>
      if IsPathSeparator c then (path, buf) else copy_elem rest (c :: buf)
  end.

(** Whether the path ends here or goes on with a separator. *)
Definition end_or_sep (path : list ascii) : bool :=
  match path with
  | [] => true
  | c :: _ => IsPathSeparator c
  end.

(** The loop [for r < n] of [Clean]; [path] is what is left from index [r]
    on.  Every iteration consumes at least one byte, so a [fuel] of the
    length of the path is enough. *)
Fixpoint clean_loop (fuel : nat) (rooted : bool) (path buf : list ascii)
  (dotdot : nat) : list ascii :=
  match fuel with
  | O => buf
  | S fuel' =>
      match path with
      | [] => buf
      | c :: rest =>
          if IsPathSeparator c then
            (* empty path element *)
            clean_loop fuel' rooted rest buf dotdot
          else if is_dot c && end_or_sep rest then
            (* . element *)
            clean_loop fuel' rooted rest buf dotdot
          else if is_dot c && is_dot (hd Separator rest) && end_or_sep (tl rest) then
            (* .. element: remove to last separator *)
            if (dotdot <? length buf)%nat then
              clean_loop fuel' rooted (tl rest) (backtrack dotdot buf) dotdot
            else if negb rooted then
              let buf1 := if (0 <? length buf)%nat then Separator :: buf else buf in
              let buf2 := "."%char :: "."%char :: buf1 in
              clean_loop fuel' rooted (tl rest) buf2 (length buf2)
            else clean_loop fuel' rooted (tl rest) buf dotdot
          else
            (* real path element: add slash if needed, copy element *)
            let buf1 :=
              if (rooted && negb (length buf =? 1)%nat)
                 || (negb rooted && negb (length buf =? 0)%nat)
              then Separator :: buf else buf in
            let '(rest', buf2) := copy_elem path buf1 in
            clean_loop fuel' rooted rest' buf2 dotdot
      end
  end.

(** [filepath.Clean]: there is no volume name on Unix, and [FromSlash] is
    the identity. *)
Definition clean_bytes (path : list ascii) : list ascii :=
  match path with
  | [] => ["."%char]
  | c :: rest =>
      let rooted := IsPathSeparator c in
      let buf :=
        if rooted then clean_loop (length path) rooted rest [Separator] 1
        else clean_loop (length path) rooted path [] 0 in
      match buf with
      | [] => ["."%char]
      | _ => rev buf
      end
  end.

Definition filepath_Clean (path : string) : string :=
  string_of_list_ascii (clean_bytes (list_ascii_of_string path)).

(** [filepath.Join(dir, name)]: the first non-empty element on, joined by
    the separator and cleaned. *)
Definition filepath_Join (dir name : string) : string :=
  if (dir =? "")%string then
    if (name =? "")%string then "" else filepath_Clean name
  else filepath_Clean (dir +:+ "/" +:+ name).

(** ** Path elements and the invariant of [Clean] *)

(** A path element that [Clean] keeps as it is: not empty, free of
    separators, neither [.] nor [..]. *)
Definition is_elem (n : list ascii) : Prop :=
  forallb (fun c => negb (IsPathSeparator c)) n = true
  /\ n <> [] /\ n <> ["."%char] /\ n <> ["."%char; "."%char].

(** A buffer (newest byte first) to which an element can be appended
    without merging it into the element before: it is empty or ends
    with a separator. *)
Definition closed (buf : list ascii) : Prop :=
  buf = [] \/ exists buf', buf = Separator :: buf'.

(** The invariant [Clean] keeps on a rooted path: the leading separator
    stays in the buffer, and [dotdot] stays after it. *)
Definition rooted_inv (rooted : bool) (buf : list ascii) (dotdot : nat) : Prop :=
  rooted = true -> dotdot = 1%nat /\ exists buf', buf = (buf' ++ [Separator])%list.

(** [add slash if needed]: the buffer an element is copied to. *)
Definition slashed (rooted : bool) (buf : list ascii) : list ascii :=
  if (rooted && negb (length buf =? 1)%nat)
     || (negb rooted && negb (length buf =? 0)%nat)
  then Separator :: buf else buf.

(* ===================================================================== *)
(** * The pipeline: [executeTemplate] and the loop of [main] *)
(* ===================================================================== *)

(** The two kinds of generated file, with the suffix [main] appends to the
    key and the template it passes to [executeTemplate]. *)
Inductive artifactKind : Type :=
| Implementation
| TestFile.

Definition artifactSuffix (kind : artifactKind) : string :=
  match kind with
  | Implementation => "_elem.go"
  | TestFile => "_elem_test.go"
  end.

Definition artifactTemplate (kind : artifactKind) : template :=
  match kind with
  | Implementation => primary
  | TestFile => test
  end.

(** Whether a key is free of path separators. *)
Definition no_separator (s : string) : bool :=
  forallb (fun c => negb (IsPathSeparator c)) (list_ascii_of_string s).

(** The path of the file of one kind generated for a key. *)
Definition artifact_path (dir k : string) (kind : artifactKind) : string :=
  filepath_Join dir (k +:+ artifactSuffix kind).

(** The calls the program makes to the operating system, in order, each
    with the error it returned ([None] for [nil]). *)
Inductive event : Type :=
| EvCreate (name : string) (err : option error)
| EvWrite (name : string) (data : string) (err : option error).

Definition trace := list event.

Definition event_name (ev : event) : string :=
  match ev with
  | EvCreate name _ => name
  | EvWrite name _ _ => name
  end.

(** The files a trace has written: name and bytes of every [Write] that
    returned no error. *)
Fixpoint artifacts (tr : trace) : list (string * string) :=
  match tr with
  | [] => []
  | EvWrite name data None :: tr' => (name, data) :: artifacts tr'
  | _ :: tr' => artifacts tr'
  end.

(** The paths a trace has asked [os.Create] for, in order, whether the
    call returned an error or not. *)
Fixpoint created (tr : trace) : list string :=
  match tr with
  | [] => []
  | EvCreate name _ :: tr' => name :: created tr'
  | _ :: tr' => created tr'
  end.

(** The files a trace leaves written: each path with the bytes of the
    last [Write] to it that returned no error.  [os.Create] truncates the
    file, and the program writes each file once, through the handle that
    created it: a later file under the same path replaces the earlier. *)
Definition written_files (tr : trace) : gmap string string :=
  list_to_map (reverse (artifacts tr)).

(** The collaborators outside the program: [format.Source], and the
    outcome of [os.Create] and of the [Write] of the file, which may depend on
    everything done to the file system so far. *)
Record Env : Type := mkEnv {
  format_Source : string -> orError string;
  os_Create : trace -> string -> option error;
  file_Write : trace -> string -> string -> option error
}.

(** A procedure: from the trace so far to the trace after it, and its
    value or the panic that ended it. *)
Definition Proc (A : Type) : Type := trace -> trace * result A.

Definition pret {A : Type} (a : A) : Proc A := fun tr => (tr, Ok a).

Definition pbind {A B : Type} (m : Proc A) (f : A -> Proc B) : Proc B :=
  fun tr =>
    match m tr with
    | (tr', Ok a) => f a tr'
    | (tr', Panic p) => (tr', Panic p)
    end.

#[global] Instance Proc_ret : MRet Proc := @pret.
#[global] Instance Proc_bind : MBind Proc := fun A B f m => pbind m f.

(** [panic(v)]. *)
Definition panic {A : Type} (p : panicValue) : Proc A := fun tr => (tr, Panic p).

(** A pure computation that may panic. *)
Definition lift {A : Type} (r : result A) : Proc A := fun tr => (tr, r).

(** [if err != nil { panic(err) }] after a call that returned [r]. *)
Definition must {A : Type} (r : orError A) : Proc A :=
  match r with
  | Val a => pret a
  | Err err => panic (PanicError err)
  end.

Definition check (err : option error) : Proc unit :=
  match err with
  | None => pret tt
  | Some e => panic (PanicError e)
  end.

Section Pipeline.

Variable E : Env.

(** [*outputDirectory], the value of the flag [-o]. *)
Variable outputDirectory : string.

(** The call [os.Create(name)]. *)
Definition call_Create (name : string) : Proc (option error) :=
  fun tr =>
    let err := os_Create E tr name in
    ((tr ++ [EvCreate name err])%list, Ok err).

(** The call [f.Write(data)] on the file created under [name]. *)
Definition call_Write (name data : string) : Proc (option error) :=
  fun tr =>
    let err := file_Write E tr name data in
    ((tr ++ [EvWrite name data err])%list, Ok err).

(** [func executeTemplate(n string, t *template.Template, e templElem)]. *)
Definition executeTemplate (n : string) (t : template) (e : templElem)
  : Proc unit :=
  b ← must (template_Execute t e);
  formatted ← must (format_Source E b);
  let name := filepath_Join outputDirectory n in
  err ← call_Create name;
  check err;;
  err' ← call_Write name formatted;
  check err'.

(** The body of [for k, v := range elements]. *)
Definition main_body (kv : string * Desc) : Proc unit :=
  let '(k, v) := kv in
  e ← lift (main_elem k v);
  executeTemplate (k +:+ "_elem.go") primary e;;
  executeTemplate (k +:+ "_elem_test.go") test e.

(** The loop, over the entries in the order the [range] visits them. *)
Fixpoint main_range (order : list (string * Desc)) : Proc unit :=
  match order with
  | [] => mret tt
  | kv :: order' => main_body kv;; main_range order'
  end.

(** A run of [main] that visits the entries in the given order. *)
Definition main_in_order (order : list (string * Desc)) : trace * result unit :=
  main_range order [].

(** [func main()]: [r] is the outcome of a run over the catalog
    [elements] (the map literal, or what the TOML file holds).  The order
    in which [range] visits a map is not specified and differs from run to
    run; every entry is visited exactly once. *)
Definition main (elements : gmap string Desc) (r : trace * result unit)
  : Prop :=
  exists order, order ≡ₚ map_to_list elements /\ main_in_order order = r.

(** The bytes of the file of one kind for an entry: the template of the
    kind run on the derived names, then formatted. *)
Definition rendered (kind : artifactKind) (e : templElem) : option string :=
  match template_Execute (artifactTemplate kind) e with
  | Val b =>
      match format_Source E b with
      | Val formatted => Some formatted
      | Err _ => None
      end
  | Err _ => None
  end.

(** One of the four steps of [executeTemplate] fails with [err]: the
    execution of the template, the formatting, the creation of the file or
    the write, each reached only when the steps before it succeeded. *)
Definition step_fails (n : string) (t : template) (e : templElem) (tr : trace)
  (err : error) : Prop :=
  template_Execute t e = Err err
  \/ (exists b, template_Execute t e = Val b /\ format_Source E b = Err err)
  \/ (exists b formatted,
        template_Execute t e = Val b /\ format_Source E b = Val formatted
        /\ os_Create E tr (filepath_Join outputDirectory n) = Some err)
  \/ (exists b formatted,
        template_Execute t e = Val b /\ format_Source E b = Val formatted
        /\ os_Create E tr (filepath_Join outputDirectory n) = None
        /\ file_Write E
             (tr ++ [EvCreate (filepath_Join outputDirectory n) None])%list
             (filepath_Join outputDirectory n) formatted = Some err).

(** The call of [executeTemplate] that writes the file of one kind for
    an entry. *)
Definition generate (k : string) (e : templElem) (kind : artifactKind)
  : Proc unit :=
  executeTemplate (k +:+ artifactSuffix kind) (artifactTemplate kind) e.

(** The file of [kind] is the one at which the entry fails: its call
    panics with [p], from the trace [tr] to the trace [tr'], the file
    before it having been written. *)
Definition artifact_fails (k : string) (e : templElem) (kind : artifactKind)
  (tr tr' : trace) (p : panicValue) : Prop :=
  match kind with
  | Implementation => generate k e Implementation tr = (tr', Panic p)
  | TestFile =>
      exists tr0,
        generate k e Implementation tr = (tr0, Ok tt)
        /\ generate k e TestFile tr0 = (tr', Panic p)
  end.

(** The call of [executeTemplate] for the file of [kind] of an entry is
    reached at the trace [tr0], the body of the loop having started at the
    trace [tr1]: at once for the implementation file; for the test file,
    when the call for the implementation file has returned. *)
Definition reaches (k : string) (e : templElem) (kind : artifactKind)
  (tr1 tr0 : trace) : Prop :=
  match kind with
  | Implementation => tr0 = tr1
  | TestFile => generate k e Implementation tr1 = (tr0, Ok tt)
  end.

(** A call of the run that visits the entries in [order] fails with
    [err]: the run reaches the call for a file of an entry, the entries
    before it having gone through, and one of the steps of the call fails
    with [err]. *)
Definition call_fails (order : list (string * Desc)) (err : error) : Prop :=
  exists pre k v post e kind tr1 tr0,
    order = (pre ++ (k, v) :: post)%list
    /\ main_in_order pre = (tr1, Ok tt)
    /\ main_elem k v = Ok e
    /\ reaches k e kind tr1 tr0
    /\ step_fails (k +:+ artifactSuffix kind) (artifactTemplate kind) e tr0 err.

(** The files a complete run writes for one entry. *)
Definition entry_artifacts (kv : string * Desc) : list (string * string) :=
  match main_elem (fst kv) (snd kv) with
  | Ok e =>
      match rendered Implementation e, rendered TestFile e with
      | Some f1, Some f2 =>
          [(artifact_path outputDirectory (fst kv) Implementation, f1);
           (artifact_path outputDirectory (fst kv) TestFile, f2)]
      | _, _ => []
      end
  | Panic _ => []
  end.

(** The written file belongs to an entry of [order]: its path is that of
    a kind of file of the entry, its bytes are the formatted output of the
    template of the kind on the names derived for the entry. *)
Definition entry_artifact (order : list (string * Desc)) (pd : string * string)
  : Prop :=
  exists k v e kind,
    (k, v) ∈ order
    /\ main_elem k v = Ok e
    /\ fst pd = artifact_path outputDirectory k kind
    /\ rendered kind e = Some (snd pd).

(** The event belongs to an entry of [order]: it bears one of the two
    paths of the entry. *)
Definition entry_event (order : list (string * Desc)) (ev : event) : Prop :=
  exists k v kind,
    (k, v) ∈ order
    /\ event_name ev
       = filepath_Join outputDirectory (k +:+ artifactSuffix kind).

End Pipeline.

(** The files a complete run over a catalog writes. *)
Definition catalog_artifacts (E : Env) (outputDirectory : string)
  (elements : gmap string Desc) : list (string * string) :=
  flat_map (entry_artifacts E outputDirectory) (map_to_list elements).

(** An environment in which no call can fail, whatever its arguments:
    the formatter accepts every text, and no file is refused.  This is
    more than a run needs, which makes only the calls of its entries (see
    [call_fails]); it serves to build examples. *)
Definition never_fails (E : Env) : Prop :=
  (forall b, exists formatted, format_Source E b = Val formatted)
  /\ (forall tr name, os_Create E tr name = None)
  /\ (forall tr name data, file_Write E tr name data = None).

(* ===================================================================== *)
(** * The specification's reading of the derivation rules *)
(* ===================================================================== *)

(** The definitions of this part follow the words of the specification,
    not the code: a character is a code point of the UTF-8 text of the
    string, and "uppercased" is [unicode.ToUpper]. *)

Definition in_range (lo hi : N) (b : ascii) : bool :=
  (lo <=? byte_val b) && (byte_val b <=? hi).

Definition cont_bits (b : ascii) : N := N.land (byte_val b) 63.

(** The first character of a string and the rest of the string: the
    decoding of [utf8.DecodeRuneInString] on well-formed text, [None] on
    the empty string and on ill-formed text. *)
Definition utf8_DecodeRune (s : string) : option (N * string) :=
  match s with
  | EmptyString => None
  | String b0 s1 =>
      let v0 := byte_val b0 in
      if v0 <? RuneSelf then Some (v0, s1)
      else if in_range 194 223 b0 then
        match s1 with
        | String b1 s2 =>
            if in_range 128 191 b1
            then Some (N.lor (N.shiftl (N.land v0 31) 6) (cont_bits b1), s2)
            else None
        | _ => None
        end
      else if in_range 224 239 b0 then
        match s1 with
        | String b1 (String b2 s3) =>
            let lo := if v0 =? 224 then 160 else 128 in
            let hi := if v0 =? 237 then 159 else 191 in
            if in_range lo hi b1 && in_range 128 191 b2
            then Some (N.lor (N.shiftl (N.land v0 15) 12)
                         (N.lor (N.shiftl (cont_bits b1) 6) (cont_bits b2)), s3)
            else None
        | _ => None
        end
      else if in_range 240 244 b0 then
        match s1 with
        | String b1 (String b2 (String b3 s4)) =>
            let lo := if v0 =? 240 then 144 else 128 in
            let hi := if v0 =? 244 then 143 else 191 in
            if in_range lo hi b1 && in_range 128 191 b2 && in_range 128 191 b3
            then Some (N.lor (N.shiftl (N.land v0 7) 18)
                         (N.lor (N.shiftl (cont_bits b1) 12)
                            (N.lor (N.shiftl (cont_bits b2) 6) (cont_bits b3))), s4)
            else None
        | _ => None
        end
      else None
  end.

(** [unicode.ToUpper], on the part of its table embedded above: the code
    points below U+0100.  [None] elsewhere. *)
Definition unicode_ToUpper (r : N) : option N :=
  if r <? 256 then Some (latin1_ToUpper r) else None.

(** "The key with only its first character uppercased and the remainder
    unchanged".  [None] where the string has no first character or the
    first character is outside the embedded part of the case table. *)
Definition capitalizeFirstChar (s : string) : option string :=
  match utf8_DecodeRune s with
  | Some (r, rest) =>
      match unicode_ToUpper r with
      | Some u => Some (utf8_EncodeRune u +:+ rest)
      | None => None
      end
  | None => None
  end.

(** "If [Descriptor.nameOverride] is non-empty, use it verbatim; otherwise
    take [key], uppercase only its first character". *)
Definition canonical_spec (k : string) (v : Desc) : option string :=
  if (Desc_Override v =? "")%string then capitalizeFirstChar k
  else Some (Desc_Override v).

(** "[fieldName]: [AttributeSpec.nameOverride] if non-empty, else
    [AttributeSpec.rawName] with only its first character uppercased". *)
Definition fieldName_spec (a : Attr) : option string :=
  if (Attr_Override a =? "")%string then capitalizeFirstChar (Attr_Name a)
  else Some (Attr_Override a).

(** "[fieldType]: [AttributeSpec.type] if non-empty, else the default
    generic string type". *)
Definition fieldType_spec (a : Attr) : string :=
  if (Attr_Type a =? "")%string then "string" else Attr_Type a.

(** No index expression of the derivation of the entry is out of range:
    whatever is capitalised is not empty. *)
Definition derivable (k : string) (v : Desc) : Prop :=
  (Desc_Override v <> "" \/ k <> "")
  /\ Forall (fun a => Attr_Override a <> "" \/ Attr_Name a <> "")
       (Desc_Attributes v).

(** The specification's canonical identifier and field names, checked
    against the code on one entry. *)
Definition entry_as_specified (kv : string * Desc) : bool :=
  match main_elem (fst kv) (snd kv), canonical_spec (fst kv) (snd kv) with
  | Ok e, Some upper =>
      String.eqb (te_Upper e) upper
      && forallb (fun p => match fieldName_spec (fst p) with
                           | Some name => String.eqb (ta_Name (snd p)) name
                           | None => false
                           end)
           (combine (Desc_Attributes (snd kv)) (te_Attrs e))
      && Nat.eqb (length (te_Attrs e)) (length (Desc_Attributes (snd kv)))
  | _, _ => false
  end.

(** A string with its first byte replaced by its ASCII upper case. *)
Definition asciiCapitalize (s : string) : string :=
  match s with
  | EmptyString => EmptyString
  | String c rest => String (ascii_upper c) rest
  end.

(* ===================================================================== *)
(** * Example catalogs and environments *)
(* ===================================================================== *)

(** A string from the values of its bytes. *)
Definition bytes (l : list N) : string :=
  string_of_list_ascii (map byte_of l).

(** The key "e with acute accent" (U+00E9), in UTF-8. *)
Definition key_e_acute : string := bytes [195; 169].

Definition desc_plain : Desc := mkDesc "" [].

(** The names derived for an entry without attributes whose canonical
    identifier is [upper]. *)
Definition plain_elem (k upper : string) : templElem :=
  mkTemplElem (upper +:+ "Elem") k (upper +:+ "Props") upper [].

(** An environment in which nothing fails: the formatter returns the text
    it is given. *)
Definition env_accept : Env :=
  mkEnv (fun s => Val s) (fun _ _ => None) (fun _ _ _ => None).

(** An environment whose formatter rejects every text with the same
    message; the messages of [format.Source] name a position in the text,
    never the file or the entry. *)
Definition env_reject : Env :=
  mkEnv (fun _ => Err "1:1: expected 'package'") (fun _ _ => None)
    (fun _ _ _ => None).

(** An environment in which one file cannot be created. *)
Definition env_locked (locked : string) : Env :=
  mkEnv (fun s => Val s)
    (fun _ name => if (name =? locked)%string then Some "permission denied" else None)
    (fun _ _ _ => None).

(** The entry of the catalog for [<details>], and one whose two attributes
    resolve to the same field name. *)
Definition desc_details : Desc := mkDesc "" [mkAttr "open" "" "bool"].
Definition desc_duplicate : Desc :=
  mkDesc "" [mkAttr "src" "" ""; mkAttr "source" "Src" ""].

(** The two lines of the properties struct that [desc_duplicate] yields. *)
Definition duplicate_fields : string :=
  txt ["Src string `js:"; dq; "src"; dq; "`"; nl; tab;
       "Src string `js:"; dq; "source"; dq; "`"; nl; tab].

(** An environment in which one file cannot be written. *)
Definition env_full (full : string) : Env :=
  mkEnv (fun s => Val s) (fun _ _ => None)
    (fun _ name _ =>
       if (name =? full)%string then Some "no space left on device" else None).

(** A catalog of two entries. *)
Definition elements_ab : gmap string Desc :=
  <["a" := desc_plain]> (<["b" := desc_plain]> ∅).

(** A catalog of two entries whose keys differ and give the same paths. *)
Definition elements_collide : gmap string Desc :=
  <["a" := mkDesc "A" []]> (<["./a" := mkDesc "B" []]> ∅).

(* ===================================================================== *)
(** * The text of the generated files *)
(* ===================================================================== *)

(** The line of the properties struct for one attribute: the body of the
    [range] of [primaryTemplate]. *)
Definition field_line (a : templAttr) : string :=
  ta_Name a +:+ txt [" "] +:+ ta_Type a +:+ txt [" `js:"; dq] +:+ ta_JS a
  +:+ txt [dq; "`"; nl; tab].

Fixpoint field_lines (l : list templAttr) : string :=
  match l with
  | [] => ""
  | a :: l' => field_line a +:+ field_lines l'
  end.

(** [primaryTemplate] up to its [range], and from its [end] on, with the
    fields [.Elem], [.Name], [.Props] and [.Upper] filled in. *)
Definition primary_head (el nm pr : string) : string :=
  txt
    [nl;
     "// Copyright (c) 2018 Paul Jolly <paul@myitcv.org.uk>, all rights reserved.";
     nl;
     "// Use of this document is governed by a license found in the LICENSE document.";
     nl; nl; "package react"; nl; nl; "// "]
  +:+ el
  +:+ txt
    [" is the React element definition corresponding to the HTML <"]
  +:+ nm
  +:+ txt
    ["> element."; nl; "type "]
  +:+ el
  +:+ txt
    [" struct {"; nl; tab; "Element"; nl; "}"; nl; nl; "// _"]
  +:+ pr
  +:+ txt
    [" defines the properties for the <"]
  +:+ nm
  +:+ txt
    ["> element."; nl; "type _"]
  +:+ pr
  +:+ txt
    [" struct {"; nl; tab; "*BasicHTMLElement"; nl; nl; tab].

Definition primary_tail (el nm pr up : string) : string :=
  txt
    [nl; "}"; nl; nl; "// A creates a new instance of a <"]
  +:+ nm
  +:+ txt
    ["> element with the provided props and children."; nl; "func "]
  +:+ up
  +:+ txt
    ["(props *"]
  +:+ pr
  +:+ txt
    [", children ...Element) *"]
  +:+ el
  +:+ txt
    [" {"; nl; tab; "rProps := &_"]
  +:+ pr
  +:+ txt
    ["{"; nl; tab; tab; "BasicHTMLElement: newBasicHTMLElement(),"; nl; tab;
     "}"; nl; nl; tab; "if props != nil {"; nl; tab; tab;
     "props.assign(rProps)"; nl; tab; "}"; nl; nl; tab; "return &"]
  +:+ el
  +:+ txt
    ["{"; nl; tab; tab; "Element: createElement("; dq]
  +:+ nm
  +:+ txt
    [dq; ", rProps, children...),"; nl; tab; "}"; nl; "}"; nl].

(** [testTemplate] with its fields filled in. *)
Definition test_text (el nm pr up : string) : string :=
  txt
    [nl; "// +build js"; nl; nl; "package react_test"; nl; nl; "import (";
     nl; tab; dq; "testing"; dq; nl; nl; tab; dq; "honnef.co/go/js/dom"; dq;
     nl; nl; tab; dq; "myitcv.io/react"; dq; nl; tab; dq;
     "myitcv.io/react/testutils"; dq; nl; ")"; nl; nl; "func Test"]
  +:+ el
  +:+ txt
    ["(t *testing.T) {"; nl; tab; "class := "; dq; "test"; dq; nl; nl; tab;
     "x := testutils.Wrapper(react."]
  +:+ up
  +:+ txt
    ["(&react."]
  +:+ pr
  +:+ txt
    ["{ClassName: class}))"; nl; tab;
     "cont := testutils.RenderIntoDocument(x)"; nl; nl; tab;
     "el := testutils.FindRenderedDOMComponentWithClass(cont, class)"; nl;
     nl; tab; "if _, ok := el.(*dom.HTMLAnchorElement); !ok {"; nl; tab; tab;
     "t.Fatal("; dq; "Failed to find <"]
  +:+ nm
  +:+ txt
    ["> element"; dq; ")"; nl; tab; "}"; nl; "}"; nl].

(* ===================================================================== *)
(** * The program that reads the catalog from a file *)
(* ===================================================================== *)

(** The second program of the source decodes the catalog from the TOML
    file named by the flag [-i] and runs the same loop.  Its types
    [tomlDesc], [tomlAttr], [el] and [attr] have the fields of [Desc],
    [Attr], [templElem] and [templAttr], which stand for them here, but
    for the field [Attributes] of [el], which the first program calls
    [Attrs]. *)

(** Field selection on [el] and [attr]. *)
Definition value_field_toml (v : value) (f : string) : option value :=
  match v with
  | VElem e =>
      if (f =? "Elem")%string then Some (VString (te_Elem e))
      else if (f =? "Name")%string then Some (VString (te_Name e))
      else if (f =? "Props")%string then Some (VString (te_Props e))
      else if (f =? "Upper")%string then Some (VString (te_Upper e))
      else if (f =? "Attributes")%string then Some (VAttrs (te_Attrs e))
      else None
  | VAttr a =>
      if (f =? "Name")%string then Some (VString (ta_Name a))
      else if (f =? "JS")%string then Some (VString (ta_JS a))
      else if (f =? "Type")%string then Some (VString (ta_Type a))
      else None
  | VAttrs _ => None
  | VString _ => None
  end.

(** The execution of a node, on the structs of the second program. *)
Fixpoint exec_node_toml (name : string) (dot : value) (n : node) {struct n}
  : orError string :=
  match n with
  | NText s => Val s
  | NField f =>
      match value_field_toml dot f with
      | Some v => Val (print_value v)
      | None => Err (err_field name f)
      end
  | NRange f body =>
      match value_field_toml dot f with
      | Some (VAttrs l) =>
          each_attr
            (fun a =>
               (fix seq (ns : list node) : orError string :=
                  match ns with
                  | [] => Val ""
                  | n' :: ns' =>
                      ebind (exec_node_toml name (VAttr a) n') (fun s =>
                      ebind (seq ns') (fun s' => Val (s +:+ s')))
                  end) body)
            l
      | Some _ => Err (err_range name f)
      | None => Err (err_field name f)
      end
  end.

Fixpoint exec_nodes_toml (name : string) (dot : value) (ns : list node)
  : orError string :=
  match ns with
  | [] => Val ""
  | n :: ns' =>
      ebind (exec_node_toml name dot n) (fun s =>
      ebind (exec_nodes_toml name dot ns') (fun s' => Val (s +:+ s')))
  end.

Definition template_Execute_toml (t : template) (e : templElem) : orError string :=
  exec_nodes_toml (tmpl_name t) (VElem e) (tmpl_nodes t).

(** [primaryTemplate] of the second program, parsed; its [testTemplate]
    is that of the first. *)
Definition primaryTemplate_toml : list node :=
  [NText (txt
     [nl;
      "// Copyright (c) 2018 Paul Jolly <paul@myitcv.org.uk>, all rights reserved.";
      nl;
      "// Use of this document is governed by a license found in the LICENSE document.";
      nl; nl; "package react"; nl; nl; "// "]);
   NField "Elem";
   NText (txt
     [" is the React element definition corresponding to the HTML <"]);
   NField "Name";
   NText (txt
     ["> element."; nl; "type "]);
   NField "Elem";
   NText (txt
     [" struct {"; nl; tab; "Element"; nl; "}"; nl; nl; "// _"]);
   NField "Props";
   NText (txt
     [" defines the properties for the <"]);
   NField "Name";
   NText (txt
     ["> element."; nl; "type _"]);
   NField "Props";
   NText (txt
     [" struct {"; nl; tab; "*BasicHTMLElement"; nl; nl; tab]);
   NRange "Attributes"
     [NField "Name";
      NText (txt
        [" "]);
      NField "Type";
      NText (txt
        [" `js:"; dq]);
      NField "JS";
      NText (txt
        [dq; "`"; nl; tab])];
   NText (txt
     [nl; "}"; nl; nl; "// A creates a new instance of a <"]);
   NField "Name";
   NText (txt
     ["> element with the provided props and children."; nl; "func "]);
   NField "Upper";
   NText (txt
     ["(props *"]);
   NField "Props";
   NText (txt
     [", children ...Element) *"]);
   NField "Elem";
   NText (txt
     [" {"; nl; tab; "rProps := &_"]);
   NField "Props";
   NText (txt
     ["{"; nl; tab; tab; "BasicHTMLElement: newBasicHTMLElement(),"; nl; tab;
      "}"; nl; nl; tab; "if props != nil {"; nl; tab; tab;
      "props.assign(rProps)"; nl; tab; "}"; nl; nl; tab; "return &"]);
   NField "Elem";
   NText (txt
     ["{"; nl; tab; tab; "Element: createElement("; dq]);
   NField "Name";
   NText (txt
     [dq; ", rProps, children...),"; nl; tab; "}"; nl; "}"; nl])].

Definition primary_toml : template := mkTemplate "primary" primaryTemplate_toml.

Section PipelineToml.

Variable E : Env.
Variable outputDirectory : string.

(** [func executeTemplate(n string, t *template.Template, e el)]. *)
Definition executeTemplate_toml (n : string) (t : template) (e : templElem)
  : Proc unit :=
  b ← must (template_Execute_toml t e);
  formatted ← must (format_Source E b);
  let name := filepath_Join outputDirectory n in
  err ← call_Create E name;
  check err;;
  err' ← call_Write E name formatted;
  check err'.

(** The body of the loop of the second [main]. *)
Definition main_body_toml (kv : string * Desc) : Proc unit :=
  let '(k, v) := kv in
  e ← lift (main_elem k v);
  executeTemplate_toml (k +:+ "_elem.go") primary_toml e;;
  executeTemplate_toml (k +:+ "_elem_test.go") test e.

Fixpoint main_range_toml (order : list (string * Desc)) : Proc unit :=
  match order with
  | [] => mret tt
  | kv :: order' => main_body_toml kv;; main_range_toml order'
  end.

(** The second [func main()]: [decoded] is what [toml.DecodeFile] made of
    the file, the catalog or an error; on an error [main] panics before
    the loop. *)
Definition main_toml (decoded : orError (gmap string Desc))
  (r : trace * result unit) : Prop :=
  match decoded with
  | Err err => r = ([], Panic (PanicError err))
  | Val elements =>
      exists order,
        order ≡ₚ map_to_list elements /\ main_range_toml order [] = r
  end.

End PipelineToml.

(* ===================================================================== *)
(** * The trace of a run, [usage] and the flags *)
(* ===================================================================== *)

(** The calls of a run come in pairs, a [Create] and the [Write] to the
    file created, both without error; only the last [Create], or the
    [Write] after it, may have failed. *)
Fixpoint protocol (tr : trace) : bool :=
  match tr with
  | [] => true
  | EvCreate name None :: EvWrite name' _ None :: tr' =>
      String.eqb name name' && protocol tr'
  | [EvCreate _ (Some _)] => true
  | [EvCreate name None; EvWrite name' _ (Some _)] => String.eqb name name'
  | _ => false
  end.

(** A trace without failed call. *)
Definition no_failure (tr : trace) : bool :=
  forallb (fun ev => match ev with
                     | EvCreate _ None | EvWrite _ _ None => true
                     | _ => false
                     end) tr.

(** The two paths of an entry. *)
Definition entry_paths (outputDirectory : string) (kv : string * Desc)
  : list string :=
  [artifact_path outputDirectory (fst kv) Implementation;
   artifact_path outputDirectory (fst kv) TestFile].

(** [path.Base]: the last element of a slash-separated path.  The path is
    read backwards: trailing slashes are stripped, then the bytes after
    the last slash are kept. *)
Fixpoint strip_slashes (rpath : list ascii) : list ascii :=
  match rpath with
  | [] => []
  | c :: r => if IsPathSeparator c then strip_slashes r else rpath
  end.

Fixpoint last_element (rpath : list ascii) : list ascii :=
  match rpath with
  | [] => []
  | c :: r => if IsPathSeparator c then [] else c :: last_element r
  end.

Definition path_Base (path : string) : string :=
  match path with
  | EmptyString => "."
  | _ =>
      match last_element (strip_slashes (rev (list_ascii_of_string path))) with
      | [] => "/"
      | elem => string_of_list_ascii (rev elem)
      end
  end.

(** [func usage()]: what it writes to the standard error, [arg0] being
    [os.Args[0]] and [defaults] the text of [flag.PrintDefaults()]. *)
Definition usage (defaults arg0 : string) : string :=
  "Usage: " +:+ path_Base arg0 +:+ nl +:+ defaults.

(** The outcome of [flag.Parse()]: the values of the flags and the
    arguments left, or the exit of the program after the text written to
    the standard error. *)
Inductive parsed : Type :=
| Parsed (values : gmap string string) (args : list string)
| ParseExit (stderr : string).

(** [name=value]: the name and the value, cut at the first [=] that is
    not the first byte of the name. *)
Fixpoint cut_equals (s : string) : string * option string :=
  match s with
  | EmptyString => (EmptyString, None)
  | String c s' =>
      if Ascii.eqb c "="%char then (EmptyString, Some s')
      else let '(name, value) := cut_equals s' in (String c name, value)
  end.

Definition split_flag (name : string) : string * option string :=
  match name with
  | EmptyString => (EmptyString, None)
  | String c s' => let '(name', value) := cut_equals s' in (String c name', value)
  end.

(** [flag.Parse()] on a flag set of string flags, as both programs
    declare: [values] holds the declared flags with their current values,
    [usage_text] is what [flag.CommandLine.Usage], which [main] sets to
    [usage], writes.  The loop of [Parse] around [parseOne], with the exit
    of [ExitOnError]. *)
Fixpoint flag_Parse (usage_text : string) (values : gmap string string)
  (args : list string) : parsed :=
  match args with
  | [] => Parsed values []
  | s :: rest =>
      match s with
      | String "-" (String c1 s2) =>
          if Ascii.eqb c1 "-"%char && (s2 =? "")%string then
            (* "--" terminates the flags *)
            Parsed values rest
          else
            let name := if Ascii.eqb c1 "-"%char then s2 else String c1 s2 in
            match name with
            | EmptyString =>
                ParseExit ("bad flag syntax: " +:+ s +:+ nl +:+ usage_text)
            | String c _ =>
                if Ascii.eqb c "-"%char || Ascii.eqb c "="%char then
                  ParseExit ("bad flag syntax: " +:+ s +:+ nl +:+ usage_text)
                else
                  let '(name', value) := split_flag name in
                  match values !! name' with
                  | None =>
                      if (name' =? "help")%string || (name' =? "h")%string
                      then ParseExit usage_text
                      else ParseExit ("flag provided but not defined: -"
                                      +:+ name' +:+ nl +:+ usage_text)
                  | Some _ =>
                      match value with
                      | Some v => flag_Parse usage_text (<[name' := v]> values) rest
                      | None =>
                          match rest with
                          | v :: rest' =>
                              flag_Parse usage_text (<[name' := v]> values) rest'
                          | [] =>
                              ParseExit ("flag needs an argument: -" +:+ name'
                                         +:+ nl +:+ usage_text)
                          end
                      end
                  end
            end
      | _ => Parsed values args
      end
  end.

(** The flags of the first program, [-o] with its default, and of the
    second, which adds [-i]. *)
Definition flags_literal : gmap string string := {["o" := "."]}.
Definition flags_toml : gmap string string :=
  <["i" := "elements.toml"]> flags_literal.

(** What a procedure that makes at most [calls] calls to the operating
    system, started on a trace without failure, leaves: the trace still
    follows the protocol and has grown by at most [calls] events; when the
    procedure returns, no call has failed and it has made them all. *)
Definition keeps_protocol (calls : nat) (tr tr' : trace) (r : result unit) : Prop :=
  protocol tr' = true
  /\ (length tr' <= length tr + calls)%nat
  /\ match r with
     | Ok _ => no_failure tr' = true /\ length tr' = (length tr + calls)%nat
     | Panic _ => True
     end.

(** An error that some call of the environment returns. *)
Definition env_error (E : Env) (err : error) : Prop :=
  (exists b, format_Source E b = Err err)
  \/ (exists tr name, os_Create E tr name = Some err)
  \/ (exists tr name data, file_Write E tr name data = Some err).

(** What [parseOne] does with an argument that has the form of a flag,
    the arguments after it being [rest]: it exits after a message and the
    usage text, it stops at [--], or it sets a declared flag and goes on
    with the arguments left. *)
Inductive flag_step (u : string) (values : gmap string string)
  (rest : list string) : parsed -> Prop :=
| StepExit (msg : string) : flag_step u values rest (ParseExit (msg +:+ u))
| StepStop : flag_step u values rest (Parsed values rest)
| StepSet (name v : string) (rest' : list string) :
    is_Some (values !! name) ->
    rest' `suffix_of` rest ->
    flag_step u values rest (flag_Parse u (<[name := v]> values) rest').

(* ===================================================================== *)
(** * Properties of the name derivation *)
(* ===================================================================== *)

(** Case analysis on a test against the empty string. *)
Ltac case_empty s :=
  let H := fresh "Hempty" in
  destruct (String.eqb_spec s "") as [H | H]; [try rewrite H in * | ]; simpl.

(** A [Forall] over a list given element by element. *)
Ltac forall_list tac :=
  repeat (apply Forall_cons_2; [tac |]); apply Forall_nil_2.

(** Case analysis on the 256 values of a byte. *)
Ltac each_byte c :=
  destruct c as [[] [] [] [] [] [] [] []].

Lemma ToUpper_string_byte_ascii (c : ascii) :
  is_ascii_byte c = true ->
  ToUpper_string_byte c = String (ascii_upper c) "".
Proof. each_byte c; intros H; try discriminate H; reflexivity. Qed.

Lemma string_of_byte_ascii (c : ascii) :
  is_ascii_byte c = true -> string_of_byte c = String c "".
Proof. each_byte c; intros H; try discriminate H; reflexivity. Qed.

(** On an ASCII byte, upper-casing the byte and upper-casing the character
    are the same thing. *)
Lemma capitalizeFirstChar_ascii (c : ascii) (rest : string) :
  is_ascii_byte c = true ->
  capitalizeFirstChar (String c rest) = Some (String (ascii_upper c) rest).
Proof. each_byte c; intros H; try discriminate H; reflexivity. Qed.

Lemma upperFirst_ascii (s : string) :
  starts_ascii s = true -> upperFirst s = Ok (asciiCapitalize s).
Proof.
  destruct s as [| c rest]; simpl; [discriminate |].
  intros H. now rewrite (ToUpper_string_byte_ascii c H).
Qed.

Lemma capitalizeFirstChar_starts_ascii (s : string) :
  starts_ascii s = true -> capitalizeFirstChar s = Some (asciiCapitalize s).
Proof.
  destruct s as [| c rest]; simpl; [discriminate |].
  apply capitalizeFirstChar_ascii.
Qed.

Lemma upperFirst_nonempty (s : string) :
  s <> "" -> exists u, upperFirst s = Ok u.
Proof. destruct s; [congruence | simpl; eauto]. Qed.

Lemma upperFirst_Ok_inv (s u : string) :
  upperFirst s = Ok u -> s <> "".
Proof. destruct s; [discriminate | congruence]. Qed.

(** The accumulator of the attribute loop only ever grows at its end. *)
Lemma main_attrs_from_acc (acc : list templAttr) (l : list Attr) :
  main_attrs_from acc l
  = rbind (main_attrs l) (fun tas => Ok (acc ++ tas)%list).
Proof.
  unfold main_attrs. revert acc.
  induction l as [| a l IH]; intros acc; simpl.
  - now rewrite app_nil_r.
  - destruct (main_attr a) as [ta | p]; simpl; [| reflexivity].
    rewrite (IH (acc ++ [ta])%list), (IH [ta]).
    destruct (main_attrs_from [] l) as [tas | p]; simpl; [| reflexivity].
    now rewrite <- app_assoc.
Qed.

Lemma main_attrs_cons (a : Attr) (l : list Attr) :
  main_attrs (a :: l)
  = rbind (main_attr a) (fun ta =>
    rbind (main_attrs l) (fun tas => Ok (ta :: tas))).
Proof.
  unfold main_attrs at 1. simpl.
  destruct (main_attr a) as [ta | p]; simpl; [| reflexivity].
  apply main_attrs_from_acc.
Qed.

(** The loop succeeds exactly when every iteration does, and then yields
    the results of the iterations in order. *)
Lemma main_attrs_Ok (l : list Attr) (tas : list templAttr) :
  main_attrs l = Ok tas <-> Forall2 (fun a ta => main_attr a = Ok ta) l tas.
Proof.
  revert tas. induction l as [| a l IH]; intros tas.
  - split.
    + intros H. injection H as <-. constructor.
    + intros H. inversion H. reflexivity.
  - rewrite main_attrs_cons. split.
    + destruct (main_attr a) as [ta | p] eqn:Ha; simpl; [| discriminate].
      destruct (main_attrs l) as [tas' | p] eqn:Hl; simpl; [| discriminate].
      intros H. injection H as <-. constructor; [assumption |].
      now apply IH.
    + intros H. inversion H as [| a' ta l' tas' Ha Hl]; subst.
      rewrite Ha. simpl. apply IH in Hl. rewrite Hl. reflexivity.
Qed.

(** One iteration panics only on an empty name without override. *)
Lemma main_attr_Ok (a : Attr) :
  Attr_Override a <> "" \/ Attr_Name a <> "" ->
  exists name,
    main_attr a = Ok (mkTemplAttr name (Attr_Name a) (fieldType_spec a)).
Proof.
  intros H. unfold main_attr, fieldType_spec.
  case_empty (Attr_Override a).
  - destruct H as [H | H]; [congruence |].
    destruct (upperFirst_nonempty _ H) as [u ->]. simpl. eauto.
  - eauto.
Qed.

Lemma main_attr_Ok_inv (a : Attr) (ta : templAttr) :
  main_attr a = Ok ta ->
  (Attr_Override a <> "" \/ Attr_Name a <> "")
  /\ ta_JS ta = Attr_Name a /\ ta_Type ta = fieldType_spec a.
Proof.
  unfold main_attr, fieldType_spec.
  case_empty (Attr_Override a).
  - destruct (upperFirst (Attr_Name a)) as [u | p] eqn:Hu; simpl; [| discriminate].
    intros H. injection H as <-. simpl.
    split; [right; eapply upperFirst_Ok_inv; eassumption | split; reflexivity].
  - intros H. injection H as <-. simpl.
    split; [left; assumption | split; reflexivity].
Qed.

Lemma main_attrs_total (l : list Attr) :
  Forall (fun a => Attr_Override a <> "" \/ Attr_Name a <> "") l ->
  exists tas, main_attrs l = Ok tas.
Proof.
  induction 1 as [| a l Ha _ [tas IH]].
  - exists []. reflexivity.
  - destruct (main_attr_Ok a Ha) as [name Hname].
    rewrite main_attrs_cons, Hname, IH. simpl. eauto.
Qed.

Lemma main_upper_total (k : string) (v : Desc) :
  Desc_Override v <> "" \/ k <> "" -> exists upper, main_upper k v = Ok upper.
Proof.
  intros H. unfold main_upper. case_empty (Desc_Override v).
  - destruct H as [H | H]; [congruence |]. now apply upperFirst_nonempty.
  - eauto.
Qed.

Lemma main_elem_total (k : string) (v : Desc) :
  derivable k v ->
  exists upper attrs,
    main_upper k v = Ok upper
    /\ main_attrs (Desc_Attributes v) = Ok attrs
    /\ main_elem k v
       = Ok (mkTemplElem (upper +:+ "Elem") k (upper +:+ "Props") upper attrs).
Proof.
  intros [Hk Ha].
  destruct (main_upper_total k v Hk) as [upper Hu].
  destruct (main_attrs_total _ Ha) as [attrs Hattrs].
  exists upper, attrs. unfold main_elem. rewrite Hu, Hattrs. auto.
Qed.

Lemma main_elem_Ok_inv (k : string) (v : Desc) (e : templElem) :
  main_elem k v = Ok e ->
  main_upper k v = Ok (te_Upper e)
  /\ main_attrs (Desc_Attributes v) = Ok (te_Attrs e)
  /\ te_Name e = k
  /\ te_Elem e = te_Upper e +:+ "Elem"
  /\ te_Props e = te_Upper e +:+ "Props".
Proof.
  unfold main_elem.
  destruct (main_upper k v) as [upper | p]; simpl; [| discriminate].
  destruct (main_attrs (Desc_Attributes v)) as [attrs | p]; simpl; [| discriminate].
  intros H. injection H as <-. simpl. auto.
Qed.

(** The derivation returns exactly when no index expression is out of
    range. *)
Lemma main_elem_derivable (k : string) (v : Desc) (e : templElem) :
  main_elem k v = Ok e -> derivable k v.
Proof.
  intros He. apply main_elem_Ok_inv in He as (Hu & Ha & _). split.
  - unfold main_upper in Hu. case_empty (Desc_Override v); [| now left].
    right. eapply upperFirst_Ok_inv. exact Hu.
  - apply main_attrs_Ok in Ha.
    induction Ha as [| a ta l tas Hattr _ IH]; constructor; [| assumption].
    now apply main_attr_Ok_inv in Hattr as (Hattr & _).
Qed.

(** The examples of the specification. *)
Example derive_blockquote :
  main_elem "blockquote" (mkDesc "BlockQuote" [mkAttr "cite" "" ""])
  = Ok (mkTemplElem "BlockQuoteElem" "blockquote" "BlockQuoteProps" "BlockQuote"
          [mkTemplAttr "Cite" "cite" "string"]).
Proof. reflexivity. Qed.

Example derive_details :
  main_elem "details" desc_details
  = Ok (mkTemplElem "DetailsElem" "details" "DetailsProps" "Details"
          [mkTemplAttr "Open" "open" "bool"]).
Proof. reflexivity. Qed.

Example derive_col :
  main_attrs [mkAttr "bgcolor" "BGColor" ""]
  = Ok [mkTemplAttr "BGColor" "bgcolor" "string"].
Proof. reflexivity. Qed.

Example derive_empty_key : main_elem "" desc_plain = Panic IndexOutOfRange.
Proof. reflexivity. Qed.

(** ** The canonical identifier *)

(** [C1], as the specification states it, fails on a key whose first
    character is not ASCII: the code upper-cases the first byte of the
    key, read as a code point of its own, and keeps the other bytes of the
    character.  For the key U+00E9 (bytes C3 A9) the specification asks
    for U+00C9 (bytes C3 89); the code yields the bytes C3 83 A9. *)
Lemma canonical_identifier_non_ascii :
  main_upper key_e_acute desc_plain = Ok (bytes [195; 131; 169])
  /\ canonical_spec key_e_acute desc_plain = Some (bytes [195; 137])
  /\ bytes [195; 131; 169] <> bytes [195; 137].
Proof. repeat split. discriminate. Qed.

(** [C1], amended: the canonical identifier is the override verbatim when
    there is one; otherwise, for a key that begins with an ASCII
    character, it is the key with only its first character upper-cased and
    the rest unchanged. *)
Theorem canonical_identifier (k : string) (v : Desc) :
  (Desc_Override v = "" -> starts_ascii k = true) ->
  exists upper,
    main_upper k v = Ok upper
    /\ canonical_spec k v = Some upper
    /\ upper = (if (Desc_Override v =? "")%string then asciiCapitalize k
                else Desc_Override v).
Proof.
  intros H. unfold main_upper, canonical_spec.
  case_empty (Desc_Override v).
  - specialize (H eq_refl). exists (asciiCapitalize k).
    rewrite upperFirst_ascii, capitalizeFirstChar_starts_ascii by assumption.
    auto.
  - eauto.
Qed.

Lemma canonical_identifier_witness :
  exists upper,
    main_upper "audio" desc_plain = Ok upper
    /\ canonical_spec "audio" desc_plain = Some upper
    /\ upper = "Audio".
Proof. apply (canonical_identifier "audio" desc_plain). reflexivity. Defined.

(** ** The resolved attributes *)


Lemma main_attrs_JS (l : list Attr) (tas : list templAttr) :
  main_attrs l = Ok tas -> map ta_JS tas = map Attr_Name l.
Proof.
  intros H. apply main_attrs_Ok in H.
  induction H as [| a ta l tas' Ha _ IH]; [reflexivity |].
  simpl. destruct (main_attr_Ok_inv a ta Ha) as (_ & -> & _).
  now rewrite IH.
Qed.

Lemma main_attrs_Type (l : list Attr) (tas : list templAttr) :
  main_attrs l = Ok tas -> map ta_Type tas = map fieldType_spec l.
Proof.
  intros H. apply main_attrs_Ok in H.
  induction H as [| a ta l tas' Ha _ IH]; [reflexivity |].
  simpl. destruct (main_attr_Ok_inv a ta Ha) as (_ & _ & ->).
  now rewrite IH.
Qed.




(** [C5]: for every attribute, the resolved field type is "string" when
    the type of the attribute is empty and the type of the attribute
    verbatim otherwise; the attributes keep the order of the catalog.
    The derivation yields a resolved attribute list whenever no raw name
    that has to be capitalised is empty. *)
Theorem field_types (attrs : list Attr) :
  Forall (fun a => Attr_Override a <> "" \/ Attr_Name a <> "") attrs ->
  exists tas,
    main_attrs attrs = Ok tas
    /\ map ta_Type tas
       = map (fun a => if (Attr_Type a =? "")%string then "string"
                       else Attr_Type a) attrs.
Proof.
  intros Hder. destruct (main_attrs_total attrs Hder) as [tas Htas].
  exists tas. split; [assumption |].
  now apply main_attrs_Type.
Qed.

Lemma field_types_witness :
  Forall (fun a => Attr_Override a <> "" \/ Attr_Name a <> "")
    [mkAttr "open" "" "bool"; mkAttr "value" "" "float64"; mkAttr "cite" "" ""]
  /\ exists tas,
       main_attrs
         [mkAttr "open" "" "bool"; mkAttr "value" "" "float64"; mkAttr "cite" "" ""]
       = Ok tas
       /\ map ta_Type tas = ["bool"; "float64"; "string"].
Proof.
  assert (H : Forall (fun a => Attr_Override a <> "" \/ Attr_Name a <> "")
                [mkAttr "open" "" "bool"; mkAttr "value" "" "float64";
                 mkAttr "cite" "" ""]).
  { forall_list ltac:(right; discriminate). }
  split; [exact H |].
  exact (field_types _ H).
Defined.

(** [C6]: for every attribute, the external name in the resolved output is
    the raw name verbatim, whatever overrides the attribute or the
    descriptor carry. *)
Theorem external_names (k : string) (v : Desc) :
  derivable k v ->
  exists e,
    main_elem k v = Ok e
    /\ map ta_JS (te_Attrs e) = map Attr_Name (Desc_Attributes v).
Proof.
  intros Hder. destruct (main_elem_total k v Hder) as (upper & attrs & _ & Hattrs & He).
  eexists. split; [exact He |]. simpl.
  now apply main_attrs_JS.
Qed.

Lemma external_names_witness :
  derivable "col" (mkDesc "Column" [mkAttr "bgcolor" "BGColor" ""; mkAttr "span" "" ""])
  /\ exists e,
       main_elem "col" (mkDesc "Column" [mkAttr "bgcolor" "BGColor" ""; mkAttr "span" "" ""])
       = Ok e
       /\ map ta_JS (te_Attrs e) = ["bgcolor"; "span"].
Proof.
  assert (H : derivable "col"
                (mkDesc "Column" [mkAttr "bgcolor" "BGColor" ""; mkAttr "span" "" ""])).
  { split; [left; discriminate |].
    forall_list ltac:(first [left; discriminate | right; discriminate]). }
  split; [exact H |].
  exact (external_names _ _ H).
Defined.

(** [C7]: the derivation is total: for a non-empty key and attributes
    with non-empty raw names (none at all, keys and raw names of length
    one included) it returns a value and does not panic; no index
    expression is out of range. *)
Theorem derivation_total (k : string) (v : Desc) :
  k <> "" ->
  Forall (fun a => Attr_Name a <> "") (Desc_Attributes v) ->
  exists e,
    main_elem k v = Ok e
    /\ te_Name e = k
    /\ length (te_Attrs e) = length (Desc_Attributes v).
Proof.
  intros Hk Ha.
  assert (Hder : derivable k v).
  { split; [now right |]. eapply Forall_impl; [exact Ha |]. intros a; simpl. tauto. }
  destruct (main_elem_total k v Hder) as (upper & attrs & _ & Hattrs & He).
  eexists. split; [exact He |]. simpl. split; [reflexivity |].
  apply main_attrs_Ok in Hattrs. symmetry.
  eapply Forall2_length. exact Hattrs.
Qed.

Lemma derivation_total_witness :
  "b" <> ""
  /\ Forall (fun a => Attr_Name a <> "") (Desc_Attributes (mkDesc "" [mkAttr "x" "" ""]))
  /\ exists e,
       main_elem "b" (mkDesc "" [mkAttr "x" "" ""]) = Ok e
       /\ te_Name e = "b"
       /\ length (te_Attrs e) = 1%nat.
Proof.
  assert (Hk : "b" <> "") by discriminate.
  assert (Ha : Forall (fun a => Attr_Name a <> "")
                 (Desc_Attributes (mkDesc "" [mkAttr "x" "" ""]))).
  { forall_list ltac:(discriminate). }
  split; [exact Hk |]. split; [exact Ha |].
  exact (derivation_total "b" (mkDesc "" [mkAttr "x" "" ""]) Hk Ha).
Defined.

(* ===================================================================== *)
(** * Properties of [filepath.Join] *)
(* ===================================================================== *)

Section CleanFacts.

Local Open Scope list_scope.
Local Open Scope nat_scope.

Lemma is_dot_eq (c : ascii) : is_dot c = true -> c = "."%char.
Proof. apply Ascii.eqb_eq. Qed.

Lemma IsPathSeparator_eq (c : ascii) : IsPathSeparator c = true -> c = Separator.
Proof. apply Ascii.eqb_eq. Qed.

Lemma rooted_inv_app (rooted : bool) (x buf : list ascii) (dotdot : nat) :
  rooted_inv rooted buf dotdot -> rooted_inv rooted (x ++ buf) dotdot.
Proof.
  intros H Hr. destruct (H Hr) as [Hd [buf' ->]].
  split; [assumption |]. exists (x ++ buf'). now rewrite app_assoc.
Qed.

Lemma backtrack_loop_drop (dotdot : nat) (dropped : ascii) (buf : list ascii) :
  exists k,
    backtrack_loop dotdot dropped buf = drop k buf
    /\ (dotdot <= length buf -> dotdot <= length (backtrack_loop dotdot dropped buf)).
Proof.
  revert dropped. induction buf as [| c buf IH]; intros dropped.
  - exists 0. simpl. auto.
  - simpl. destruct (dotdot <? S (length buf)) eqn:Hlt; simpl.
    + destruct (IsPathSeparator dropped); simpl.
      * exists 0. simpl. auto.
      * destruct (IH c) as [k [Hk Hlen]]. exists (S k). simpl.
        split; [assumption |]. intros _. apply Hlen.
        apply Nat.ltb_lt in Hlt. lia.
    + exists 0. simpl. auto.
Qed.

Lemma backtrack_rooted (rooted : bool) (buf : list ascii) (dotdot : nat) :
  (dotdot <? length buf) = true ->
  rooted_inv rooted buf dotdot -> rooted_inv rooted (backtrack dotdot buf) dotdot.
Proof.
  intros Hlt H Hr. destruct (H Hr) as [Hd [buf' Hbuf]].
  split; [assumption |]. apply Nat.ltb_lt in Hlt.
  destruct buf as [| c buf1]; [simpl in Hlt; lia |]. simpl in *.
  destruct (backtrack_loop_drop dotdot c buf1) as [k [Hk Hlen]].
  assert (Hge : 1 <= length (backtrack_loop dotdot c buf1)) by lia.
  rewrite Hk in *. rewrite length_drop in Hge.
  assert (Hsplit : c :: buf1 = buf' ++ [Separator]) by assumption.
  assert (Hdrop : drop (S k) (buf' ++ [Separator]) = drop (S k) buf' ++ [Separator]).
  { apply drop_app_le.
    apply (f_equal length) in Hsplit. rewrite length_app in Hsplit.
    simpl in Hsplit. lia. }
  rewrite <- Hsplit in Hdrop. simpl in Hdrop. eauto.
Qed.

(** Copying an element stops at the first separator. *)
Lemma copy_elem_free (n buf : list ascii) :
  forallb (fun c => negb (IsPathSeparator c)) n = true ->
  copy_elem n buf = ([], rev n ++ buf).
Proof.
  revert buf. induction n as [| c n IH]; intros buf H; simpl in *.
  - reflexivity.
  - apply andb_prop in H as [Hc Hn].
    apply negb_true_iff in Hc. rewrite Hc, IH by assumption.
    now rewrite <- app_assoc.
Qed.

Lemma copy_elem_prefix (pre n buf : list ascii) :
  exists pre2 x,
    copy_elem (pre ++ Separator :: n) buf = (pre2 ++ Separator :: n, x ++ buf)
    /\ length pre2 <= length pre.
Proof.
  revert buf. induction pre as [| c pre IH]; intros buf; simpl.
  - exists [], []. auto.
  - destruct (IsPathSeparator c) eqn:Hc.
    + exists (c :: pre), []. auto.
    + destruct (IH (c :: buf)) as (pre2 & x & Hcopy & Hlen).
      exists pre2, (x ++ [c]). rewrite Hcopy, <- app_assoc. simpl.
      split; [reflexivity | lia].
Qed.

Lemma slashed_closed (rooted : bool) (buf : list ascii) (dotdot : nat) :
  rooted_inv rooted buf dotdot -> closed (slashed rooted buf).
Proof.
  intros Hinv. unfold slashed. destruct rooted; simpl.
  - destruct (Hinv eq_refl) as [_ [buf' ->]].
    destruct buf' as [| c' buf'']; simpl.
    + right. eauto.
    + destruct buf''; simpl; right; eauto.
  - destruct buf; simpl; [now left | right; eauto].
Qed.

Ltac split_andb :=
  repeat match goal with
         | H : _ && _ = true |- _ => apply andb_prop in H as [? ?]
         | H : negb _ = true |- _ => apply negb_true_iff in H
         end.

(** The last element: once the loop stands before an element that ends
    the path, it appends the element to the buffer. *)
Lemma clean_loop_elem (fuel : nat) (rooted : bool) (n buf : list ascii)
  (dotdot : nat) :
  is_elem n ->
  clean_loop (S fuel) rooted n buf dotdot = rev n ++ slashed rooted buf.
Proof.
  intros (Hfree & Hne & Hdot & Hdotdot).
  destruct n as [| c rest]; [congruence |].
  pose proof Hfree as Hfree'. simpl in Hfree'. split_andb.
  cbn [clean_loop].
  assert (Hc : IsPathSeparator c = false) by assumption. rewrite Hc.
  assert (H2 : is_dot c && end_or_sep rest = false).
  { destruct (is_dot c) eqn:Hd; [| reflexivity]. apply is_dot_eq in Hd. subst c.
    destruct rest as [| c1 rest1]; [congruence |]. simpl in *.
    split_andb. assumption. }
  assert (H3 : is_dot c && is_dot (hd Separator rest) && end_or_sep (tl rest) = false).
  { destruct (is_dot c) eqn:Hd; [| reflexivity]. apply is_dot_eq in Hd. subst c.
    destruct rest as [| c1 rest1]; [reflexivity |]. simpl in *.
    destruct (is_dot c1) eqn:Hd1; [| reflexivity]. apply is_dot_eq in Hd1. subst c1.
    destruct rest1 as [| c2 rest2]; [congruence |]. simpl in *.
    split_andb. assumption. }
  rewrite H2, H3. fold (slashed rooted buf).
  rewrite (copy_elem_free (c :: rest) (slashed rooted buf) Hfree).
  destruct fuel; reflexivity.
Qed.

(** The loop on a path that ends with a separator and an element: the
    element is the last thing written, after a closed buffer. *)
Lemma clean_loop_last (n : list ascii) :
  is_elem n ->
  forall (fuel : nat) (rooted : bool) (pre buf : list ascii) (dotdot : nat),
    length (pre ++ Separator :: n) <= fuel ->
    rooted_inv rooted buf dotdot ->
    exists b,
      closed b
      /\ clean_loop fuel rooted (pre ++ Separator :: n) buf dotdot = rev n ++ b.
Proof.
  intros Hn. induction fuel as [| fuel IH]; intros rooted pre buf dotdot Hlen Hinv.
  - rewrite length_app in Hlen. simpl in Hlen. lia.
  - destruct pre as [| c pre].
    + cbn [app clean_loop].
      change (IsPathSeparator Separator) with true. cbv iota.
      simpl in Hlen. destruct fuel as [| fuel'].
      * destruct Hn as (_ & Hne & _). destruct n; [congruence | simpl in Hlen; lia].
      * rewrite clean_loop_elem by assumption.
        eexists. split; [eapply slashed_closed; eassumption | reflexivity].
    + rewrite length_app in Hlen. simpl in Hlen.
      cbn [clean_loop app].
      destruct (IsPathSeparator c) eqn:Hc.
      { apply IH; [rewrite length_app; simpl; lia | assumption]. }
      destruct (is_dot c && end_or_sep (pre ++ Separator :: n)) eqn:H2.
      { apply IH; [rewrite length_app; simpl; lia | assumption]. }
      destruct (is_dot c && is_dot (hd Separator (pre ++ Separator :: n))
                && end_or_sep (tl (pre ++ Separator :: n))) eqn:H3.
      { destruct pre as [| c1 pre1].
        - simpl in H3. rewrite andb_false_r in H3. discriminate.
        - simpl in *.
          destruct (dotdot <? length buf) eqn:Hlt.
          + apply IH; [rewrite length_app; simpl; lia |].
            now apply backtrack_rooted.
          + destruct rooted; simpl.
            * apply IH; [rewrite length_app; simpl; lia | assumption].
            * apply IH; [rewrite length_app; simpl; lia |]. intros; discriminate. }
      match goal with
      | |- context [copy_elem _ ?b1] => set (buf1 := b1)
      end.
      change (copy_elem (c :: pre ++ Separator :: n) buf1)
        with (if IsPathSeparator c then (c :: pre ++ Separator :: n, buf1)
              else copy_elem (pre ++ Separator :: n) (c :: buf1)).
      rewrite Hc.
      destruct (copy_elem_prefix pre n (c :: buf1)) as (pre2 & x & Hcopy & Hle).
      rewrite Hcopy.
      apply IH; [rewrite length_app; simpl; lia |].
      apply rooted_inv_app. subst buf1.
      destruct ((rooted && negb (length buf =? 1))
                || (negb rooted && negb (length buf =? 0))).
      * apply (rooted_inv_app rooted [c; Separator]); assumption.
      * apply (rooted_inv_app rooted [c]); assumption.
Qed.

(** Every iteration of the loop consumes at least one byte of the path:
    the fuel [Clean] starts with never runs out before the path does. *)
Lemma copy_elem_length (path buf : list ascii) :
  length (fst (copy_elem path buf)) <= length path.
Proof.
  revert buf. induction path as [| c path IH]; intros buf; simpl; [lia |].
  destruct (IsPathSeparator c); simpl; [lia |].
  specialize (IH (c :: buf)). lia.
Qed.

Lemma clean_loop_fuel (fuel : nat) (rooted : bool) (path buf : list ascii)
  (dotdot : nat) :
  length path <= fuel ->
  clean_loop (S fuel) rooted path buf dotdot
  = clean_loop fuel rooted path buf dotdot.
Proof.
  revert path buf dotdot.
  induction fuel as [| fuel IH]; intros path buf dotdot Hlen.
  - destruct path; [reflexivity | simpl in Hlen; lia].
  - destruct path as [| c rest]; [reflexivity |].
    simpl in Hlen.
    assert (Htl : length (tl rest) <= fuel) by (destruct rest; simpl in *; lia).
    change (clean_loop (S (S fuel)) rooted (c :: rest) buf dotdot)
      with (if IsPathSeparator c then clean_loop (S fuel) rooted rest buf dotdot
            else if is_dot c && end_or_sep rest
                 then clean_loop (S fuel) rooted rest buf dotdot
            else if is_dot c && is_dot (hd Separator rest) && end_or_sep (tl rest)
                 then if dotdot <? length buf
                      then clean_loop (S fuel) rooted (tl rest)
                             (backtrack dotdot buf) dotdot
                      else if negb rooted
                           then clean_loop (S fuel) rooted (tl rest)
                                  ("."%char :: "."%char
                                   :: (if 0 <? length buf then Separator :: buf
                                       else buf))
                                  (length ("."%char :: "."%char
                                           :: (if 0 <? length buf
                                               then Separator :: buf else buf)))
                           else clean_loop (S fuel) rooted (tl rest) buf dotdot
            else let '(rest', buf2) := copy_elem (c :: rest) (slashed rooted buf) in
                 clean_loop (S fuel) rooted rest' buf2 dotdot).
    change (clean_loop (S fuel) rooted (c :: rest) buf dotdot)
      with (if IsPathSeparator c then clean_loop fuel rooted rest buf dotdot
            else if is_dot c && end_or_sep rest
                 then clean_loop fuel rooted rest buf dotdot
            else if is_dot c && is_dot (hd Separator rest) && end_or_sep (tl rest)
                 then if dotdot <? length buf
                      then clean_loop fuel rooted (tl rest)
                             (backtrack dotdot buf) dotdot
                      else if negb rooted
                           then clean_loop fuel rooted (tl rest)
                                  ("."%char :: "."%char
                                   :: (if 0 <? length buf then Separator :: buf
                                       else buf))
                                  (length ("."%char :: "."%char
                                           :: (if 0 <? length buf
                                               then Separator :: buf else buf)))
                           else clean_loop fuel rooted (tl rest) buf dotdot
            else let '(rest', buf2) := copy_elem (c :: rest) (slashed rooted buf) in
                 clean_loop fuel rooted rest' buf2 dotdot).
    destruct (IsPathSeparator c) eqn:Hc; [apply IH; lia |].
    destruct (is_dot c && end_or_sep rest); [apply IH; lia |].
    destruct (is_dot c && is_dot (hd Separator rest) && end_or_sep (tl rest)).
    + destruct (dotdot <? length buf); [apply IH; lia |].
      destruct (negb rooted); apply IH; lia.
    + pose proof (copy_elem_length rest (c :: slashed rooted buf)) as Hcopy.
      cbn [copy_elem]. rewrite Hc.
      destruct (copy_elem rest (c :: slashed rooted buf)) as [rest' buf2].
      simpl in Hcopy. apply IH. lia.
Qed.

(** Two paths that end with a separator-free element after a closed
    buffer are equal only when the elements are. *)
Lemma closed_app_inj (x y b1 b2 : list ascii) :
  forallb (fun c => negb (IsPathSeparator c)) x = true ->
  forallb (fun c => negb (IsPathSeparator c)) y = true ->
  closed b1 -> closed b2 ->
  x ++ b1 = y ++ b2 -> x = y.
Proof.
  revert y. induction x as [| c x IH]; intros y Hx Hy H1 H2 Heq.
  - destruct y as [| d y]; [reflexivity |]. simpl in *.
    apply andb_prop in Hy as [Hd _]. apply negb_true_iff in Hd.
    destruct H1 as [-> | [b' ->]]; [discriminate |].
    injection Heq as <- _. unfold IsPathSeparator in Hd.
    rewrite Ascii.eqb_refl in Hd. discriminate.
  - destruct y as [| d y]; simpl in *.
    + apply andb_prop in Hx as [Hc _]. apply negb_true_iff in Hc.
      destruct H2 as [-> | [b' ->]]; [discriminate |].
      injection Heq as -> _. unfold IsPathSeparator in Hc.
      rewrite Ascii.eqb_refl in Hc. discriminate.
    + apply andb_prop in Hx as [_ Hx]. apply andb_prop in Hy as [_ Hy].
      injection Heq as -> Heq. f_equal. now apply (IH y).
Qed.

(** [Clean] keeps the last element of [dir/name]. *)
Lemma clean_bytes_join (d n : list ascii) :
  is_elem n -> d <> [] ->
  exists b, closed b /\ clean_bytes (d ++ Separator :: n) = rev b ++ n.
Proof.
  intros Hn Hd. destruct d as [| c d]; [congruence |].
  unfold clean_bytes. cbn [app].
  assert (Hnn : rev n <> []).
  { destruct Hn as (_ & Hne & _). intros H. apply Hne.
    apply (f_equal (@rev ascii)) in H. now rewrite rev_involutive in H. }
  destruct (IsPathSeparator c) eqn:Hc.
  - destruct (clean_loop_last n Hn (length (c :: d ++ Separator :: n)) true d
                [Separator] 1) as (b & Hb & ->).
    + simpl. lia.
    + intros _. split; [reflexivity |]. now exists [].
    + exists b. split; [assumption |].
      destruct (rev n ++ b) eqn:Hr.
      * apply app_eq_nil in Hr as [Hr _]. congruence.
      * rewrite <- Hr, rev_app_distr, rev_involutive. reflexivity.
  - destruct (clean_loop_last n Hn (length (c :: d ++ Separator :: n)) false
                (c :: d) [] 0) as (b & Hb & Hloop).
    + simpl. lia.
    + intros; discriminate.
    + change ((c :: d) ++ Separator :: n) with (c :: d ++ Separator :: n) in Hloop.
      rewrite Hloop.
      exists b. split; [assumption |].
      destruct (rev n ++ b) eqn:Hr.
      * apply app_eq_nil in Hr as [Hr _]. congruence.
      * rewrite <- Hr, rev_app_distr, rev_involutive. reflexivity.
Qed.

(** [Clean] keeps a single element as it is. *)
Lemma clean_bytes_elem (n : list ascii) :
  is_elem n -> clean_bytes n = n.
Proof.
  intros Hn. pose proof Hn as (Hfree & Hne & _).
  destruct n as [| c rest] eqn:En; [congruence |].
  unfold clean_bytes.
  assert (Hc : IsPathSeparator c = false).
  { simpl in Hfree. split_andb. assumption. }
  rewrite Hc. change (length (c :: rest)) with (S (length rest)).
  rewrite clean_loop_elem by assumption.
  unfold slashed. simpl (length []). simpl (_ || _).
  rewrite app_nil_r.
  destruct (rev (c :: rest)) eqn:Hr.
  - apply (f_equal (@rev ascii)) in Hr. rewrite rev_involutive in Hr. discriminate.
  - rewrite <- Hr. apply rev_involutive.
Qed.

End CleanFacts.

(** ** From byte lists back to strings *)

Lemma list_ascii_of_string_app (s1 s2 : string) :
  list_ascii_of_string (s1 +:+ s2)
  = (list_ascii_of_string s1 ++ list_ascii_of_string s2)%list.
Proof. induction s1 as [| c s1 IH]; simpl; [reflexivity | now rewrite IH]. Qed.

Lemma list_ascii_of_string_inj (s1 s2 : string) :
  list_ascii_of_string s1 = list_ascii_of_string s2 -> s1 = s2.
Proof.
  intros H. apply (f_equal string_of_list_ascii) in H.
  now rewrite !string_of_list_ascii_of_string in H.
Qed.

Lemma string_app_inv_tail (s1 s2 t : string) :
  s1 +:+ t = s2 +:+ t -> s1 = s2.
Proof.
  intros H. apply list_ascii_of_string_inj.
  apply (f_equal list_ascii_of_string) in H.
  rewrite !list_ascii_of_string_app in H.
  eapply app_inv_tail. exact H.
Qed.

Lemma forallb_rev {A : Type} (f : A -> bool) (l : list A) :
  forallb f (rev l) = forallb f l.
Proof.
  induction l as [| a l IH]; simpl; [reflexivity |].
  rewrite forallb_app, IH. simpl. rewrite andb_true_r. apply andb_comm.
Qed.

(** [Join] keeps a name that is a single element as the last element of
    the path. *)
Lemma filepath_Join_elem (dir name : string) :
  is_elem (list_ascii_of_string name) ->
  exists b,
    closed b
    /\ list_ascii_of_string (filepath_Join dir name)
       = (rev b ++ list_ascii_of_string name)%list.
Proof.
  intros Hn. unfold filepath_Join, filepath_Clean.
  case_empty dir.
  - case_empty name.
    + destruct Hn as (_ & Hne & _). now elim Hne.
    + exists []. split; [now left |].
      rewrite clean_bytes_elem by assumption.
      now rewrite list_ascii_of_string_of_list_ascii.
  - rewrite !list_ascii_of_string_app. simpl.
    destruct (clean_bytes_join (list_ascii_of_string dir)
                (list_ascii_of_string name) Hn) as (b & Hb & Hclean).
    + destruct dir; [congruence | discriminate].
    + exists b. split; [assumption |].
      change (list_ascii_of_string dir ++ "/"%char :: list_ascii_of_string name)%list
        with (list_ascii_of_string dir ++ Separator :: list_ascii_of_string name)%list.
      rewrite Hclean. now rewrite list_ascii_of_string_of_list_ascii.
Qed.

(** [Join] is injective on names that are single elements. *)
Lemma filepath_Join_inj (dir n1 n2 : string) :
  is_elem (list_ascii_of_string n1) ->
  is_elem (list_ascii_of_string n2) ->
  filepath_Join dir n1 = filepath_Join dir n2 -> n1 = n2.
Proof.
  intros H1 H2 Heq.
  destruct (filepath_Join_elem dir n1 H1) as (b1 & Hb1 & E1).
  destruct (filepath_Join_elem dir n2 H2) as (b2 & Hb2 & E2).
  rewrite Heq, E2 in E1.
  apply (f_equal (@rev ascii)) in E1.
  rewrite !rev_app_distr, !rev_involutive in E1.
  apply list_ascii_of_string_inj.
  apply (closed_app_inj _ _ b2 b1) in E1; try assumption.
  - apply (f_equal (@rev ascii)) in E1. now rewrite !rev_involutive in E1.
  - rewrite forallb_rev. apply H2.
  - rewrite forallb_rev. apply H1.
Qed.

(** The name [main] passes to [executeTemplate] is a single element when
    the key has no separator. *)
Lemma artifact_name_elem (k : string) (kind : artifactKind) :
  no_separator k = true ->
  is_elem (list_ascii_of_string (k +:+ artifactSuffix kind)).
Proof.
  intros Hk. unfold no_separator in Hk.
  rewrite list_ascii_of_string_app.
  assert (Hlen : (8 <= length (list_ascii_of_string k
                                ++ list_ascii_of_string (artifactSuffix kind)))%nat).
  { rewrite length_app. destruct kind; simpl; lia. }
  repeat split.
  - rewrite forallb_app, Hk. now destruct kind.
  - intros H. rewrite H in Hlen. simpl in Hlen. lia.
  - intros H. rewrite H in Hlen. simpl in Hlen. lia.
  - intros H. rewrite H in Hlen. simpl in Hlen. lia.
Qed.

(** The two suffixes never give the same name. *)
Lemma artifact_suffix_apart (k1 k2 : string) :
  k1 +:+ "_elem.go" <> k2 +:+ "_elem_test.go".
Proof.
  intros H. apply (f_equal list_ascii_of_string) in H.
  rewrite !list_ascii_of_string_app in H.
  apply (f_equal (@rev ascii)) in H.
  rewrite !rev_app_distr in H. simpl in H. discriminate H.
Qed.

Lemma artifact_name_inj (k1 k2 : string) (kind1 kind2 : artifactKind) :
  k1 +:+ artifactSuffix kind1 = k2 +:+ artifactSuffix kind2 ->
  k1 = k2 /\ kind1 = kind2.
Proof.
  destruct kind1, kind2; simpl; intros H.
  - split; [eapply string_app_inv_tail; eassumption | reflexivity].
  - now apply artifact_suffix_apart in H.
  - symmetry in H. now apply artifact_suffix_apart in H.
  - split; [eapply string_app_inv_tail; eassumption | reflexivity].
Qed.

Lemma artifact_path_inj (dir k1 k2 : string) (kind1 kind2 : artifactKind) :
  no_separator k1 = true -> no_separator k2 = true ->
  artifact_path dir k1 kind1 = artifact_path dir k2 kind2 ->
  k1 = k2 /\ kind1 = kind2.
Proof.
  intros H1 H2 Heq. apply artifact_name_inj.
  eapply filepath_Join_inj; [| | exact Heq]; now apply artifact_name_elem.
Qed.

(* ===================================================================== *)
(** * Properties of the pipeline *)
(* ===================================================================== *)

Section PipelineFacts.

Variable E : Env.
Variable outputDirectory : string.

Local Open Scope list_scope.

Ltac unfold_proc :=
  unfold mbind, mret, Proc_bind, Proc_ret, must, check, call_Create,
    call_Write, pbind, lift, pret, panic in *.

(** [executeTemplate], step by step: the four places where it panics,
    and what it has done to the file system by then. *)
Lemma executeTemplate_cases (n : string) (t : template) (e : templElem)
  (tr : trace) :
  executeTemplate E outputDirectory n t e tr
  = match template_Execute t e with
    | Err err => (tr, Panic (PanicError err))
    | Val b =>
        match format_Source E b with
        | Err err => (tr, Panic (PanicError err))
        | Val formatted =>
            let name := filepath_Join outputDirectory n in
            match os_Create E tr name with
            | Some err =>
                (tr ++ [EvCreate name (Some err)], Panic (PanicError err))
            | None =>
                match file_Write E (tr ++ [EvCreate name None]) name formatted with
                | Some err =>
                    (tr ++ [EvCreate name None;
                            EvWrite name formatted (Some err)],
                     Panic (PanicError err))
                | None =>
                    (tr ++ [EvCreate name None; EvWrite name formatted None],
                     Ok tt)
                end
            end
        end
    end.
Proof.
  unfold executeTemplate. unfold_proc.
  destruct (template_Execute t e) as [b | err]; [| reflexivity].
  destruct (format_Source E b) as [formatted | err]; [| reflexivity].
  cbv zeta.
  destruct (os_Create E tr (filepath_Join outputDirectory n)) as [err |];
    [reflexivity |].
  destruct (file_Write E _ _ formatted) as [err |];
    now rewrite <- app_assoc.
Qed.

(** Every panic of [executeTemplate] carries the error of the call that
    failed, as that call returned it. *)
Lemma executeTemplate_panic (n : string) (t : template) (e : templElem)
  (tr tr' : trace) (p : panicValue) :
  executeTemplate E outputDirectory n t e tr = (tr', Panic p) ->
  exists err,
    p = PanicError err
    /\ (template_Execute t e = Err err
        \/ (exists b, template_Execute t e = Val b /\ format_Source E b = Err err)
        \/ os_Create E tr (filepath_Join outputDirectory n) = Some err
        \/ (exists data,
              file_Write E (tr ++ [EvCreate (filepath_Join outputDirectory n) None])
                (filepath_Join outputDirectory n) data = Some err)).
Proof.
  rewrite executeTemplate_cases.
  destruct (template_Execute t e) as [b | err] eqn:Ht.
  2: { intros H. injection H as _ <-. exists err. split; [reflexivity |].
       now left. }
  destruct (format_Source E b) as [formatted | err] eqn:Hf.
  2: { intros H. injection H as _ <-. exists err. split; [reflexivity |].
       right; left. now exists b. }
  cbv zeta.
  destruct (os_Create E tr _) as [err |] eqn:Hc.
  { intros H. injection H as _ <-. exists err. split; [reflexivity |].
    right; right; now left. }
  destruct (file_Write E _ _ formatted) as [err |] eqn:Hw.
  { intros H. injection H as _ <-. exists err. split; [reflexivity |].
    right; right; right. now exists formatted. }
  discriminate.
Qed.

(** [executeTemplate] panics exactly when one of its steps fails, and
    then with the error of that step. *)
Lemma executeTemplate_panic_iff (n : string) (t : template) (e : templElem)
  (tr : trace) (p : panicValue) :
  (exists tr', executeTemplate E outputDirectory n t e tr = (tr', Panic p))
  <-> exists err, p = PanicError err /\ step_fails E outputDirectory n t e tr err.
Proof.
  rewrite executeTemplate_cases. unfold step_fails.
  destruct (template_Execute t e) as [b | err0] eqn:Ht.
  2: { split.
       - intros [tr' H]. injection H as _ <-. exists err0. auto.
       - intros (err & -> & [H | [(b & H & _) | [(b & f & H & _) | (b & f & H & _)]]]);
           try discriminate H.
         injection H as ->. eauto. }
  destruct (format_Source E b) as [formatted | err0] eqn:Hf.
  2: { split.
       - intros [tr' H]. injection H as _ <-. exists err0.
         split; [reflexivity |]. right; left. eauto.
       - intros (err & -> & [H | [(b' & H & H') | [(b' & f & H & H' & _)
                                                  | (b' & f & H & H' & _)]]]);
           try discriminate H; injection H as <-; rewrite Hf in H';
           try discriminate H'.
         injection H' as ->. eauto. }
  cbv zeta.
  destruct (os_Create E tr _) as [err0 |] eqn:Hc.
  { split.
    - intros [tr' H]. injection H as _ <-. exists err0.
      split; [reflexivity |]. right; right; left. eauto 6.
    - intros (err & -> & [H | [(b' & H & H') | [(b' & f & H & H' & H'')
                                               | (b' & f & H & H' & H'' & _)]]]);
        try discriminate H; injection H as <-; rewrite Hf in H';
        try discriminate H'; try discriminate H''.
      injection H'' as ->. eauto. }
  destruct (file_Write E _ _ formatted) as [err0 |] eqn:Hw.
  { split.
    - intros [tr' H]. injection H as _ <-. exists err0.
      split; [reflexivity |]. right; right; right. eauto 8.
    - intros (err & -> & [H | [(b' & H & H') | [(b' & f & H & H' & H'')
                                               | (b' & f & H & H' & _ & H'')]]]);
        try discriminate H; injection H as <-; rewrite Hf in H';
        try discriminate H'; try discriminate H''.
      injection H' as <-. rewrite Hw in H''. injection H'' as ->. eauto. }
  split.
  - intros [tr' H]. discriminate H.
  - intros (err & -> & [H | [(b' & H & H') | [(b' & f & H & H' & H'')
                                             | (b' & f & H & H' & _ & H'')]]]);
      try discriminate H; injection H as <-; rewrite Hf in H';
      try discriminate H'; try discriminate H''.
    injection H' as <-. rewrite Hw in H''. discriminate H''.
Qed.

(** The events of one call all bear the path built from its name, and a
    call that returns has written the formatted text. *)
Lemma executeTemplate_events (n : string) (t : template) (e : templElem)
  (tr tr' : trace) (r : result unit) :
  executeTemplate E outputDirectory n t e tr = (tr', r) ->
  exists evs,
    tr' = tr ++ evs
    /\ Forall (fun ev => event_name ev = filepath_Join outputDirectory n) evs.
Proof.
  rewrite executeTemplate_cases.
  destruct (template_Execute t e) as [b | err].
  2: { intros H. injection H as <- _. exists []. now rewrite app_nil_r. }
  destruct (format_Source E b) as [formatted | err].
  2: { intros H. injection H as <- _. exists []. now rewrite app_nil_r. }
  cbv zeta.
  destruct (os_Create E tr _) as [err |].
  { intros H. injection H as <- _. eexists. split; [reflexivity |].
    forall_list ltac:(reflexivity). }
  destruct (file_Write E _ _ formatted) as [err |];
    intros H; injection H as <- _; eexists; (split; [reflexivity |]);
    forall_list ltac:(reflexivity).
Qed.

Lemma artifacts_app (tr1 tr2 : trace) :
  artifacts (tr1 ++ tr2) = artifacts tr1 ++ artifacts tr2.
Proof.
  induction tr1 as [| ev tr1 IH]; [reflexivity |].
  destruct ev as [name err | name data [err |]]; simpl; now rewrite IH.
Qed.

Lemma executeTemplate_Ok (n : string) (kind : artifactKind) (e : templElem)
  (tr tr' : trace) :
  executeTemplate E outputDirectory n (artifactTemplate kind) e tr = (tr', Ok tt) ->
  exists formatted,
    rendered E kind e = Some formatted
    /\ artifacts tr'
       = artifacts tr ++ [(filepath_Join outputDirectory n, formatted)].
Proof.
  rewrite executeTemplate_cases. unfold rendered.
  destruct (template_Execute (artifactTemplate kind) e) as [b | err]; [| discriminate].
  destruct (format_Source E b) as [formatted | err]; [| discriminate].
  cbv zeta.
  destruct (os_Create E tr _) as [err |]; [discriminate |].
  destruct (file_Write E _ _ formatted) as [err |]; [discriminate |].
  intros H. injection H as <-. exists formatted. split; [reflexivity |].
  now rewrite artifacts_app.
Qed.

End PipelineFacts.

Section RunFacts.

Variable E : Env.
Variable outputDirectory : string.

Local Open Scope list_scope.

Ltac unfold_proc :=
  unfold mbind, mret, Proc_bind, Proc_ret, must, check, call_Create,
    call_Write, pbind, lift, pret, panic in *.

(** The body of the loop, step by step. *)
Lemma main_body_cases (k : string) (v : Desc) (tr : trace) :
  main_body E outputDirectory (k, v) tr
  = match main_elem k v with
    | Panic p => (tr, Panic p)
    | Ok e =>
        match generate E outputDirectory k e Implementation tr with
        | (tr1, Ok _) => generate E outputDirectory k e TestFile tr1
        | (tr1, Panic p) => (tr1, Panic p)
        end
    end.
Proof.
  unfold main_body, generate. unfold_proc.
  destruct (main_elem k v) as [e | p]; reflexivity.
Qed.

Lemma main_range_cons (kv : string * Desc) (order : list (string * Desc))
  (tr : trace) :
  main_range E outputDirectory (kv :: order) tr
  = match main_body E outputDirectory kv tr with
    | (tr1, Ok _) => main_range E outputDirectory order tr1
    | (tr1, Panic p) => (tr1, Panic p)
    end.
Proof. reflexivity. Qed.

(** The loop over two stretches of entries: the second is visited only
    if the first went through. *)
Lemma main_range_app (pre post : list (string * Desc)) (tr : trace) :
  main_range E outputDirectory (pre ++ post) tr
  = match main_range E outputDirectory pre tr with
    | (tr1, Ok _) => main_range E outputDirectory post tr1
    | (tr1, Panic p) => (tr1, Panic p)
    end.
Proof.
  revert tr. induction pre as [| kv pre IH]; intros tr.
  - reflexivity.
  - change ((kv :: pre) ++ post) with (kv :: (pre ++ post)).
    rewrite !main_range_cons.
    destruct (main_body E outputDirectory kv tr) as [tr1 [[] | p]];
      [apply IH | reflexivity].
Qed.

(** Once the body of the loop panics, the run is over. *)
Lemma main_range_abort (pre post : list (string * Desc)) (kv : string * Desc)
  (tr tr1 tr2 : trace) (p : panicValue) :
  main_range E outputDirectory pre tr = (tr1, Ok tt) ->
  main_body E outputDirectory kv tr1 = (tr2, Panic p) ->
  main_range E outputDirectory (pre ++ kv :: post) tr = (tr2, Panic p).
Proof.
  intros Hpre Hbody. rewrite main_range_app, Hpre, main_range_cons, Hbody.
  reflexivity.
Qed.

Lemma artifact_fails_body (k : string) (v : Desc) (e : templElem)
  (kind : artifactKind) (tr tr' : trace) (p : panicValue) :
  main_elem k v = Ok e ->
  artifact_fails E outputDirectory k e kind tr tr' p ->
  main_body E outputDirectory (k, v) tr = (tr', Panic p).
Proof.
  intros He Hfail. rewrite main_body_cases, He.
  destruct kind; simpl in Hfail.
  - now rewrite Hfail.
  - destruct Hfail as (tr0 & H0 & H1). now rewrite H0.
Qed.

Lemma artifact_fails_error (k : string) (e : templElem) (kind : artifactKind)
  (tr tr' : trace) (p : panicValue) :
  artifact_fails E outputDirectory k e kind tr tr' p -> exists err, p = PanicError err.
Proof.
  destruct kind; simpl.
  - intros H. apply executeTemplate_panic in H as (err & -> & _). eauto.
  - intros (tr0 & _ & H). apply executeTemplate_panic in H as (err & -> & _). eauto.
Qed.

Lemma entry_event_mono (order order' : list (string * Desc)) (ev : event) :
  order ⊆ order' -> entry_event outputDirectory order ev -> entry_event outputDirectory order' ev.
Proof.
  intros Hsub (k & v & kind & Hin & Hname).
  exists k, v, kind. split; [now apply Hsub | assumption].
Qed.

Lemma main_body_events (k : string) (v : Desc) (tr tr' : trace)
  (r : result unit) :
  main_body E outputDirectory (k, v) tr = (tr', r) ->
  exists evs, tr' = tr ++ evs /\ Forall (entry_event outputDirectory [(k, v)]) evs.
Proof.
  rewrite main_body_cases.
  destruct (main_elem k v) as [e | p].
  2: { intros H. injection H as <- _. exists []. now rewrite app_nil_r. }
  destruct (generate E outputDirectory k e Implementation tr) as [tr1 r1] eqn:H1.
  apply executeTemplate_events in H1 as (evs1 & -> & Hevs1).
  assert (Hent1 : Forall (entry_event outputDirectory [(k, v)]) evs1).
  { eapply Forall_impl; [exact Hevs1 |]. intros ev Hev.
    exists k, v, Implementation. split; [apply list_elem_of_singleton; reflexivity | exact Hev]. }
  destruct r1 as [[] | p].
  2: { intros H. injection H as <- _. eauto. }
  intros H2. apply executeTemplate_events in H2 as (evs2 & -> & Hevs2).
  exists (evs1 ++ evs2). split; [now rewrite app_assoc |].
  apply Forall_app. split; [assumption |].
  eapply Forall_impl; [exact Hevs2 |]. intros ev Hev.
  exists k, v, TestFile. split; [apply list_elem_of_singleton; reflexivity | exact Hev].
Qed.

Lemma main_range_events (order : list (string * Desc)) (tr tr' : trace)
  (r : result unit) :
  main_range E outputDirectory order tr = (tr', r) ->
  exists evs, tr' = tr ++ evs /\ Forall (entry_event outputDirectory order) evs.
Proof.
  revert tr. induction order as [| [k v] order IH]; intros tr.
  - intros H. injection H as <- _. exists []. now rewrite app_nil_r.
  - rewrite main_range_cons.
    destruct (main_body E outputDirectory (k, v) tr) as [tr1 r1] eqn:Hb.
    apply main_body_events in Hb as (evs1 & -> & Hevs1).
    assert (Hent1 : Forall (entry_event outputDirectory ((k, v) :: order)) evs1).
    { eapply Forall_impl; [exact Hevs1 |]. intros ev.
      apply entry_event_mono. intros x Hx.
      apply list_elem_of_singleton in Hx. subst x. left. }
    destruct r1 as [[] | p].
    2: { intros H. injection H as <- _. eauto. }
    intros H. apply IH in H as (evs2 & -> & Hevs2).
    exists (evs1 ++ evs2). split; [now rewrite app_assoc |].
    apply Forall_app. split; [assumption |].
    eapply Forall_impl; [exact Hevs2 |]. intros ev.
    apply entry_event_mono. intros x Hx. now right.
Qed.

(** What a body that returns has written. *)
Lemma main_body_Ok (kv : string * Desc) (tr tr' : trace) :
  main_body E outputDirectory kv tr = (tr', Ok tt) ->
  artifacts tr' = artifacts tr ++ entry_artifacts E outputDirectory kv.
Proof.
  destruct kv as [k v]. rewrite main_body_cases. unfold entry_artifacts. simpl.
  destruct (main_elem k v) as [e | p]; [| discriminate].
  destruct (generate E outputDirectory k e Implementation tr) as [tr1 [[] | p]] eqn:H1;
    [| discriminate].
  intros H2.
  apply executeTemplate_Ok in H1 as (f1 & -> & Ha1).
  apply executeTemplate_Ok in H2 as (f2 & -> & Ha2).
  rewrite Ha2, Ha1, <- app_assoc. reflexivity.
Qed.

Lemma main_range_Ok (order : list (string * Desc)) (tr tr' : trace) :
  main_range E outputDirectory order tr = (tr', Ok tt) ->
  artifacts tr' = artifacts tr ++ flat_map (entry_artifacts E outputDirectory) order.
Proof.
  revert tr. induction order as [| kv order IH]; intros tr.
  - intros H. injection H as <-. simpl. now rewrite app_nil_r.
  - rewrite main_range_cons.
    destruct (main_body E outputDirectory kv tr) as [tr1 [[] | p]] eqn:Hb;
      [| discriminate].
    intros H. apply IH in H. apply main_body_Ok in Hb.
    rewrite H, Hb, <- app_assoc. reflexivity.
Qed.

End RunFacts.

(* ===================================================================== *)
(** * The templates and the catalog of the program *)
(* ===================================================================== *)

(** [string(b)] is the one-character string of the code point [b]. *)
Lemma string_of_byte_decodes (b : ascii) :
  utf8_DecodeRune (string_of_byte b) = Some (byte_val b, "").
Proof. each_byte b; reflexivity. Qed.

Lemma each_attr_total (body : templAttr -> orError string) (l : list templAttr) :
  (forall a, exists s, body a = Val s) -> exists s, each_attr body l = Val s.
Proof.
  intros Hbody. induction l as [| a l [s' IH]]; simpl.
  - eauto.
  - destruct (Hbody a) as [s ->]. rewrite IH. simpl. eauto.
Qed.

(** The two templates of the program select only fields that exist:
    their execution cannot fail. *)
Lemma primary_never_fails (e : templElem) :
  exists text, template_Execute primary e = Val text.
Proof.
  destruct e as [el nm pr up attrs].
  unfold template_Execute, primary, primaryTemplate, tmpl_nodes, tmpl_name.
  cbn [exec_nodes exec_node value_field String.eqb Ascii.eqb Bool.eqb
       te_Elem te_Name te_Props te_Upper te_Attrs print_value ebind].
  match goal with
  | |- context [each_attr ?f attrs] =>
      destruct (each_attr_total f attrs) as [s ->]
  end.
  - intros a.
    cbn [exec_node value_field String.eqb Ascii.eqb Bool.eqb
         ta_Name ta_JS ta_Type print_value ebind].
    eauto.
  - cbn [ebind]. eauto.
Qed.

Lemma test_never_fails (e : templElem) :
  exists text, template_Execute test e = Val text.
Proof.
  destruct e as [el nm pr up attrs].
  unfold template_Execute, test, testTemplate, tmpl_nodes, tmpl_name.
  cbn [exec_nodes exec_node value_field String.eqb Ascii.eqb Bool.eqb
       te_Elem te_Name te_Props te_Upper te_Attrs print_value ebind].
  eauto.
Qed.

(** The literal has no key twice, so that the map holds all its entries. *)
Lemma elements_keys_NoDup : NoDup (elements_list.*1).
Proof. apply (bool_decide_unpack _). vm_compute. reflexivity. Qed.

Lemma elements_entries : map_to_list elements ≡ₚ elements_list.
Proof. apply map_to_list_to_map, elements_keys_NoDup. Qed.

Lemma elements_lookup (k : string) (v : Desc) :
  elements !! k = Some v <-> (k, v) ∈ elements_list.
Proof.
  rewrite <- elem_of_map_to_list. now rewrite elements_entries.
Qed.

(** On the catalog of the program the derivation never panics, and the
    canonical identifier and the field names are those of the
    specification: every key and raw name begins with an ASCII letter. *)
Lemma elements_as_specified (k : string) (v : Desc) :
  elements !! k = Some v ->
  exists e upper,
    main_elem k v = Ok e
    /\ canonical_spec k v = Some upper /\ te_Upper e = upper
    /\ Forall2 (fun a ta => fieldName_spec a = Some (ta_Name ta))
         (Desc_Attributes v) (te_Attrs e).
Proof.
  intros Hk. apply elements_lookup in Hk.
  assert (Hall : forallb entry_as_specified elements_list = true)
    by (vm_compute; reflexivity).
  rewrite forallb_forall in Hall.
  apply list_elem_of_In in Hk. specialize (Hall _ Hk).
  unfold entry_as_specified in Hall. simpl in Hall.
  destruct (main_elem k v) as [e | p]; [| discriminate].
  destruct (canonical_spec k v) as [upper |]; [| discriminate].
  apply andb_prop in Hall as [Hall Hlen]. apply andb_prop in Hall as [Hup Hattrs].
  apply String.eqb_eq in Hup. apply Nat.eqb_eq in Hlen.
  exists e, upper. repeat split; try assumption.
  clear Hk Hup. revert Hlen Hattrs.
  generalize (te_Attrs e) as tas. generalize (Desc_Attributes v) as attrs.
  induction attrs as [| a attrs IH]; intros [| ta tas] Hlen Hattrs;
    try discriminate; constructor.
  - simpl in Hattrs. apply andb_prop in Hattrs as [Ha _].
    destruct (fieldName_spec a); [| discriminate].
    apply String.eqb_eq in Ha. now subst.
  - simpl in Hattrs. apply andb_prop in Hattrs as [_ Hattrs].
    apply IH; [now injection Hlen | assumption].
Qed.

(** No key of the catalog holds a path separator. *)
Lemma elements_no_separator (k : string) (v : Desc) :
  elements !! k = Some v -> no_separator k = true.
Proof.
  intros Hk. apply elements_lookup in Hk.
  assert (Hall : forallb (fun kv => no_separator (fst kv)) elements_list = true)
    by (vm_compute; reflexivity).
  rewrite forallb_forall in Hall.
  apply list_elem_of_In in Hk. exact (Hall _ Hk).
Qed.

(** ** Runs that fail, runs that complete *)

(** A run that panics has panicked in the body of exactly one entry, the
    entries before it having gone through. *)
Lemma main_range_panic_inv (E : Env) (outputDirectory : string)
  (order : list (string * Desc)) (tr tr' : trace) (p : panicValue) :
  main_range E outputDirectory order tr = (tr', Panic p) ->
  exists pre kv post tr1,
    order = (pre ++ kv :: post)%list
    /\ main_range E outputDirectory pre tr = (tr1, Ok tt)
    /\ main_body E outputDirectory kv tr1 = (tr', Panic p).
Proof.
  revert tr. induction order as [| kv order IH]; intros tr; [discriminate |].
  rewrite main_range_cons.
  destruct (main_body E outputDirectory kv tr) as [tr1 [[] | q]] eqn:Hb.
  - intros H. apply IH in H as (pre & kv' & post & tr2 & -> & Hpre & Hbody).
    exists (kv :: pre), kv', post, tr2. split; [reflexivity |].
    split; [| assumption]. rewrite main_range_cons, Hb. exact Hpre.
  - intros H. injection H as <- <-.
    exists [], kv, order, tr. auto.
Qed.

(** The body of the loop panics in the derivation, with an index out of
    range, or at one of the two files, with the error of a call. *)
Lemma main_body_panic_inv (E : Env) (outputDirectory k : string) (v : Desc)
  (tr tr' : trace) (p : panicValue) :
  main_body E outputDirectory (k, v) tr = (tr', Panic p) ->
  (main_elem k v = Panic p /\ p = IndexOutOfRange /\ tr' = tr)
  \/ exists e kind,
       main_elem k v = Ok e /\ artifact_fails E outputDirectory k e kind tr tr' p.
Proof.
  rewrite main_body_cases.
  destruct (main_elem k v) as [e | q] eqn:He.
  - intros H. right. exists e.
    destruct (generate E outputDirectory k e Implementation tr)
      as [tr1 [[] | q]] eqn:H1.
    + exists TestFile. split; [reflexivity |]. exists tr1. auto.
    + injection H as <- <-. exists Implementation. auto.
  - intros H. injection H as <- <-. left. split; [reflexivity |].
    split; [| reflexivity].
    unfold main_elem in He.
    destruct (main_upper k v) as [upper | q'] eqn:Hu; simpl in He.
    + destruct (main_attrs (Desc_Attributes v)) as [attrs | q'] eqn:Ha;
        simpl in He; [discriminate |].
      injection He as <-. clear Hu. revert q' Ha.
      generalize (Desc_Attributes v) as l.
      induction l as [| a l IH]; intros q' Ha; [discriminate |].
      rewrite main_attrs_cons in Ha.
      destruct (main_attr a) as [ta | q''] eqn:Hattr; simpl in Ha.
      * destruct (main_attrs l) as [tas | q'''] eqn:Hl; simpl in Ha;
          [discriminate |].
        injection Ha as <-. now apply IH.
      * injection Ha as <-. unfold main_attr in Hattr.
        destruct (Attr_Override a =? "")%string; [| discriminate].
        destruct (Attr_Name a); simpl in Hattr; [| discriminate].
        now injection Hattr as <-.
    + injection He as <-. unfold main_upper in Hu.
      destruct (negb (Desc_Override v =? "")%string); [discriminate |].
      destruct k; simpl in Hu; [| discriminate]. now injection Hu as <-.
Qed.

(** No report identifies the failing entry: a function from the value of
    the panic to the entry would have to send the report of
    [env_reject] both to [x] and to [y]. *)
Lemma no_report_identifies_entry :
  ~ exists identify : panicValue -> string,
      forall (order : list (string * Desc)) (k : string) (e : templElem)
             (tr : trace) (p : panicValue),
        main_in_order env_reject "." order = (tr, Panic p) ->
        artifact_fails env_reject "." k e Implementation [] tr p ->
        identify p = k.
Proof.
  intros [identify H].
  pose proof (H [("x", desc_plain)] "x" (plain_elem "x" "X") []
                (PanicError "1:1: expected 'package'") eq_refl eq_refl) as Hx.
  pose proof (H [("y", desc_plain)] "y" (plain_elem "y" "Y") []
                (PanicError "1:1: expected 'package'") eq_refl eq_refl) as Hy.
  rewrite Hx in Hy. discriminate Hy.
Qed.

(** ** What is written is determined by the entry *)

Lemma executeTemplate_artifacts (E : Env) (outputDirectory n : string)
  (kind : artifactKind) (e : templElem) (tr tr' : trace) (r : result unit) :
  executeTemplate E outputDirectory n (artifactTemplate kind) e tr = (tr', r) ->
  exists written,
    artifacts tr' = (artifacts tr ++ written)%list
    /\ Forall (fun pd => fst pd = filepath_Join outputDirectory n
                         /\ rendered E kind e = Some (snd pd)) written.
Proof.
  rewrite executeTemplate_cases. unfold rendered.
  destruct (template_Execute (artifactTemplate kind) e) as [b | err].
  2: { intros H. injection H as <- _. exists []. now rewrite app_nil_r. }
  destruct (format_Source E b) as [formatted | err].
  2: { intros H. injection H as <- _. exists []. now rewrite app_nil_r. }
  cbv zeta.
  destruct (os_Create E tr _) as [err |].
  { intros H. injection H as <- _. exists [].
    rewrite artifacts_app. split; [reflexivity | constructor]. }
  destruct (file_Write E _ _ formatted) as [err |];
    intros H; injection H as <- _; rewrite artifacts_app.
  - exists []. split; [reflexivity | constructor].
  - eexists. split; [reflexivity |]. forall_list ltac:(split; reflexivity).
Qed.

Lemma entry_artifact_mono (E : Env) (outputDirectory : string)
  (order order' : list (string * Desc)) (pd : string * string) :
  order ⊆ order' ->
  entry_artifact E outputDirectory order pd ->
  entry_artifact E outputDirectory order' pd.
Proof.
  intros Hsub (k & v & e & kind & Hin & H).
  exists k, v, e, kind. split; [now apply Hsub | assumption].
Qed.

(** Whether the run completes or not, every file it has written is the
    file of a kind of an entry, with the bytes rendered for that entry. *)
Lemma main_range_artifacts (E : Env) (outputDirectory : string)
  (order : list (string * Desc)) (tr tr' : trace) (r : result unit) :
  main_range E outputDirectory order tr = (tr', r) ->
  exists written,
    artifacts tr' = (artifacts tr ++ written)%list
    /\ Forall (entry_artifact E outputDirectory order) written.
Proof.
  revert tr. induction order as [| [k v] order IH]; intros tr.
  - intros H. injection H as <- _. exists []. now rewrite app_nil_r.
  - rewrite main_range_cons, main_body_cases.
    destruct (main_elem k v) as [e | p] eqn:He.
    2: { intros H. injection H as <- _. exists []. now rewrite app_nil_r. }
    assert (Hown : forall kind n pd,
               n = k +:+ artifactSuffix kind ->
               fst pd = filepath_Join outputDirectory n
               /\ rendered E kind e = Some (snd pd) ->
               entry_artifact E outputDirectory ((k, v) :: order) pd).
    { intros kind n pd -> [Hp Hr]. exists k, v, e, kind.
      split; [left |]. auto. }
    destruct (generate E outputDirectory k e Implementation tr) as [tr1 r1] eqn:H1.
    apply executeTemplate_artifacts in H1 as (w1 & Hw1 & Hall1).
    assert (Hent1 : Forall (entry_artifact E outputDirectory ((k, v) :: order)) w1).
    { eapply Forall_impl; [exact Hall1 |]. intros pd. now apply Hown. }
    destruct r1 as [[] | p].
    2: { intros H. injection H as <- _. eauto. }
    destruct (generate E outputDirectory k e TestFile tr1) as [tr2 r2] eqn:H2.
    apply executeTemplate_artifacts in H2 as (w2 & Hw2 & Hall2).
    assert (Hent2 : Forall (entry_artifact E outputDirectory ((k, v) :: order)) w2).
    { eapply Forall_impl; [exact Hall2 |]. intros pd. now apply Hown. }
    destruct r2 as [[] | p].
    2: { intros H. injection H as <- _. exists (w1 ++ w2)%list.
         rewrite Hw2, Hw1, <- app_assoc. split; [reflexivity |].
         apply Forall_app. auto. }
    intros H. apply IH in H as (w3 & Hw3 & Hall3).
    exists (w1 ++ w2 ++ w3)%list.
    rewrite Hw3, Hw2, Hw1, <- !app_assoc. split; [reflexivity |].
    apply Forall_app. split; [assumption |].
    apply Forall_app. split; [assumption |].
    eapply Forall_impl; [exact Hall3 |]. intros pd.
    apply entry_artifact_mono. intros x Hx. now right.
Qed.

(** [X13]: two runs over the same catalog, complete or not, never write
    different bytes to the file of the same kind of the same entry: for
    keys without path separator, a path written in both runs has the same
    bytes in both. *)
Lemma written_bytes_agree (E : Env) (outputDirectory : string)
  (elements : gmap string Desc) (r1 r2 : trace * result unit)
  (path d1 d2 : string) :
  (forall k v, elements !! k = Some v -> no_separator k = true) ->
  main E outputDirectory elements r1 ->
  main E outputDirectory elements r2 ->
  (path, d1) ∈ artifacts (fst r1) ->
  (path, d2) ∈ artifacts (fst r2) ->
  d1 = d2.
Proof.
  intros Hkeys (o1 & Hp1 & <-) (o2 & Hp2 & <-) H1 H2.
  assert (Hin : forall o d,
             o ≡ₚ map_to_list elements ->
             (path, d) ∈ artifacts (fst (main_in_order E outputDirectory o)) ->
             exists k v e kind,
               elements !! k = Some v /\ main_elem k v = Ok e
               /\ path = artifact_path outputDirectory k kind
               /\ rendered E kind e = Some d).
  { intros o d Hp Hd. unfold main_in_order in Hd.
    destruct (main_range E outputDirectory o []) as [tr r] eqn:Hrun.
    apply main_range_artifacts in Hrun as (w & Hw & Hall).
    cbn [fst artifacts app] in *. rewrite Hw in Hd.
    rewrite Forall_forall in Hall.
    destruct (Hall _ Hd) as (k & v & e & kind & Hkv & He & Hpath & Hr).
    exists k, v, e, kind. rewrite Hp in Hkv.
    apply elem_of_map_to_list in Hkv. auto. }
  destruct (Hin o1 d1 Hp1 H1) as (k1 & v1 & e1 & kind1 & Hk1 & He1 & Hpath1 & Hr1).
  destruct (Hin o2 d2 Hp2 H2) as (k2 & v2 & e2 & kind2 & Hk2 & He2 & Hpath2 & Hr2).
  rewrite Hpath2 in Hpath1. symmetry in Hpath1.
  apply artifact_path_inj in Hpath1 as [-> ->]; eauto.
  rewrite Hk2 in Hk1. injection Hk1 as <-.
  rewrite He2 in He1. injection He1 as <-.
  rewrite Hr2 in Hr1. now injection Hr1.
Qed.

(* ===================================================================== *)
(** * The files of a run *)
(* ===================================================================== *)

Section WrittenFacts.

Variable E : Env.
Variable outputDirectory : string.

Local Open Scope list_scope.

Lemma executeTemplate_written (n : string) (t : template) (e : templElem)
  (tr tr' : trace) (r : result unit) :
  executeTemplate E outputDirectory n t e tr = (tr', r) ->
  (artifacts tr').*1
  = (artifacts tr).*1 ++ match r with
                         | Ok _ => [filepath_Join outputDirectory n]
                         | Panic _ => []
                         end.
Proof.
  rewrite executeTemplate_cases. cbv zeta.
  destruct (template_Execute t e) as [b | err].
  2: { intros H. injection H as <- <-. now rewrite app_nil_r. }
  destruct (format_Source E b) as [formatted | err].
  2: { intros H. injection H as <- <-. now rewrite app_nil_r. }
  destruct (os_Create E tr _) as [err |].
  { intros H. injection H as <- <-. rewrite artifacts_app, fmap_app. reflexivity. }
  destruct (file_Write E _ _ _) as [err |]; intros H; injection H as <- <-;
    rewrite artifacts_app, fmap_app; reflexivity.
Qed.

Lemma main_body_written (kv : string * Desc) (tr tr' : trace) (r : result unit) :
  main_body E outputDirectory kv tr = (tr', r) ->
  exists ps,
    (artifacts tr').*1 = (artifacts tr).*1 ++ ps
    /\ ps `prefix_of` entry_paths outputDirectory kv
    /\ (r = Ok tt -> ps = entry_paths outputDirectory kv).
Proof.
  destruct kv as [k v]. rewrite main_body_cases.
  destruct (main_elem k v) as [e | p].
  2: { intros H. injection H as <- <-. exists []. rewrite app_nil_r.
       split; [reflexivity |]. split; [apply prefix_nil | discriminate]. }
  unfold generate.
  destruct (executeTemplate E outputDirectory (k +:+ artifactSuffix Implementation)
              (artifactTemplate Implementation) e tr) as [tr1 [[] | p]] eqn:H1;
    apply executeTemplate_written in H1.
  - intros H2. pose proof (executeTemplate_written _ _ _ _ _ _ H2) as H3.
    rewrite H3, H1, <- app_assoc.
    destruct r as [[] | p].
    + exists (entry_paths outputDirectory (k, v)). split; [reflexivity |].
      split; [reflexivity | reflexivity].
    + exists [artifact_path outputDirectory k Implementation].
      split; [reflexivity |].
      split; [now exists [artifact_path outputDirectory k TestFile] | discriminate].
  - intros H. injection H as <- <-. exists []. rewrite H1.
    split; [reflexivity |]. split; [apply prefix_nil | discriminate].
Qed.

(** The paths a run has written are, in order, the two paths of each
    entry visited, up to the point the run has reached. *)
Lemma main_range_written (order : list (string * Desc)) (tr tr' : trace)
  (r : result unit) :
  main_range E outputDirectory order tr = (tr', r) ->
  exists ps,
    (artifacts tr').*1 = (artifacts tr).*1 ++ ps
    /\ ps `prefix_of` flat_map (entry_paths outputDirectory) order
    /\ (r = Ok tt -> ps = flat_map (entry_paths outputDirectory) order).
Proof.
  revert tr. induction order as [| kv order IH]; intros tr.
  - intros H. injection H as <- <-. exists []. rewrite app_nil_r.
    split; [reflexivity |]. split; [reflexivity | reflexivity].
  - rewrite main_range_cons.
    destruct (main_body E outputDirectory kv tr) as [tr1 [[] | p]] eqn:Hb;
      apply main_body_written in Hb as (ps1 & Hps1 & Hpre1 & Hall1).
    + intros H. apply IH in H as (ps2 & Hps2 & Hpre2 & Hall2).
      rewrite (Hall1 eq_refl) in Hps1.
      exists (entry_paths outputDirectory kv ++ ps2).
      rewrite Hps2, Hps1, <- app_assoc. split; [reflexivity |].
      cbn [flat_map]. split; [now apply prefix_app |].
      intros Hr. now rewrite (Hall2 Hr).
    + intros H. injection H as <- <-. exists ps1. split; [exact Hps1 |].
      split; [| discriminate]. cbn [flat_map].
      now apply prefix_app_r.
Qed.

(** The paths of entries with distinct keys free of separators are
    pairwise distinct. *)
Lemma entry_paths_NoDup (order : list (string * Desc)) :
  NoDup (order.*1) ->
  Forall (fun kv => no_separator (fst kv) = true) order ->
  NoDup (flat_map (entry_paths outputDirectory) order).
Proof.
  induction order as [| [k v] order IH]; intros Hnd Hsep; [constructor |].
  cbn [fmap list_fmap fst] in Hnd. apply NoDup_cons in Hnd as [Hk Hnd].
  apply Forall_cons in Hsep as [Hks Hsep]. cbn [fst] in Hks.
  cbn [flat_map entry_paths fst app].
  assert (Hfresh : forall kind,
             artifact_path outputDirectory k kind
             ∉ flat_map (entry_paths outputDirectory) order).
  { intros kind Hin. apply list_elem_of_In, in_flat_map in Hin as ([k' v'] & Hin' & Hp).
    apply list_elem_of_In in Hin'.
    assert (Hk' : no_separator k' = true).
    { rewrite Forall_forall in Hsep. exact (Hsep (k', v') Hin'). }
    assert (Heq : exists kind', artifact_path outputDirectory k kind
                                = artifact_path outputDirectory k' kind').
    { unfold entry_paths in Hp. cbn [fst] in Hp.
      destruct Hp as [<- | [<- | []]]; eauto. }
    destruct Heq as [kind' Heq].
    apply artifact_path_inj in Heq as [-> _]; try assumption.
    apply Hk. apply list_elem_of_fmap. exists (k', v'). auto. }
  apply NoDup_cons. split.
  - intros Hin. apply elem_of_cons in Hin as [Heq | Hin].
    + apply artifact_path_inj in Heq as [_ Heq]; [discriminate | assumption ..].
    + exact (Hfresh Implementation Hin).
  - apply NoDup_cons. split; [apply Hfresh | now apply IH].
Qed.

End WrittenFacts.

Lemma created_app (tr1 tr2 : trace) :
  created (tr1 ++ tr2)%list = (created tr1 ++ created tr2)%list.
Proof.
  induction tr1 as [| [name err | name data err] tr1 IH]; simpl;
    [reflexivity | now rewrite IH | exact IH].
Qed.

Section CreatedFacts.

Variable E : Env.
Variable outputDirectory : string.

Local Open Scope list_scope.

Lemma executeTemplate_created (n : string) (t : template) (e : templElem)
  (tr tr' : trace) (r : result unit) :
  executeTemplate E outputDirectory n t e tr = (tr', r) ->
  exists cs,
    created tr' = created tr ++ cs
    /\ cs `prefix_of` [filepath_Join outputDirectory n]
    /\ (r = Ok tt -> cs = [filepath_Join outputDirectory n]).
Proof.
  rewrite executeTemplate_cases. cbv zeta.
  destruct (template_Execute t e) as [b | err].
  2: { intros H. injection H as <- <-. exists []. rewrite app_nil_r.
       split; [reflexivity |]. split; [apply prefix_nil | discriminate]. }
  destruct (format_Source E b) as [formatted | err].
  2: { intros H. injection H as <- <-. exists []. rewrite app_nil_r.
       split; [reflexivity |]. split; [apply prefix_nil | discriminate]. }
  destruct (os_Create E tr _) as [err |].
  { intros H. injection H as <- <-. exists [filepath_Join outputDirectory n].
    rewrite created_app. split; [reflexivity |]. split; reflexivity. }
  destruct (file_Write E _ _ _) as [err |]; intros H; injection H as <- <-;
    exists [filepath_Join outputDirectory n]; rewrite created_app;
    (split; [reflexivity |]; split; reflexivity).
Qed.

Lemma main_body_created (kv : string * Desc) (tr tr' : trace) (r : result unit) :
  main_body E outputDirectory kv tr = (tr', r) ->
  exists cs,
    created tr' = created tr ++ cs
    /\ cs `prefix_of` entry_paths outputDirectory kv
    /\ (r = Ok tt -> cs = entry_paths outputDirectory kv).
Proof.
  destruct kv as [k v]. rewrite main_body_cases.
  destruct (main_elem k v) as [e | p].
  2: { intros H. injection H as <- <-. exists []. rewrite app_nil_r.
       split; [reflexivity |]. split; [apply prefix_nil | discriminate]. }
  unfold generate.
  destruct (executeTemplate E outputDirectory (k +:+ artifactSuffix Implementation)
              (artifactTemplate Implementation) e tr) as [tr1 [[] | p]] eqn:H1;
    apply executeTemplate_created in H1 as (cs1 & Hc1 & Hp1 & Ha1).
  - intros H2. apply executeTemplate_created in H2 as (cs2 & Hc2 & Hp2 & Ha2).
    rewrite (Ha1 eq_refl) in Hc1.
    exists ([filepath_Join outputDirectory (k +:+ artifactSuffix Implementation)] ++ cs2).
    rewrite Hc2, Hc1, <- app_assoc. split; [reflexivity |].
    unfold entry_paths, artifact_path. cbn [fst].
    split.
    + apply (prefix_app [_] cs2 [_]). exact Hp2.
    + intros Hr. now rewrite (Ha2 Hr).
  - intros H. injection H as <- <-. exists cs1. split; [exact Hc1 |].
    split; [| discriminate].
    unfold entry_paths, artifact_path. cbn [fst].
    apply (prefix_app_r cs1 [_] [_]). exact Hp1.
Qed.

(** The paths a run asks [os.Create] for are, in order, the two paths of
    each entry visited, the implementation file first, up to the point
    the run has reached. *)
Lemma main_range_created (order : list (string * Desc)) (tr tr' : trace)
  (r : result unit) :
  main_range E outputDirectory order tr = (tr', r) ->
  exists cs,
    created tr' = created tr ++ cs
    /\ cs `prefix_of` flat_map (entry_paths outputDirectory) order
    /\ (r = Ok tt -> cs = flat_map (entry_paths outputDirectory) order).
Proof.
  revert tr. induction order as [| kv order IH]; intros tr.
  - intros H. injection H as <- <-. exists []. rewrite app_nil_r.
    split; [reflexivity |]. split; [reflexivity | reflexivity].
  - rewrite main_range_cons.
    destruct (main_body E outputDirectory kv tr) as [tr1 [[] | p]] eqn:Hb;
      apply main_body_created in Hb as (cs1 & Hc1 & Hpre1 & Hall1).
    + intros H. apply IH in H as (cs2 & Hc2 & Hpre2 & Hall2).
      rewrite (Hall1 eq_refl) in Hc1.
      exists (entry_paths outputDirectory kv ++ cs2).
      rewrite Hc2, Hc1, <- app_assoc. split; [reflexivity |].
      cbn [flat_map]. split; [now apply prefix_app |].
      intros Hr. now rewrite (Hall2 Hr).
    + intros H. injection H as <- <-. exists cs1. split; [exact Hc1 |].
      split; [| discriminate]. cbn [flat_map].
      now apply prefix_app_r.
Qed.

(** A run that returns has rendered and formatted both files of every
    entry. *)
Lemma main_range_Ok_rendered (order : list (string * Desc)) (tr tr' : trace) :
  main_range E outputDirectory order tr = (tr', Ok tt) ->
  Forall (fun kv =>
            exists e f1 f2,
              main_elem (fst kv) (snd kv) = Ok e
              /\ rendered E Implementation e = Some f1
              /\ rendered E TestFile e = Some f2) order.
Proof.
  revert tr. induction order as [| [k v] order IH]; intros tr H; [constructor |].
  rewrite main_range_cons in H.
  destruct (main_body E outputDirectory (k, v) tr) as [tr1 [[] | p]] eqn:Hb;
    [| discriminate H].
  constructor; [| eapply IH; exact H].
  rewrite main_body_cases in Hb. cbn [fst snd].
  destruct (main_elem k v) as [e | p]; [| discriminate Hb].
  unfold generate in Hb.
  destruct (executeTemplate E outputDirectory (k +:+ artifactSuffix Implementation)
              (artifactTemplate Implementation) e tr) as [tr2 [[] | p]] eqn:H1;
    [| discriminate Hb].
  apply executeTemplate_Ok in H1 as (f1 & Hf1 & _).
  apply executeTemplate_Ok in Hb as (f2 & Hf2 & _).
  exists e, f1, f2. auto.
Qed.

End CreatedFacts.

Section CompleteRuns.

Variable E : Env.
Variable outputDirectory : string.
Variable elements : gmap string Desc.
Hypothesis keys_plain : forall k v, elements !! k = Some v -> no_separator k = true.

Lemma complete_run_artifacts (order : list (string * Desc)) (tr : trace) :
  order ≡ₚ map_to_list elements ->
  main_in_order E outputDirectory order = (tr, Ok tt) ->
  artifacts tr ≡ₚ catalog_artifacts E outputDirectory elements
  /\ NoDup ((artifacts tr).*1)
  /\ created tr = (artifacts tr).*1.
Proof.
  intros Hperm Hrun. unfold main_in_order in Hrun.
  pose proof (main_range_Ok _ _ _ _ _ Hrun) as Hart. cbn [artifacts app] in Hart.
  destruct (main_range_written _ _ _ _ _ _ Hrun) as (ps & Hps & _ & Hall).
  destruct (main_range_created _ _ _ _ _ _ Hrun) as (cs & Hcs & _ & Hcall).
  simpl in Hps, Hcs. rewrite (Hall eq_refl) in Hps. rewrite (Hcall eq_refl) in Hcs.
  split; [| split].
  - rewrite Hart. unfold catalog_artifacts. now apply Permutation_flat_map.
  - rewrite Hps. apply entry_paths_NoDup.
    + rewrite Hperm. apply NoDup_fst_map_to_list.
    + apply Forall_forall. intros [k v] Hin. cbn [fst].
      apply (keys_plain k v). apply elem_of_map_to_list. now rewrite <- Hperm.
  - now rewrite Hcs, Hps.
Qed.

Lemma complete_run_files (order : list (string * Desc)) (tr : trace) :
  order ≡ₚ map_to_list elements ->
  main_in_order E outputDirectory order = (tr, Ok tt) ->
  written_files tr = list_to_map (catalog_artifacts E outputDirectory elements).
Proof.
  intros Hperm Hrun.
  destruct (complete_run_artifacts order tr Hperm Hrun) as (Hart & Hnd & _).
  unfold written_files. apply list_to_map_proper.
  - rewrite fmap_reverse, reverse_Permutation. exact Hnd.
  - now rewrite reverse_Permutation.
Qed.

Lemma complete_run_file (order : list (string * Desc)) (tr : trace)
  (k : string) (v : Desc) (kind : artifactKind) :
  order ≡ₚ map_to_list elements ->
  main_in_order E outputDirectory order = (tr, Ok tt) ->
  elements !! k = Some v ->
  exists e data,
    main_elem k v = Ok e
    /\ rendered E kind e = Some data
    /\ written_files tr !! artifact_path outputDirectory k kind = Some data.
Proof.
  intros Hperm Hrun Hin.
  destruct (complete_run_artifacts order tr Hperm Hrun) as (_ & Hnd & _).
  unfold main_in_order in Hrun.
  pose proof (main_range_Ok _ _ _ _ _ Hrun) as Hart. cbn [artifacts app] in Hart.
  pose proof (main_range_Ok_rendered _ _ _ _ _ Hrun) as Hall.
  assert (Hkv : (k, v) ∈ order).
  { rewrite Hperm. now apply elem_of_map_to_list. }
  rewrite Forall_forall in Hall.
  destruct (Hall (k, v) Hkv) as (e & f1 & f2 & He & H1 & H2). cbn [fst snd] in He.
  assert (Hfiles : forall kind' data,
             rendered E kind' e = Some data ->
             (artifact_path outputDirectory k kind', data) ∈ artifacts tr).
  { intros kind' data Hd. rewrite Hart.
    apply list_elem_of_In, in_flat_map. exists (k, v).
    split; [now apply list_elem_of_In |].
    unfold entry_artifacts. cbn [fst snd]. rewrite He, H1, H2.
    destruct kind'; rewrite Hd in *.
    - injection H1 as ->. now left.
    - injection H2 as ->. right. now left. }
  exists e, (match kind with Implementation => f1 | TestFile => f2 end).
  split; [exact He |].
  assert (Hr : rendered E kind e
               = Some (match kind with Implementation => f1 | TestFile => f2 end))
    by (destruct kind; assumption).
  split; [exact Hr |].
  unfold written_files. apply elem_of_list_to_map_1.
  - rewrite fmap_reverse, reverse_Permutation. exact Hnd.
  - apply elem_of_reverse. now apply Hfiles.
Qed.

Lemma complete_run_created (order : list (string * Desc)) (tr : trace)
  (path : string) :
  order ≡ₚ map_to_list elements ->
  main_in_order E outputDirectory order = (tr, Ok tt) ->
  path ∈ created tr <-> is_Some (written_files tr !! path).
Proof.
  intros Hperm Hrun.
  destruct (complete_run_artifacts order tr Hperm Hrun) as (_ & _ & ->).
  unfold written_files.
  rewrite <- not_eq_None_Some, <- not_elem_of_list_to_map, fmap_reverse.
  rewrite elem_of_reverse.
  split; [auto |]. intros H. destruct (decide (path ∈ (artifacts tr).*1)); tauto.
Qed.

End CompleteRuns.

(* ===================================================================== *)
(** * The claims about the pipeline *)
(* ===================================================================== *)

(** ** Fail-fast *)

(** [C2], as the specification states it, fails on its last part: the
    run reports the error of the failing call as that call returned it and
    adds nothing to it.  With a formatter whose message does not name the
    entry, a run that fails at the implementation file of [x] and a run
    that fails at the implementation file of [y] report the same failure
    and leave the same trace. *)
Lemma failure_report_anonymous :
  main_in_order env_reject "." [("x", desc_plain); ("y", desc_plain)]
  = ([], Panic (PanicError "1:1: expected 'package'"))
  /\ artifact_fails env_reject "." "x" (plain_elem "x" "X")
       Implementation [] [] (PanicError "1:1: expected 'package'")
  /\ main_in_order env_reject "." [("y", desc_plain); ("x", desc_plain)]
     = ([], Panic (PanicError "1:1: expected 'package'"))
  /\ artifact_fails env_reject "." "y" (plain_elem "y" "Y")
       Implementation [] [] (PanicError "1:1: expected 'package'")
  /\ "x" <> "y".
Proof. repeat split. discriminate. Qed.

Section FailFacts.

Variable E : Env.
Variable outputDirectory : string.

Local Open Scope list_scope.

(** A call of [executeTemplate] one of whose steps fails panics with the
    error of the step; it has written nothing, and the calls it has made
    bear its path. *)
Lemma step_fails_panics (n : string) (t : template) (e : templElem)
  (tr : trace) (err : error) :
  step_fails E outputDirectory n t e tr err ->
  exists evs,
    executeTemplate E outputDirectory n t e tr
    = (tr ++ evs, Panic (PanicError err))
    /\ artifacts (tr ++ evs) = artifacts tr
    /\ (length evs <= 2)%nat
    /\ Forall (fun ev => event_name ev = filepath_Join outputDirectory n) evs.
Proof.
  rewrite executeTemplate_cases. cbv zeta.
  intros [Ht | [(b & Ht & Hf) | [(b & f & Ht & Hf & Hc) | (b & f & Ht & Hf & Hc & Hw)]]];
    rewrite Ht; try rewrite Hf; try rewrite Hc; try rewrite Hw.
  - exists []. rewrite app_nil_r. repeat split; [simpl; lia | constructor].
  - exists []. rewrite app_nil_r. repeat split; [simpl; lia | constructor].
  - eexists. split; [reflexivity |]. rewrite artifacts_app, app_nil_r.
    repeat split; [simpl; lia |]. repeat constructor.
  - eexists. split; [reflexivity |]. rewrite artifacts_app, app_nil_r.
    repeat split; [simpl; lia |]. repeat constructor.
Qed.

Lemma reaches_fails (k : string) (v : Desc) (e : templElem) (kind : artifactKind)
  (tr1 tr0 : trace) (err : error) :
  main_elem k v = Ok e ->
  reaches E outputDirectory k e kind tr1 tr0 ->
  step_fails E outputDirectory (k +:+ artifactSuffix kind)
    (artifactTemplate kind) e tr0 err ->
  exists evs,
    main_body E outputDirectory (k, v) tr1 = (tr0 ++ evs, Panic (PanicError err))
    /\ artifacts (tr0 ++ evs) = artifacts tr0
    /\ (length evs <= 2)%nat
    /\ Forall (fun ev => event_name ev = artifact_path outputDirectory k kind) evs.
Proof.
  intros He Hreach Hstep.
  destruct (step_fails_panics _ _ _ _ _ Hstep) as (evs & Hcall & Hart & Hlen & Hevs).
  exists evs. split; [| auto].
  rewrite main_body_cases, He. unfold reaches in Hreach.
  destruct kind.
  - subst tr0. unfold generate. now rewrite Hcall.
  - rewrite Hreach. exact Hcall.
Qed.

(** A run ends with the error [err] exactly when one of its calls fails
    with [err]. *)
Lemma call_fails_run (order : list (string * Desc)) (err : error) :
  call_fails E outputDirectory order err
  <-> exists tr, main_in_order E outputDirectory order = (tr, Panic (PanicError err)).
Proof.
  split.
  - intros (pre & k & v & post & e & kind & tr1 & tr0 & -> & Hpre & He & Hreach & Hstep).
    destruct (reaches_fails k v e kind tr1 tr0 err He Hreach Hstep)
      as (evs & Hbody & _).
    exists (tr0 ++ evs). unfold main_in_order in *.
    eapply main_range_abort; eassumption.
  - intros [tr Hrun]. unfold main_in_order in Hrun.
    destruct (main_range_panic_inv _ _ _ _ _ _ Hrun)
      as (pre & [k v] & post & tr1 & -> & Hpre & Hbody).
    destruct (main_body_panic_inv _ _ _ _ _ _ _ Hbody)
      as [(_ & Hp & _) | (e & kind & He & Hfail)]; [discriminate Hp |].
    exists pre, k, v, post, e, kind, tr1.
    destruct kind; simpl in Hfail.
    + exists tr1. repeat split; try assumption.
      assert (Hex : exists tr', executeTemplate E outputDirectory
                                  (k +:+ artifactSuffix Implementation)
                                  (artifactTemplate Implementation) e tr1
                                = (tr', Panic (PanicError err))) by eauto.
      apply executeTemplate_panic_iff in Hex as (err' & Heq & Hstep).
      injection Heq as ->. exact Hstep.
    + destruct Hfail as (tr0 & Himpl & Htest).
      exists tr0. repeat split; try assumption.
      assert (Hex : exists tr', executeTemplate E outputDirectory
                                  (k +:+ artifactSuffix TestFile)
                                  (artifactTemplate TestFile) e tr0
                                = (tr', Panic (PanicError err))) by eauto.
      apply executeTemplate_panic_iff in Hex as (err' & Heq & Hstep).
      injection Heq as ->. exact Hstep.
Qed.

End FailFacts.

(** [C2], amended: if rendering, formatting, creating or writing the file
    of either kind of an entry fails, that is, if the run reaches the call
    for the file and one of the four steps of the call fails with [err],
    the run ends there, whatever entries come after: it panics once, and
    the value of the panic is [err], the error of the failing step as the
    step returned it.  The failing call has written nothing and has made
    at most two calls, under the path of its file; every call of the run
    belongs to the failing entry or to an entry before it, so that nothing
    is produced for the entries after. *)
Theorem fail_fast (E : Env) (outputDirectory : string)
  (pre post : list (string * Desc)) (k : string) (v : Desc) (e : templElem)
  (kind : artifactKind) (tr1 tr0 : trace) (err : error) :
  main_in_order E outputDirectory pre = (tr1, Ok tt) ->
  main_elem k v = Ok e ->
  reaches E outputDirectory k e kind tr1 tr0 ->
  step_fails E outputDirectory (k +:+ artifactSuffix kind)
    (artifactTemplate kind) e tr0 err ->
  exists evs,
    main_in_order E outputDirectory (pre ++ (k, v) :: post)
    = ((tr0 ++ evs)%list, Panic (PanicError err))
    /\ artifacts (tr0 ++ evs)%list = artifacts tr0
    /\ (length evs <= 2)%nat
    /\ Forall (fun ev => event_name ev = artifact_path outputDirectory k kind) evs
    /\ Forall (entry_event outputDirectory (pre ++ [(k, v)])) (tr0 ++ evs)%list.
Proof.
  intros Hpre He Hreach Hstep.
  destruct (reaches_fails E outputDirectory k v e kind tr1 tr0 err He Hreach Hstep)
    as (evs & Hbody & Hart & Hlen & Hevs).
  exists evs. unfold main_in_order in *.
  split; [eapply main_range_abort; eassumption |].
  split; [exact Hart |]. split; [exact Hlen |]. split; [exact Hevs |].
  assert (Hrun : main_range E outputDirectory (pre ++ [(k, v)]) []
                 = ((tr0 ++ evs)%list, Panic (PanicError err))).
  { eapply main_range_abort; eassumption. }
  apply main_range_events in Hrun as (evs' & Heq & Hall).
  simpl in Heq. rewrite Heq. exact Hall.
Qed.

Lemma fail_fast_witness :
  (exists tr0,
     reaches (env_full "b_elem_test.go") "." "b" (plain_elem "b" "B") TestFile
       (fst (main_in_order (env_full "b_elem_test.go") "." [("a", desc_plain)])) tr0
     /\ step_fails (env_full "b_elem_test.go") "." ("b" +:+ artifactSuffix TestFile)
          (artifactTemplate TestFile) (plain_elem "b" "B") tr0
          "no space left on device"
     /\ exists tr,
          main_in_order (env_full "b_elem_test.go") "."
            ([("a", desc_plain)] ++ ("b", desc_plain) :: [("c", desc_plain)])
          = (tr, Panic (PanicError "no space left on device"))
          /\ map event_name tr
             = ["a_elem.go"; "a_elem.go"; "a_elem_test.go"; "a_elem_test.go";
                "b_elem.go"; "b_elem.go"; "b_elem_test.go"; "b_elem_test.go"]
          /\ map fst (artifacts tr) = ["a_elem.go"; "a_elem_test.go"; "b_elem.go"])
  /\ (step_fails env_reject "." ("x" +:+ artifactSuffix Implementation)
        (artifactTemplate Implementation) (plain_elem "x" "X") []
        "1:1: expected 'package'"
      /\ main_in_order env_reject "."
           ([] ++ ("x", desc_plain) :: [("y", desc_plain)])
         = ([], Panic (PanicError "1:1: expected 'package'"))).
Proof.
  split.
  - set (E := env_full "b_elem_test.go").
    set (tr1 := fst (main_in_order E "." [("a", desc_plain)])).
    set (tr0 := fst (generate E "." "b" (plain_elem "b" "B") Implementation tr1)).
    assert (Hpre : main_in_order E "." [("a", desc_plain)] = (tr1, Ok tt))
      by (vm_compute; reflexivity).
    assert (Hreach : reaches E "." "b" (plain_elem "b" "B") TestFile tr1 tr0)
      by (vm_compute; reflexivity).
    assert (Hstep : step_fails E "." ("b" +:+ artifactSuffix TestFile)
                      (artifactTemplate TestFile) (plain_elem "b" "B") tr0
                      "no space left on device").
    { right. right. right. eexists. eexists.
      split; [reflexivity |]. split; [reflexivity |].
      split; [reflexivity |]. vm_compute. reflexivity. }
    exists tr0. split; [exact Hreach |]. split; [exact Hstep |].
    destruct (fail_fast E "." [("a", desc_plain)] [("c", desc_plain)] "b" desc_plain
                (plain_elem "b" "B") TestFile tr1 tr0 "no space left on device"
                Hpre eq_refl Hreach Hstep) as (evs & Hrun & _).
    exists (tr0 ++ evs)%list. split; [exact Hrun |].
    apply (f_equal fst) in Hrun. cbn [fst] in Hrun. rewrite <- Hrun.
    split; vm_compute; reflexivity.
  - assert (Hstep : step_fails env_reject "." ("x" +:+ artifactSuffix Implementation)
                      (artifactTemplate Implementation) (plain_elem "x" "X") []
                      "1:1: expected 'package'").
    { right. left. eexists. split; reflexivity. }
    split; [exact Hstep |].
    destruct (fail_fast env_reject "." [] [("y", desc_plain)] "x" desc_plain
                (plain_elem "x" "X") Implementation [] [] "1:1: expected 'package'"
                eq_refl eq_refl eq_refl Hstep) as (evs & Hrun & _).
    rewrite Hrun. f_equal.
    apply (f_equal fst) in Hrun. cbn [fst] in Hrun. rewrite <- Hrun.
    vm_compute. reflexivity.
Defined.

(** ** No write before formatting has succeeded *)

(** [C10]: if the execution of the template or the formatting of its
    output fails, [executeTemplate] panics with that error and leaves the
    trace as it was: the file is neither created nor written; it is opened
    only after the formatting has succeeded. *)
Theorem no_file_on_early_failure (E : Env) (outputDirectory n : string)
  (t : template) (e : templElem) (tr : trace) (err : error) :
  template_Execute t e = Err err
  \/ (exists b, template_Execute t e = Val b /\ format_Source E b = Err err) ->
  executeTemplate E outputDirectory n t e tr = (tr, Panic (PanicError err)).
Proof.
  intros [Ht | (b & Ht & Hf)]; rewrite executeTemplate_cases, Ht;
    [reflexivity | now rewrite Hf].
Qed.

Lemma no_file_on_early_failure_witness :
  (template_Execute primary (plain_elem "a" "A") = Err "1:1: expected 'package'"
   \/ exists b,
        template_Execute primary (plain_elem "a" "A") = Val b
        /\ format_Source env_reject b = Err "1:1: expected 'package'")
  /\ executeTemplate env_reject "out" "a_elem.go" primary (plain_elem "a" "A") []
     = ([], Panic (PanicError "1:1: expected 'package'")).
Proof.
  assert (H : template_Execute primary (plain_elem "a" "A")
              = Err "1:1: expected 'package'"
              \/ exists b,
                   template_Execute primary (plain_elem "a" "A") = Val b
                   /\ format_Source env_reject b = Err "1:1: expected 'package'").
  { right. eexists. split; reflexivity. }
  split; [exact H |].
  exact (no_file_on_early_failure env_reject "out" "a_elem.go" primary
           (plain_elem "a" "A") [] "1:1: expected 'package'" H).
Defined.

(** ** Determinism *)

Lemma elements_ab_order_ab :
  [("a", desc_plain); ("b", desc_plain)] ≡ₚ map_to_list elements_ab.
Proof.
  unfold elements_ab.
  rewrite map_to_list_insert by (vm_compute; reflexivity).
  rewrite map_to_list_insert by (vm_compute; reflexivity).
  now rewrite map_to_list_empty.
Qed.

Lemma elements_ab_order_ba :
  [("b", desc_plain); ("a", desc_plain)] ≡ₚ map_to_list elements_ab.
Proof. etransitivity; [apply perm_swap | apply elements_ab_order_ab]. Qed.

Lemma elements_ab_no_separator (k : string) (v : Desc) :
  elements_ab !! k = Some v -> no_separator k = true.
Proof.
  unfold elements_ab. intros H.
  apply lookup_insert_Some in H as [[<- _] | [_ H]]; [reflexivity |].
  apply lookup_insert_Some in H as [[<- _] | [_ H]]; [reflexivity |].
  rewrite lookup_empty in H. discriminate H.
Qed.

Lemma elements_ab_run :
  main env_accept "out" elements_ab
    (main_in_order env_accept "out" [("a", desc_plain); ("b", desc_plain)]).
Proof.
  exists [("a", desc_plain); ("b", desc_plain)].
  split; [exact elements_ab_order_ab | reflexivity].
Qed.

Lemma elements_ab_run_ba :
  main env_accept "out" elements_ab
    (main_in_order env_accept "out" [("b", desc_plain); ("a", desc_plain)]).
Proof.
  exists [("b", desc_plain); ("a", desc_plain)].
  split; [exact elements_ab_order_ba | reflexivity].
Qed.

(** [C3], as the specification states it, fails when an entry fails: the
    order in which [range] visits the map differs from run to run, and
    with it the files written before the panic.  When the implementation
    file of [b] cannot be created, the run that visits [a] first writes
    the two files of [a], the run that visits [b] first writes nothing. *)
Lemma runs_differ_on_failure :
  main (env_locked "b_elem.go") "." elements_ab
    (main_in_order (env_locked "b_elem.go") "."
       [("a", desc_plain); ("b", desc_plain)])
  /\ main (env_locked "b_elem.go") "." elements_ab
       (main_in_order (env_locked "b_elem.go") "."
          [("b", desc_plain); ("a", desc_plain)])
  /\ map fst (artifacts (fst (main_in_order (env_locked "b_elem.go") "."
                                [("a", desc_plain); ("b", desc_plain)])))
     = ["a_elem.go"; "a_elem_test.go"]
  /\ artifacts (fst (main_in_order (env_locked "b_elem.go") "."
                       [("b", desc_plain); ("a", desc_plain)]))
     = [].
Proof.
  split; [| split; [| split]].
  - eexists. split; [apply elements_ab_order_ab | reflexivity].
  - eexists. split; [apply elements_ab_order_ba | reflexivity].
  - vm_compute. reflexivity.
  - vm_compute. reflexivity.
Qed.

(** [C3], amended: two runs over the same catalog, no key of which holds
    a path separator, that both complete without failure leave the same
    files with the same bytes, whatever the order in which each of them
    visits the map.  The files left are those the run has created; for
    every key and kind the file is there in both runs, with the formatted
    output of its template; and the two runs have made the same writes. *)
Theorem deterministic_when_complete (E : Env) (outputDirectory : string)
  (elements : gmap string Desc) (r1 r2 : trace * result unit) :
  (forall k v, elements !! k = Some v -> no_separator k = true) ->
  main E outputDirectory elements r1 ->
  main E outputDirectory elements r2 ->
  snd r1 = Ok tt -> snd r2 = Ok tt ->
  written_files (fst r1) = written_files (fst r2)
  /\ (forall path, path ∈ created (fst r1) <-> is_Some (written_files (fst r1) !! path))
  /\ (forall k v kind,
        elements !! k = Some v ->
        exists e data,
          main_elem k v = Ok e
          /\ rendered E kind e = Some data
          /\ written_files (fst r1) !! artifact_path outputDirectory k kind = Some data
          /\ written_files (fst r2) !! artifact_path outputDirectory k kind = Some data)
  /\ artifacts (fst r1) ≡ₚ artifacts (fst r2).
Proof.
  intros Hkeys (o1 & Hp1 & H1) (o2 & Hp2 & H2) Hr1 Hr2.
  destruct r1 as [tr1 res1]. destruct r2 as [tr2 res2]. cbn [fst snd] in *.
  subst res1 res2.
  split; [| split; [| split]].
  - rewrite (complete_run_files E outputDirectory elements Hkeys o1 tr1 Hp1 H1).
    now rewrite (complete_run_files E outputDirectory elements Hkeys o2 tr2 Hp2 H2).
  - intros path. now apply (complete_run_created E outputDirectory elements Hkeys o1).
  - intros k v kind Hin.
    destruct (complete_run_file E outputDirectory elements Hkeys o1 tr1 k v kind
                Hp1 H1 Hin) as (e & data & He & Hd & Hf1).
    destruct (complete_run_file E outputDirectory elements Hkeys o2 tr2 k v kind
                Hp2 H2 Hin) as (e' & data' & He' & Hd' & Hf2).
    rewrite He in He'. injection He' as <-. rewrite Hd in Hd'. injection Hd' as <-.
    exists e, data. auto.
  - destruct (complete_run_artifacts E outputDirectory elements Hkeys o1 tr1 Hp1 H1)
      as (P1 & _).
    destruct (complete_run_artifacts E outputDirectory elements Hkeys o2 tr2 Hp2 H2)
      as (P2 & _).
    now rewrite P1, P2.
Qed.

Lemma deterministic_when_complete_witness :
  written_files (fst (main_in_order env_accept "out"
                        [("a", desc_plain); ("b", desc_plain)]))
  = written_files (fst (main_in_order env_accept "out"
                          [("b", desc_plain); ("a", desc_plain)])).
Proof.
  refine (proj1 (deterministic_when_complete env_accept "out" elements_ab _ _
                   elements_ab_no_separator elements_ab_run elements_ab_run_ba _ _)).
  - vm_compute. reflexivity.
  - vm_compute. reflexivity.
Defined.

Lemma elements_collide_order :
  [("a", mkDesc "A" []); ("./a", mkDesc "B" [])] ≡ₚ map_to_list elements_collide.
Proof.
  unfold elements_collide.
  rewrite map_to_list_insert by (vm_compute; reflexivity).
  rewrite map_to_list_insert by (vm_compute; reflexivity).
  now rewrite map_to_list_empty.
Qed.

(** Nor does [C3] hold for a catalog two keys of which give the same
    paths: both runs complete, and the file left under the shared path is
    that of the entry visited last.  The keys [a] and [./a] share
    [out/a_elem.go]. *)
Lemma runs_differ_on_collision :
  main env_accept "out" elements_collide
    (main_in_order env_accept "out" [("a", mkDesc "A" []); ("./a", mkDesc "B" [])])
  /\ main env_accept "out" elements_collide
       (main_in_order env_accept "out" [("./a", mkDesc "B" []); ("a", mkDesc "A" [])])
  /\ snd (main_in_order env_accept "out"
            [("a", mkDesc "A" []); ("./a", mkDesc "B" [])]) = Ok tt
  /\ snd (main_in_order env_accept "out"
            [("./a", mkDesc "B" []); ("a", mkDesc "A" [])]) = Ok tt
  /\ written_files (fst (main_in_order env_accept "out"
                           [("a", mkDesc "A" []); ("./a", mkDesc "B" [])]))
       !! "out/a_elem.go"
     = rendered env_accept Implementation (mkTemplElem "BElem" "./a" "BProps" "B" [])
  /\ written_files (fst (main_in_order env_accept "out"
                           [("./a", mkDesc "B" []); ("a", mkDesc "A" [])]))
       !! "out/a_elem.go"
     = rendered env_accept Implementation (mkTemplElem "AElem" "a" "AProps" "A" [])
  /\ rendered env_accept Implementation (mkTemplElem "BElem" "./a" "BProps" "B" [])
     <> rendered env_accept Implementation (mkTemplElem "AElem" "a" "AProps" "A" []).
Proof.
  split; [| split; [| split; [| split; [| split; [| split]]]]].
  - eexists. split; [apply elements_collide_order | reflexivity].
  - eexists. split; [| reflexivity].
    etransitivity; [apply perm_swap | apply elements_collide_order].
  - vm_compute. reflexivity.
  - vm_compute. reflexivity.
  - vm_compute. reflexivity.
  - vm_compute. reflexivity.
  - vm_compute. discriminate.
Qed.

(** ** Output paths *)




(** ** Duplicate field names *)

(** [C9]: duplicate field names are not detected.  For the descriptor
    [desc_duplicate], whose two attributes both resolve to the field name
    [Src], the derivation returns both attributes in the order of the
    catalog, both templates execute without error, the implementation
    text holds the two fields one after the other, and the run completes
    and writes both files. *)
Theorem duplicate_field_names_undetected :
  exists e text,
    main_elem "img" desc_duplicate = Ok e
    /\ te_Attrs e = [mkTemplAttr "Src" "src" "string";
                     mkTemplAttr "Src" "source" "string"]
    /\ template_Execute primary e = Val text
    /\ (exists n, String.index 0 duplicate_fields text = Some n)
    /\ (exists text', template_Execute test e = Val text')
    /\ snd (main_in_order env_accept "." [("img", desc_duplicate)]) = Ok tt
    /\ map fst (artifacts (fst (main_in_order env_accept "."
                                  [("img", desc_duplicate)])))
       = ["img_elem.go"; "img_elem_test.go"].
Proof.
  eexists. eexists.
  split; [vm_compute; reflexivity |].
  split; [reflexivity |].
  split; [vm_compute; reflexivity |].
  split; [eexists; vm_compute; reflexivity |].
  split; [eexists; vm_compute; reflexivity |].
  split; vm_compute; reflexivity.
Qed.

(* ===================================================================== *)
(** * Further properties: the derivation *)
(* ===================================================================== *)

Lemma main_attrs_panic (l : list Attr) (p : panicValue) :
  main_attrs l = Panic p -> p = IndexOutOfRange.
Proof.
  induction l as [| a l IH]; [discriminate |].
  rewrite main_attrs_cons.
  destruct (main_attr a) as [ta | q] eqn:Ha; simpl.
  - destruct (main_attrs l) as [tas | q]; simpl; [discriminate |].
    intros H. injection H as <-. now apply IH.
  - intros H. injection H as <-. unfold main_attr in Ha.
    destruct (Attr_Override a =? "")%string; [| discriminate].
    destruct (Attr_Name a); simpl in Ha; [| discriminate].
    now injection Ha as <-.
Qed.

Lemma main_elem_panic (k : string) (v : Desc) (p : panicValue) :
  main_elem k v = Panic p -> p = IndexOutOfRange.
Proof.
  unfold main_elem.
  destruct (main_upper k v) as [upper | q] eqn:Hu; simpl.
  - destruct (main_attrs (Desc_Attributes v)) as [attrs | q] eqn:Ha; simpl;
      [discriminate |].
    intros H. injection H as <-. eapply main_attrs_panic. exact Ha.
  - intros H. injection H as <-. unfold main_upper in Hu.
    destruct (negb (Desc_Override v =? "")%string); [discriminate |].
    destruct k; simpl in Hu; [| discriminate]. now injection Hu as <-.
Qed.

(** [X1]: the derivation of an entry returns exactly when nothing that
    has to be capitalised is empty: the key, unless the descriptor has an
    override, and the name of every attribute without override.  It never
    fails otherwise than by the run-time panic of an index out of range:
    an override makes up for an empty key or an empty attribute name. *)
Theorem derivation_returns_iff (k : string) (v : Desc) :
  ((exists e, main_elem k v = Ok e) <-> derivable k v)
  /\ (forall p, main_elem k v = Panic p ->
                p = IndexOutOfRange /\ ~ derivable k v).
Proof.
  split; [split |].
  - intros [e He]. eapply main_elem_derivable. exact He.
  - intros Hder. destruct (main_elem_total k v Hder) as (upper & attrs & _ & _ & He).
    eauto.
  - intros p Hp. split; [eapply main_elem_panic; exact Hp |].
    intros Hder. destruct (main_elem_total k v Hder) as (upper & attrs & _ & _ & He).
    rewrite He in Hp. discriminate Hp.
Qed.

(** [X2]: whatever the first byte of a non-empty string, capitalising it
    keeps the rest of the string verbatim and replaces the first byte by
    the UTF-8 encoding of one code point, the upper case of the code point
    numbered like the byte: one byte for an ASCII byte, two bytes for a
    byte of 128 or more, so that the name grows by one byte. *)
Theorem upperFirst_keeps_tail (c : ascii) (rest : string) :
  exists u,
    upperFirst (String c rest) = Ok (u +:+ rest)
    /\ String.length u = (if is_ascii_byte c then 1 else 2)%nat
    /\ utf8_DecodeRune u = Some (latin1_ToUpper (byte_val c), "").
Proof.
  exists (ToUpper_string_byte c). split; [reflexivity |].
  each_byte c; split; reflexivity.
Qed.

(** [X3]: capitalising is idempotent on strings that begin with an ASCII
    character: the capitalised string is its own capitalisation. *)
Theorem upperFirst_idempotent (s s' : string) :
  starts_ascii s = true ->
  upperFirst s = Ok s' ->
  upperFirst s' = Ok s'.
Proof.
  intros Hs. rewrite (upperFirst_ascii s Hs). intros H. injection H as <-.
  destruct s as [| c rest]; [discriminate |]. simpl in Hs.
  assert (Hup : is_ascii_byte (ascii_upper c) = true
                /\ ascii_upper (ascii_upper c) = ascii_upper c).
  { revert Hs. each_byte c; intros Hs; try discriminate Hs; split; reflexivity. }
  destruct Hup as [Hup1 Hup2].
  rewrite upperFirst_ascii by exact Hup1. simpl. now rewrite Hup2.
Qed.

Lemma upperFirst_idempotent_witness :
  starts_ascii "audio" = true
  /\ upperFirst "audio" = Ok "Audio"
  /\ upperFirst "Audio" = Ok "Audio".
Proof.
  split; [reflexivity |]. split; [reflexivity |].
  exact (upperFirst_idempotent "audio" "Audio" eq_refl eq_refl).
Defined.

(* ===================================================================== *)
(** * Further properties: the text of the generated files *)
(* ===================================================================== *)

Lemma string_app_nil_r (s : string) : s +:+ "" = s.
Proof.
  induction s as [| c s IH]; [reflexivity |].
  change (String c (s +:+ "") = String c s). now rewrite IH.
Qed.

Lemma string_app_assoc (s1 s2 s3 : string) :
  (s1 +:+ s2) +:+ s3 = s1 +:+ (s2 +:+ s3).
Proof.
  induction s1 as [| c s1 IH]; [reflexivity |].
  change (String c ((s1 +:+ s2) +:+ s3) = String c (s1 +:+ (s2 +:+ s3))).
  now rewrite IH.
Qed.

Lemma each_attr_lines (body : templAttr -> orError string) (l : list templAttr) :
  (forall a, body a = Val (field_line a)) ->
  each_attr body l = Val (field_lines l).
Proof.
  intros Hbody. induction l as [| a l IH]; simpl; [reflexivity |].
  now rewrite Hbody, IH.
Qed.

(** The output of [primaryTemplate] of the first program. *)
Lemma primary_text_literal (e : templElem) :
  template_Execute primary e
  = Val (primary_head (te_Elem e) (te_Name e) (te_Props e)
         +:+ field_lines (te_Attrs e)
         +:+ primary_tail (te_Elem e) (te_Name e) (te_Props e) (te_Upper e)).
Proof.
  destruct e as [el nm pr up attrs].
  unfold template_Execute, primary, primaryTemplate, tmpl_nodes, tmpl_name.
  cbn [exec_nodes exec_node value_field String.eqb Ascii.eqb Bool.eqb
       te_Elem te_Name te_Props te_Upper te_Attrs print_value ebind].
  match goal with
  | |- context [each_attr ?f attrs] =>
      rewrite (each_attr_lines f attrs)
  end.
  - cbn [ebind]. unfold primary_head, primary_tail.
    rewrite !string_app_assoc, string_app_nil_r. reflexivity.
  - intros a.
    cbn [exec_node value_field String.eqb Ascii.eqb Bool.eqb
         ta_Name ta_JS ta_Type print_value ebind].
    unfold field_line. now rewrite string_app_nil_r.
Qed.

(** The output of [primaryTemplate] of the second program. *)
Lemma primary_text_toml (e : templElem) :
  template_Execute_toml primary_toml e
  = Val (primary_head (te_Elem e) (te_Name e) (te_Props e)
         +:+ field_lines (te_Attrs e)
         +:+ primary_tail (te_Elem e) (te_Name e) (te_Props e) (te_Upper e)).
Proof.
  destruct e as [el nm pr up attrs].
  unfold template_Execute_toml, primary_toml, primaryTemplate_toml,
    tmpl_nodes, tmpl_name.
  cbn [exec_nodes_toml exec_node_toml value_field_toml String.eqb Ascii.eqb
       Bool.eqb te_Elem te_Name te_Props te_Upper te_Attrs print_value ebind].
  match goal with
  | |- context [each_attr ?f attrs] =>
      rewrite (each_attr_lines f attrs)
  end.
  - cbn [ebind]. unfold primary_head, primary_tail.
    rewrite !string_app_assoc, string_app_nil_r. reflexivity.
  - intros a.
    cbn [exec_node_toml value_field_toml String.eqb Ascii.eqb Bool.eqb
         ta_Name ta_JS ta_Type print_value ebind].
    unfold field_line. now rewrite string_app_nil_r.
Qed.

(** The output of [testTemplate], on the structs of either program. *)
Lemma test_text_literal (e : templElem) :
  template_Execute test e
  = Val (test_text (te_Elem e) (te_Name e) (te_Props e) (te_Upper e)).
Proof.
  destruct e as [el nm pr up attrs].
  unfold template_Execute, test, testTemplate, tmpl_nodes, tmpl_name.
  cbn [exec_nodes exec_node value_field String.eqb Ascii.eqb Bool.eqb
       te_Elem te_Name te_Props te_Upper te_Attrs print_value ebind].
  unfold test_text. rewrite string_app_nil_r. reflexivity.
Qed.

Lemma test_text_toml (e : templElem) :
  template_Execute_toml test e
  = Val (test_text (te_Elem e) (te_Name e) (te_Props e) (te_Upper e)).
Proof.
  destruct e as [el nm pr up attrs].
  unfold template_Execute_toml, test, testTemplate, tmpl_nodes, tmpl_name.
  cbn [exec_nodes_toml exec_node_toml value_field_toml String.eqb Ascii.eqb
       Bool.eqb te_Elem te_Name te_Props te_Upper te_Attrs print_value ebind].
  unfold test_text. rewrite string_app_nil_r. reflexivity.
Qed.

(** [X4]: the text of the implementation file is the head of the
    template, one line per resolved attribute in the order of the list,
    each of the form [Name Type `js:"JS"`], and the tail of the template;
    head and tail do not depend on the attributes, and a descriptor
    without attributes gets an empty block of fields.  The template of
    the second program, which ranges over [.Attributes], yields the same
    text. *)
Theorem primary_renders (e : templElem) :
  template_Execute primary e
  = Val (primary_head (te_Elem e) (te_Name e) (te_Props e)
         +:+ field_lines (te_Attrs e)
         +:+ primary_tail (te_Elem e) (te_Name e) (te_Props e) (te_Upper e))
  /\ template_Execute_toml primary_toml e = template_Execute primary e.
Proof.
  split; [apply primary_text_literal |].
  now rewrite primary_text_toml, primary_text_literal.
Qed.

(** [X5]: the text of the test file is [testTemplate] with the four names
    filled in; it does not depend on the attributes of the entry, and it
    is the same in both programs. *)
Theorem test_renders (e : templElem) :
  template_Execute test e
  = Val (test_text (te_Elem e) (te_Name e) (te_Props e) (te_Upper e))
  /\ template_Execute_toml test e = template_Execute test e.
Proof.
  split; [apply test_text_literal |].
  now rewrite test_text_toml, test_text_literal.
Qed.

(* ===================================================================== *)
(** * Further properties: the program that reads the catalog *)
(* ===================================================================== *)

Section TomlFacts.

Variable E : Env.
Variable outputDirectory : string.

Lemma executeTemplate_toml_primary (n : string) (e : templElem) (tr : trace) :
  executeTemplate_toml E outputDirectory n primary_toml e tr
  = executeTemplate E outputDirectory n primary e tr.
Proof.
  unfold executeTemplate_toml, executeTemplate.
  now rewrite primary_text_toml, primary_text_literal.
Qed.

Lemma executeTemplate_toml_test (n : string) (e : templElem) (tr : trace) :
  executeTemplate_toml E outputDirectory n test e tr
  = executeTemplate E outputDirectory n test e tr.
Proof.
  unfold executeTemplate_toml, executeTemplate.
  now rewrite test_text_toml, test_text_literal.
Qed.

Lemma main_body_toml_eq (kv : string * Desc) (tr : trace) :
  main_body_toml E outputDirectory kv tr = main_body E outputDirectory kv tr.
Proof.
  destruct kv as [k v]. unfold main_body_toml, main_body.
  unfold mbind, Proc_bind, pbind.
  destruct (lift (main_elem k v) tr) as [tr1 [e | p]]; [| reflexivity].
  rewrite executeTemplate_toml_primary.
  destruct (executeTemplate E outputDirectory (k +:+ "_elem.go") primary e tr1)
    as [tr2 [[] | p]]; [| reflexivity].
  apply executeTemplate_toml_test.
Qed.

Lemma main_range_toml_eq (order : list (string * Desc)) (tr : trace) :
  main_range_toml E outputDirectory order tr = main_range E outputDirectory order tr.
Proof.
  revert tr. induction order as [| kv order IH]; intros tr; [reflexivity |].
  cbn [main_range_toml main_range]. unfold mbind, Proc_bind, pbind.
  rewrite main_body_toml_eq.
  destruct (main_body E outputDirectory kv tr) as [tr1 [[] | p]]; [| reflexivity].
  apply IH.
Qed.

End TomlFacts.

(** [X6]: the program that reads the catalog from a TOML file runs like
    the program with the literal: on the catalog the file holds, its runs
    are those of the first program on that catalog, with the same calls,
    the same files and the same panics; when the file cannot be decoded
    it panics with the error of the decoder before it creates any file. *)
Theorem main_toml_runs (E : Env) (outputDirectory : string) :
  (forall (elements : gmap string Desc) (r : trace * result unit),
      main_toml E outputDirectory (Val elements) r
      <-> main E outputDirectory elements r)
  /\ (forall (err : error) (r : trace * result unit),
        main_toml E outputDirectory (Err err) r ->
        fst r = [] /\ snd r = Panic (PanicError err)).
Proof.
  split.
  - intros m r. unfold main_toml, main, main_in_order.
    split; intros (order & Hperm & Hrun); exists order; split; try exact Hperm.
    + now rewrite <- main_range_toml_eq.
    + now rewrite main_range_toml_eq.
  - intros err r Hr. simpl in Hr. now subst r.
Qed.

(* ===================================================================== *)
(** * Further properties: the calls of a run *)
(* ===================================================================== *)

Lemma no_failure_app (tr1 tr2 : trace) :
  no_failure (tr1 ++ tr2)%list = no_failure tr1 && no_failure tr2.
Proof. apply forallb_app. Qed.

Lemma protocol_app_bounded (n : nat) :
  forall tr evs : trace,
    (length tr <= n)%nat ->
    protocol tr = true -> no_failure tr = true ->
    protocol (tr ++ evs)%list = protocol evs.
Proof.
  induction n as [| n IH]; intros tr evs Hlen Hp Hn.
  - destruct tr; [reflexivity | simpl in Hlen; lia].
  - destruct tr as [| ev1 [| ev2 tr]]; [reflexivity | |].
    + destruct ev1 as [name [err |] | name data err]; simpl in Hp, Hn; discriminate.
    + destruct ev1 as [name [err |] | name data err]; simpl in Hn;
        try discriminate Hn.
      * destruct ev2 as [name' [err' |] | name' data' [err' |]];
          simpl in Hn; try discriminate Hn.
        -- simpl in Hp. destruct tr; discriminate Hp.
        -- cbn [protocol] in Hp. apply andb_true_iff in Hp as [Heq Hp].
           change ((EvCreate name None :: EvWrite name' data' None :: tr) ++ evs)%list
             with (EvCreate name None :: EvWrite name' data' None :: (tr ++ evs))%list.
           cbn [protocol]. rewrite Heq. cbn [andb].
           apply IH; [simpl in Hlen; lia | exact Hp |].
           exact Hn.
      * simpl in Hp. discriminate Hp.
Qed.

(** After a trace without failure, the protocol starts afresh. *)
Lemma protocol_app (tr evs : trace) :
  protocol tr = true -> no_failure tr = true ->
  protocol (tr ++ evs)%list = protocol evs.
Proof. apply (protocol_app_bounded (length tr)). lia. Qed.

Lemma protocol_removelast_bounded (n : nat) :
  forall tr : trace,
    (length tr <= n)%nat -> protocol tr = true ->
    no_failure (removelast tr) = true.
Proof.
  induction n as [| n IH]; intros tr Hlen Hp.
  - destruct tr; [reflexivity | simpl in Hlen; lia].
  - destruct tr as [| ev1 [| ev2 tr]]; [reflexivity | reflexivity |].
    destruct ev1 as [name [err |] | name data err]; try discriminate Hp.
    destruct ev2 as [name' err' | name' data' [err' |]]; try discriminate Hp.
    + destruct tr; [reflexivity | discriminate Hp].
    + cbn [protocol] in Hp. apply andb_true_iff in Hp as [_ Hp].
      destruct tr as [| ev3 tr]; [reflexivity |].
      change (no_failure (EvCreate name None :: EvWrite name' data' None
                            :: removelast (ev3 :: tr)) = true).
      cbn [no_failure forallb andb]. apply IH; [simpl in Hlen |- *; lia | exact Hp].
Qed.

(** In a trace that follows the protocol only the last call can have
    failed. *)
Lemma protocol_removelast (tr : trace) :
  protocol tr = true -> no_failure (removelast tr) = true.
Proof. apply (protocol_removelast_bounded (length tr)). lia. Qed.

Section TraceFacts.

Variable E : Env.
Variable outputDirectory : string.

Lemma executeTemplate_protocol (n : string) (t : template) (e : templElem)
  (tr : trace) :
  protocol tr = true -> no_failure tr = true ->
  keeps_protocol 2 tr (fst (executeTemplate E outputDirectory n t e tr))
    (snd (executeTemplate E outputDirectory n t e tr)).
Proof.
  intros Hp Hn. rewrite executeTemplate_cases. unfold keeps_protocol.
  destruct (template_Execute t e) as [b | err]; [| simpl; repeat split; [exact Hp | lia]].
  destruct (format_Source E b) as [formatted | err];
    [| simpl; repeat split; [exact Hp | lia]].
  cbv zeta.
  destruct (os_Create E tr _) as [err |].
  - cbn [fst snd]. rewrite protocol_app by assumption. rewrite length_app.
    simpl. repeat split; lia.
  - destruct (file_Write E _ _ _) as [err |]; cbn [fst snd];
      rewrite protocol_app by assumption; rewrite length_app;
      cbn [protocol]; rewrite String.eqb_refl; simpl.
    + repeat split; lia.
    + rewrite no_failure_app, Hn. repeat split; lia.
Qed.

Lemma main_body_protocol (kv : string * Desc) (tr : trace) :
  protocol tr = true -> no_failure tr = true ->
  keeps_protocol 4 tr (fst (main_body E outputDirectory kv tr))
    (snd (main_body E outputDirectory kv tr)).
Proof.
  intros Hp Hn. destruct kv as [k v]. rewrite main_body_cases.
  destruct (main_elem k v) as [e | p];
    [| unfold keeps_protocol; simpl; repeat split; [exact Hp | lia]].
  unfold generate.
  pose proof (executeTemplate_protocol (k +:+ artifactSuffix Implementation)
                (artifactTemplate Implementation) e tr Hp Hn) as H1.
  destruct (executeTemplate E outputDirectory (k +:+ artifactSuffix Implementation)
              (artifactTemplate Implementation) e tr) as [tr1 [[] | p]];
    unfold keeps_protocol in H1; cbn [fst snd] in H1.
  - destruct H1 as (Hp1 & _ & Hn1 & Hl1).
    pose proof (executeTemplate_protocol (k +:+ artifactSuffix TestFile)
                  (artifactTemplate TestFile) e tr1 Hp1 Hn1) as H2.
    unfold keeps_protocol in H2 |- *.
    destruct (executeTemplate E outputDirectory (k +:+ artifactSuffix TestFile)
                (artifactTemplate TestFile) e tr1) as [tr2 [[] | p]];
      cbn [fst snd] in H2 |- *.
    + destruct H2 as (Hp2 & _ & Hn2 & Hl2). repeat split; try assumption; lia.
    + destruct H2 as (Hp2 & Hl2 & _). repeat split; try assumption; lia.
  - destruct H1 as (Hp1 & Hl1 & _). unfold keeps_protocol. cbn [fst snd].
    repeat split; try assumption; lia.
Qed.

Lemma main_range_protocol (order : list (string * Desc)) (tr : trace) :
  protocol tr = true -> no_failure tr = true ->
  keeps_protocol (4 * length order) tr (fst (main_range E outputDirectory order tr))
    (snd (main_range E outputDirectory order tr)).
Proof.
  revert tr. induction order as [| kv order IH]; intros tr Hp Hn.
  - unfold keeps_protocol. simpl. repeat split; try assumption; lia.
  - rewrite main_range_cons.
    pose proof (main_body_protocol kv tr Hp Hn) as H1.
    destruct (main_body E outputDirectory kv tr) as [tr1 [[] | p]];
      unfold keeps_protocol in H1; cbn [fst snd] in H1.
    + destruct H1 as (Hp1 & _ & Hn1 & Hl1).
      specialize (IH tr1 Hp1 Hn1). unfold keeps_protocol in IH |- *.
      destruct IH as (Hp2 & Hl2 & Hr2). split; [exact Hp2 |].
      cbn [length]. split; [lia |].
      destruct (snd (main_range E outputDirectory order tr1)); [| exact I].
      destruct Hr2 as [Hn2 Hl3]. split; [exact Hn2 | lia].
    + destruct H1 as (Hp1 & Hl1 & _). unfold keeps_protocol. cbn [fst snd length].
      repeat split; try assumption; lia.
Qed.

End TraceFacts.

(** [X7]: the calls of every run, complete or not, come in pairs: a file
    is created and then written, under the same path, before the next
    file is created; every call but the last has returned no error, and
    the run makes at most four calls per entry.  A run that returns has
    made exactly four calls per entry, none of which failed. *)
Theorem run_protocol (E : Env) (outputDirectory : string)
  (order : list (string * Desc)) :
  protocol (fst (main_in_order E outputDirectory order)) = true
  /\ no_failure (removelast (fst (main_in_order E outputDirectory order))) = true
  /\ (length (fst (main_in_order E outputDirectory order)) <= 4 * length order)%nat
  /\ (snd (main_in_order E outputDirectory order) = Ok tt ->
      no_failure (fst (main_in_order E outputDirectory order)) = true
      /\ length (fst (main_in_order E outputDirectory order))
         = (4 * length order)%nat).
Proof.
  unfold main_in_order.
  destruct (main_range_protocol E outputDirectory order [] eq_refl eq_refl)
    as (Hp & Hl & Hr).
  split; [exact Hp |]. split; [now apply protocol_removelast |].
  split; [simpl in Hl; lia |].
  intros Hok. rewrite Hok in Hr. simpl in Hr. exact Hr.
Qed.

(* ===================================================================== *)
(** * Further properties: what makes a run panic *)
(* ===================================================================== *)

Lemma artifactTemplate_never_fails (kind : artifactKind) (e : templElem) :
  exists text, template_Execute (artifactTemplate kind) e = Val text.
Proof. destruct kind; [apply primary_never_fails | apply test_never_fails]. Qed.

Lemma generate_panic (E : Env) (outputDirectory k : string) (e : templElem)
  (kind : artifactKind) (tr tr' : trace) (p : panicValue) :
  generate E outputDirectory k e kind tr = (tr', Panic p) ->
  exists err, p = PanicError err /\ env_error E err.
Proof.
  unfold generate. intros H.
  destruct (executeTemplate_panic _ _ _ _ _ _ _ _ H) as (err & -> & Hc).
  exists err. split; [reflexivity |].
  destruct (artifactTemplate_never_fails kind e) as [text Ht].
  destruct Hc as [Hc | [(b & Hb & Hf) | [Hc | (data & Hc)]]].
  - rewrite Ht in Hc. discriminate Hc.
  - left. eauto.
  - right. left. eauto.
  - right. right. eauto.
Qed.

Lemma main_range_panic_causes (E : Env) (outputDirectory : string)
  (order : list (string * Desc)) (tr tr' : trace) (p : panicValue) :
  main_range E outputDirectory order tr = (tr', Panic p) ->
  (p = IndexOutOfRange /\ exists k v, (k, v) ∈ order /\ ~ derivable k v)
  \/ exists err, p = PanicError err /\ env_error E err.
Proof.
  intros H.
  destruct (main_range_panic_inv _ _ _ _ _ _ H) as (pre & [k v] & post & tr1 & -> & _ & Hb).
  destruct (main_body_panic_inv _ _ _ _ _ _ _ Hb) as [(He & -> & _) | (e & kind & He & Hf)].
  - left. split; [reflexivity |]. exists k, v. split.
    + apply elem_of_app. right. apply elem_of_cons. now left.
    + intros Hder. destruct (main_elem_total k v Hder) as (u & a & _ & _ & Hok).
      rewrite Hok in He. discriminate He.
  - right. destruct kind; simpl in Hf.
    + eapply generate_panic. exact Hf.
    + destruct Hf as (tr0 & _ & Hf). eapply generate_panic. exact Hf.
Qed.

(** [X8]: a run panics for one of two reasons only.  Either an entry of
    the catalog cannot be derived, an empty key or attribute name without
    override, and the panic is the run-time error of the index; or the
    panic is an error that the formatter, the creation of a file or a
    write returned.  The templates of the program never fail, whatever
    the entry. *)
Theorem run_panic_causes (E : Env) (outputDirectory : string)
  (elements : gmap string Desc) (r : trace * result unit) (p : panicValue) :
  main E outputDirectory elements r ->
  snd r = Panic p ->
  (p = IndexOutOfRange
   /\ exists k v, elements !! k = Some v /\ ~ derivable k v)
  \/ exists err, p = PanicError err /\ env_error E err.
Proof.
  intros (order & Hperm & Hrun) Hp. unfold main_in_order in Hrun.
  destruct r as [tr r]. simpl in Hp. subst r.
  destruct (main_range_panic_causes _ _ _ _ _ _ Hrun)
    as [(-> & k & v & Hin & Hnd) | Herr]; [left | right; exact Herr].
  split; [reflexivity |]. exists k, v. split; [| exact Hnd].
  apply elem_of_map_to_list. now rewrite <- Hperm.
Qed.

Lemma run_panic_causes_witness :
  main env_reject "." {["x" := desc_plain]}
    ([], Panic (PanicError "1:1: expected 'package'"))
  /\ ((PanicError "1:1: expected 'package'" = IndexOutOfRange
       /\ exists k v, ({["x" := desc_plain]} : gmap string Desc) !! k = Some v
                      /\ ~ derivable k v)
      \/ exists err, PanicError "1:1: expected 'package'" = PanicError err
                     /\ env_error env_reject err).
Proof.
  assert (Hrun : main env_reject "." {["x" := desc_plain]}
                   ([], Panic (PanicError "1:1: expected 'package'"))).
  { exists [("x", desc_plain)]. split; [| vm_compute; reflexivity].
    now rewrite map_to_list_singleton. }
  split; [exact Hrun |].
  exact (run_panic_causes env_reject "." {["x" := desc_plain]} _ _ Hrun eq_refl).
Defined.

Lemma main_range_Ok_derivable (E : Env) (outputDirectory : string)
  (order : list (string * Desc)) (tr tr' : trace) :
  main_range E outputDirectory order tr = (tr', Ok tt) ->
  Forall (fun kv => derivable (fst kv) (snd kv)) order.
Proof.
  revert tr. induction order as [| [k v] order IH]; intros tr H; [constructor |].
  rewrite main_range_cons in H.
  destruct (main_body E outputDirectory (k, v) tr) as [tr1 [[] | p]] eqn:Hb;
    [| discriminate H].
  constructor; [| eapply IH; exact H].
  rewrite main_body_cases in Hb.
  destruct (main_elem k v) as [e | p] eqn:He; [| discriminate Hb].
  eapply main_elem_derivable. exact He.
Qed.

Lemma never_fails_accept : never_fails env_accept.
Proof. repeat split; intros; simpl; eauto. Qed.

(** A run none of whose calls fails ends by returning or with the
    run-time error of the index. *)
Lemma no_call_fails_result (E : Env) (outputDirectory : string)
  (order : list (string * Desc)) :
  (forall err, ~ call_fails E outputDirectory order err) ->
  snd (main_in_order E outputDirectory order) = Ok tt
  \/ (snd (main_in_order E outputDirectory order) = Panic IndexOutOfRange
      /\ exists k v, (k, v) ∈ order /\ ~ derivable k v).
Proof.
  intros Hno.
  destruct (main_in_order E outputDirectory order) as [tr [[] | p]] eqn:Hrun;
    [now left | right]. cbn [snd].
  unfold main_in_order in Hrun.
  destruct (main_range_panic_causes _ _ _ _ _ _ Hrun)
    as [(-> & Hnd) | (err & -> & _)]; [auto |].
  exfalso. apply (Hno err). apply call_fails_run. eauto.
Qed.

(** In an environment in which no call can fail, no call of a run
    fails. *)
Lemma never_fails_no_call_fails (E : Env) (outputDirectory : string)
  (order : list (string * Desc)) (err : error) :
  never_fails E -> ~ call_fails E outputDirectory order err.
Proof.
  intros (Hf & Hc & Hw)
    (pre & k & v & post & e & kind & tr1 & tr0 & _ & _ & _ & _ & Hstep).
  destruct (artifactTemplate_never_fails kind e) as [text Ht].
  destruct Hstep as [H | [(b & _ & H) | [(b & f & _ & _ & H) | (b & f & _ & _ & _ & H)]]].
  - rewrite Ht in H. discriminate H.
  - destruct (Hf b) as [f Hfb]. rewrite Hfb in H. discriminate H.
  - rewrite Hc in H. discriminate H.
  - rewrite Hw in H. discriminate H.
Qed.

(** [X9]: when no call of a run fails, that is, when no call the run
    reaches has a failing step, the run completes exactly when every entry
    it visits can be derived; otherwise it panics with the run-time error
    of the index.  The condition bears on the calls the run makes, not on
    what the formatter or the file system would do elsewhere. *)
Theorem run_completes_iff (E : Env) (outputDirectory : string)
  (order : list (string * Desc)) :
  (forall err, ~ call_fails E outputDirectory order err) ->
  (snd (main_in_order E outputDirectory order) = Ok tt
   <-> Forall (fun kv => derivable (fst kv) (snd kv)) order)
  /\ (snd (main_in_order E outputDirectory order) = Ok tt
      \/ snd (main_in_order E outputDirectory order) = Panic IndexOutOfRange).
Proof.
  intros Hno.
  pose proof (no_call_fails_result E outputDirectory order Hno) as Hres.
  split; [split |].
  - intros Hok.
    destruct (main_in_order E outputDirectory order) as [tr r] eqn:Hrun.
    cbn [snd] in Hok. subst r. unfold main_in_order in Hrun.
    eapply main_range_Ok_derivable. exact Hrun.
  - intros Hall. destruct Hres as [Hok | (_ & k & v & Hin & Hnd)]; [exact Hok |].
    exfalso. apply Hnd. rewrite Forall_forall in Hall. exact (Hall (k, v) Hin).
  - destruct Hres as [Hok | (Hp & _)]; auto.
Qed.

Lemma run_completes_iff_witness :
  (~ never_fails (env_locked "other.go")
   /\ (forall err, ~ call_fails (env_locked "other.go") "." [("a", desc_plain)] err)
   /\ snd (main_in_order (env_locked "other.go") "." [("a", desc_plain)]) = Ok tt)
  /\ ((forall err, ~ call_fails env_reject "." [("", desc_plain)] err)
      /\ snd (main_in_order env_reject "." [("", desc_plain)]) = Panic IndexOutOfRange
      /\ ~ Forall (fun kv => derivable (fst kv) (snd kv)) [("", desc_plain)]).
Proof.
  split.
  - assert (Hno : forall err,
               ~ call_fails (env_locked "other.go") "." [("a", desc_plain)] err).
    { intros err (pre & k & v & post & e & kind & tr1 & tr0 & Ho & Hpre & He & Hr & Hs).
      destruct pre as [| kv pre];
        [| injection Ho as _ Ho; destruct pre; discriminate Ho].
      injection Ho as <- <- _.
      assert (Hcreate : forall tr, os_Create (env_locked "other.go") tr
                          (filepath_Join "." ("a" +:+ artifactSuffix kind)) = None)
        by (intros tr; destruct kind; vm_compute; reflexivity).
      destruct (artifactTemplate_never_fails kind e) as [text Ht].
      destruct Hs as [H | [(b & _ & H) | [(b & f & _ & _ & H) | (b & f & _ & _ & _ & H)]]].
      - rewrite Ht in H. discriminate H.
      - discriminate H.
      - rewrite Hcreate in H. discriminate H.
      - discriminate H. }
    split; [| split; [exact Hno |]].
    + intros (_ & Hc & _). specialize (Hc [] "other.go"). discriminate Hc.
    + apply (proj1 (run_completes_iff (env_locked "other.go") "."
                      [("a", desc_plain)] Hno)).
      constructor; [| constructor]. split; [right; discriminate | constructor].
  - assert (Hno : forall err, ~ call_fails env_reject "." [("", desc_plain)] err).
    { intros err (pre & k & v & post & e & kind & tr1 & tr0 & Ho & _ & He & _).
      destruct pre as [| kv pre].
      - injection Ho as <- <- _. discriminate He.
      - injection Ho as _ Ho. destruct pre; discriminate Ho. }
    split; [exact Hno |]. split; [reflexivity |].
    intros Hall.
    apply (proj1 (run_completes_iff env_reject "." [("", desc_plain)] Hno)) in Hall.
    discriminate Hall.
Defined.

(** [X14]: every run over the catalog of the program none of whose
    calls fails completes and writes 176 files, two for each of the 88
    entries, under pairwise different paths: the files of the catalog. *)
Theorem elements_runs_complete (E : Env) (outputDirectory : string)
  (order : list (string * Desc)) :
  order ≡ₚ map_to_list elements ->
  (forall err, ~ call_fails E outputDirectory order err) ->
  snd (main_in_order E outputDirectory order) = Ok tt
  /\ artifacts (fst (main_in_order E outputDirectory order))
     ≡ₚ catalog_artifacts E outputDirectory elements
  /\ length (artifacts (fst (main_in_order E outputDirectory order))) = 176%nat
  /\ NoDup ((artifacts (fst (main_in_order E outputDirectory order))).*1).
Proof.
  intros Hperm Hno.
  assert (Hder : Forall (fun kv => derivable (fst kv) (snd kv)) order).
  { rewrite Forall_forall. intros [k v] Hin. rewrite Hperm in Hin.
    apply elem_of_map_to_list in Hin.
    destruct (elements_as_specified k v Hin) as (e & _ & He & _).
    eapply main_elem_derivable. exact He. }
  destruct (no_call_fails_result E outputDirectory order Hno)
    as [Hok | (_ & k & v & Hin & Hnd)].
  2: { exfalso. apply Hnd. rewrite Forall_forall in Hder. exact (Hder (k, v) Hin). }
  destruct (main_in_order E outputDirectory order) as [tr r] eqn:Hrun.
  cbn [fst snd] in *. subst r.
  destruct (complete_run_artifacts E outputDirectory elements elements_no_separator
              order tr Hperm Hrun) as (Hart & Hnd & _).
  split; [reflexivity |]. split; [exact Hart |]. split; [| exact Hnd].
  unfold main_in_order in Hrun.
  destruct (main_range_written _ _ _ _ _ _ Hrun) as (ps & Hps & _ & Hall).
  simpl in Hps. rewrite (Hall eq_refl) in Hps.
  rewrite <- (length_fmap fst), Hps.
  assert (Hlen : forall l : list (string * Desc),
             length (flat_map (entry_paths outputDirectory) l) = (2 * length l)%nat).
  { induction l as [| kv l IH]; [reflexivity |].
    cbn [flat_map entry_paths app length]. rewrite IH. lia. }
  rewrite Hlen, (Permutation_length Hperm), (Permutation_length elements_entries).
  reflexivity.
Qed.

Lemma elements_runs_complete_witness :
  elements_list ≡ₚ map_to_list elements
  /\ (forall err, ~ call_fails env_accept "." elements_list err)
  /\ length (artifacts (fst (main_in_order env_accept "." elements_list))) = 176%nat.
Proof.
  assert (Hperm : elements_list ≡ₚ map_to_list elements)
    by (symmetry; exact elements_entries).
  assert (Hno : forall err, ~ call_fails env_accept "." elements_list err).
  { intros err. apply never_fails_no_call_fails. exact never_fails_accept. }
  split; [exact Hperm |]. split; [exact Hno |].
  exact (proj1 (proj2 (proj2 (elements_runs_complete env_accept "." elements_list
                                Hperm Hno)))).
Defined.

(** [X10]: an entry that cannot be derived aborts the run where the
    loop reaches it: the run panics with the run-time error of the index,
    makes no call for the entry, not even for its implementation file,
    and visits no entry after it; the trace is that of the entries
    before. *)
Theorem derivation_panic_aborts (E : Env) (outputDirectory : string)
  (pre post : list (string * Desc)) (k : string) (v : Desc) (tr1 : trace) :
  main_in_order E outputDirectory pre = (tr1, Ok tt) ->
  ~ derivable k v ->
  main_in_order E outputDirectory (pre ++ (k, v) :: post)
  = (tr1, Panic IndexOutOfRange).
Proof.
  unfold main_in_order. intros Hpre Hnd.
  eapply main_range_abort; [exact Hpre |].
  rewrite main_body_cases.
  destruct (main_elem k v) as [e | p] eqn:He.
  - exfalso. apply Hnd. eapply main_elem_derivable. exact He.
  - now rewrite (main_elem_panic k v p He).
Qed.

Lemma derivation_panic_aborts_witness :
  ~ derivable "" desc_plain
  /\ main_in_order env_accept "."
       ([("a", desc_plain)] ++ ("", desc_plain) :: [("b", desc_plain)])
     = (fst (main_in_order env_accept "." [("a", desc_plain)]),
        Panic IndexOutOfRange).
Proof.
  assert (Hnd : ~ derivable "" desc_plain).
  { intros [[H | H] _]; now apply H. }
  split; [exact Hnd |].
  apply (derivation_panic_aborts env_accept "." [("a", desc_plain)]
           [("b", desc_plain)] "" desc_plain); [| exact Hnd].
  vm_compute. reflexivity.
Defined.

(* ===================================================================== *)
(** * Further properties: the files of a run *)
(* ===================================================================== *)



(** [X11]: no run, complete or not, writes a file twice: when no key
    holds a path separator, the paths written are pairwise distinct, at
    most two per entry of the catalog, and exactly two per entry when the
    run returns. *)
Theorem files_written_once (E : Env) (outputDirectory : string)
  (elements : gmap string Desc) (r : trace * result unit) :
  (forall k v, elements !! k = Some v -> no_separator k = true) ->
  main E outputDirectory elements r ->
  NoDup ((artifacts (fst r)).*1)
  /\ (length (artifacts (fst r)) <= 2 * size elements)%nat
  /\ (snd r = Ok tt -> length (artifacts (fst r)) = (2 * size elements)%nat).
Proof.
  intros Hsep (order & Hperm & Hrun). unfold main_in_order in Hrun.
  destruct r as [tr r]. cbn [fst snd].
  destruct (main_range_written _ _ _ _ _ _ Hrun) as (ps & Hps & Hpre & Hall).
  simpl in Hps.
  assert (Hnd : NoDup (flat_map (entry_paths outputDirectory) order)).
  { apply entry_paths_NoDup.
    - rewrite Hperm. apply NoDup_fst_map_to_list.
    - apply Forall_forall. intros [k v] Hin. cbn [fst].
      apply (Hsep k v). apply elem_of_map_to_list. now rewrite <- Hperm. }
  assert (Hlen : length (flat_map (entry_paths outputDirectory) order)
                 = (2 * size elements)%nat).
  { rewrite <- (length_map_to_list elements), <- Hperm.
    clear. induction order as [| kv order IH]; [reflexivity |].
    cbn [flat_map entry_paths app length]. rewrite IH. lia. }
  assert (Hl : length (artifacts tr) = length ps).
  { rewrite <- Hps. now rewrite length_fmap. }
  split; [| split].
  - rewrite Hps. destruct Hpre as [rest Hrest]. rewrite Hrest in Hnd.
    now apply NoDup_app in Hnd as [Hnd _].
  - rewrite Hl, <- Hlen. now apply prefix_length.
  - intros Hr. rewrite Hl, (Hall Hr). exact Hlen.
Qed.

Lemma files_written_once_witness :
  main env_accept "out" elements_ab
    (main_in_order env_accept "out" [("a", desc_plain); ("b", desc_plain)])
  /\ NoDup ((artifacts (fst (main_in_order env_accept "out"
                               [("a", desc_plain); ("b", desc_plain)]))).*1).
Proof.
  split; [exact elements_ab_run |].
  exact (proj1 (files_written_once env_accept "out" elements_ab _
                  elements_ab_no_separator elements_ab_run)).
Defined.

(** [X12]: every file a run has written, complete or not, is a file of
    an entry of the catalog: its path is that of one of the two kinds of
    file of the entry, and its bytes are what the formatter returned for
    the output of the template of that kind on the names derived for the
    entry.  Nothing unformatted is ever written. *)
Theorem written_files_belong (E : Env) (outputDirectory : string)
  (elements : gmap string Desc) (r : trace * result unit) :
  main E outputDirectory elements r ->
  Forall (fun pd =>
            exists k v e kind,
              elements !! k = Some v
              /\ main_elem k v = Ok e
              /\ fst pd = artifact_path outputDirectory k kind
              /\ rendered E kind e = Some (snd pd))
    (artifacts (fst r)).
Proof.
  intros (order & Hperm & Hrun). unfold main_in_order in Hrun.
  destruct r as [tr r]. cbn [fst].
  destruct (main_range_artifacts _ _ _ _ _ _ Hrun) as (written & -> & Hall).
  cbn [artifacts app]. eapply Forall_impl; [exact Hall |].
  intros pd (k & v & e & kind & Hin & He & Hpath & Hbytes).
  exists k, v, e, kind. split; [| auto].
  apply elem_of_map_to_list. now rewrite <- Hperm.
Qed.

Lemma written_files_belong_witness :
  Forall (fun pd =>
            exists k v e kind,
              elements_ab !! k = Some v
              /\ main_elem k v = Ok e
              /\ fst pd = artifact_path "out" k kind
              /\ rendered env_accept kind e = Some (snd pd))
    (artifacts (fst (main_in_order env_accept "out"
                       [("a", desc_plain); ("b", desc_plain)]))).
Proof.
  exact (written_files_belong env_accept "out" elements_ab _ elements_ab_run).
Defined.

Lemma written_bytes_agree_witness :
  exists d1 d2,
    ("out/a_elem.go", d1)
      ∈ artifacts (fst (main_in_order env_accept "out"
                          [("a", desc_plain); ("b", desc_plain)]))
    /\ ("out/a_elem.go", d2)
         ∈ artifacts (fst (main_in_order env_accept "out"
                             [("b", desc_plain); ("a", desc_plain)]))
    /\ d1 = d2.
Proof.
  set (d := default "" (rendered env_accept Implementation (plain_elem "a" "A"))).
  assert (H1 : ("out/a_elem.go", d)
                 ∈ artifacts (fst (main_in_order env_accept "out"
                                     [("a", desc_plain); ("b", desc_plain)]))).
  { apply (bool_decide_unpack _). vm_compute. reflexivity. }
  assert (H2 : ("out/a_elem.go", d)
                 ∈ artifacts (fst (main_in_order env_accept "out"
                                     [("b", desc_plain); ("a", desc_plain)]))).
  { apply (bool_decide_unpack _). vm_compute. reflexivity. }
  exists d, d. split; [exact H1 |]. split; [exact H2 |].
  apply (written_bytes_agree env_accept "out" elements_ab
           (main_in_order env_accept "out" [("a", desc_plain); ("b", desc_plain)])
           (main_in_order env_accept "out" [("b", desc_plain); ("a", desc_plain)])
           "out/a_elem.go" d d elements_ab_no_separator).
  - exact elements_ab_run.
  - exists [("b", desc_plain); ("a", desc_plain)].
    split; [exact elements_ab_order_ba | reflexivity].
  - exact H1.
  - exact H2.
Defined.

(* ===================================================================== *)
(** * Further properties: the catalog of the program *)
(* ===================================================================== *)

Lemma NoDup_fmap_eq {A B : Type} (f : A -> B) (l : list A) (x y : A) :
  NoDup (f <$> l) -> x ∈ l -> y ∈ l -> f x = f y -> x = y.
Proof.
  induction l as [| a l IH]; intros Hnd Hx Hy Heq.
  - now apply elem_of_nil in Hx.
  - cbn [fmap list_fmap] in Hnd. apply NoDup_cons in Hnd as [Ha Hnd].
    apply elem_of_cons in Hx as [-> | Hx]; apply elem_of_cons in Hy as [-> | Hy].
    + reflexivity.
    + exfalso. apply Ha. rewrite Heq. now apply list_elem_of_fmap_2.
    + exfalso. apply Ha. rewrite <- Heq. now apply list_elem_of_fmap_2.
    + now apply IH.
Qed.

Lemma elements_upper_NoDup :
  NoDup ((fun kv => match main_upper (fst kv) (snd kv) with
                    | Ok upper => upper
                    | Panic _ => ""
                    end) <$> elements_list).
Proof. apply (bool_decide_unpack _). vm_compute. reflexivity. Qed.

Lemma elements_fields_checked :
  forallb (fun kv =>
             match main_elem (fst kv) (snd kv) with
             | Ok e =>
                 bool_decide (NoDup (map ta_Name (te_Attrs e)))
                 && bool_decide (NoDup (map ta_JS (te_Attrs e)))
                 && forallb (fun ta =>
                               (ta_Type ta =? "string")%string
                               || (ta_Type ta =? "bool")%string
                               || (ta_Type ta =? "float64")%string)
                      (te_Attrs e)
             | Panic _ => false
             end) elements_list = true.
Proof. vm_compute. reflexivity. Qed.

(** [X15]: the catalog of the program yields no clash of names.  For
    every entry the derivation returns; the field names of its properties
    struct are pairwise distinct, and so are the external names; every
    field type is [string], [bool] or [float64]; and no two entries have
    the same canonical identifier, so that no two generated files declare
    the same types. *)
Theorem elements_names_distinct (k : string) (v : Desc) :
  elements !! k = Some v ->
  exists e,
    main_elem k v = Ok e
    /\ NoDup (map ta_Name (te_Attrs e))
    /\ NoDup (map ta_JS (te_Attrs e))
    /\ Forall (fun ta => ta_Type ta = "string" \/ ta_Type ta = "bool"
                         \/ ta_Type ta = "float64") (te_Attrs e)
    /\ forall k' v' e',
         elements !! k' = Some v' -> main_elem k' v' = Ok e' ->
         te_Upper e' = te_Upper e -> k' = k.
Proof.
  intros Hin. apply elements_lookup in Hin.
  pose proof elements_fields_checked as Hall.
  rewrite forallb_forall in Hall.
  pose proof (Hall (k, v) (proj1 (list_elem_of_In _ _) Hin)) as Hkv. cbn [fst snd] in Hkv.
  destruct (main_elem k v) as [e | p] eqn:He; [| discriminate Hkv].
  apply andb_prop in Hkv as [Hkv Hty]. apply andb_prop in Hkv as [Hn Hjs].
  exists e. split; [reflexivity |].
  split; [exact (bool_decide_eq_true_1 _ Hn) |].
  split; [exact (bool_decide_eq_true_1 _ Hjs) |].
  split.
  - apply Forall_forall. intros ta Hta.
    rewrite forallb_forall in Hty.
    specialize (Hty ta (proj1 (list_elem_of_In _ _) Hta)).
    apply orb_prop in Hty as [Hty | Hty]; [apply orb_prop in Hty as [Hty | Hty] |];
      apply String.eqb_eq in Hty; auto.
  - intros k' v' e' Hin' He' Hup. apply elements_lookup in Hin'.
    assert (Heq : (k', v') = (k, v)).
    { apply (NoDup_fmap_eq (fun kv => match main_upper (fst kv) (snd kv) with
                                      | Ok upper => upper
                                      | Panic _ => ""
                                      end) elements_list);
        [exact elements_upper_NoDup | assumption | assumption |].
      cbn [fst snd].
      apply main_elem_Ok_inv in He as [-> _].
      apply main_elem_Ok_inv in He' as [-> _]. now rewrite Hup. }
    now injection Heq.
Qed.

Lemma elements_names_distinct_witness :
  elements !! "details" = Some desc_details
  /\ exists e,
       main_elem "details" desc_details = Ok e
       /\ NoDup (map ta_Name (te_Attrs e)).
Proof.
  assert (H : elements !! "details" = Some desc_details).
  { vm_compute. reflexivity. }
  split; [exact H |].
  destruct (elements_names_distinct "details" _ H) as (e & He & Hn & _).
  exists e. split; assumption.
Defined.

(* ===================================================================== *)
(** * Further properties: the paths of the files *)
(* ===================================================================== *)

Section JoinFacts.

Local Open Scope list_scope.
Local Open Scope nat_scope.

Ltac split_andb :=
  repeat match goal with
         | H : _ && _ = true |- _ => apply andb_prop in H as [? ?]
         | H : negb _ = true |- _ => apply negb_true_iff in H
         end.

Lemma copy_elem_stop (d n buf : list ascii) :
  forallb (fun c => negb (IsPathSeparator c)) d = true ->
  copy_elem (d ++ Separator :: n) buf = (Separator :: n, rev d ++ buf).
Proof.
  revert buf. induction d as [| c d IH]; intros buf H; simpl in *.
  - reflexivity.
  - apply andb_prop in H as [Hc Hd].
    apply negb_true_iff in Hc. rewrite Hc, IH by assumption.
    now rewrite <- app_assoc.
Qed.

Lemma is_elem_rev_nonempty (n : list ascii) : is_elem n -> rev n <> [].
Proof.
  intros (_ & Hne & _) H. apply Hne.
  apply (f_equal (@rev ascii)) in H. now rewrite rev_involutive in H.
Qed.

Lemma clean_loop_separator (fuel : nat) (rooted : bool) (rest buf : list ascii)
  (dotdot : nat) :
  clean_loop (S fuel) rooted (Separator :: rest) buf dotdot
  = clean_loop fuel rooted rest buf dotdot.
Proof. reflexivity. Qed.

Lemma clean_loop_dot (fuel : nat) (rooted : bool) (rest buf : list ascii)
  (dotdot : nat) :
  clean_loop (S fuel) rooted ("."%char :: Separator :: rest) buf dotdot
  = clean_loop fuel rooted (Separator :: rest) buf dotdot.
Proof. reflexivity. Qed.

Lemma is_elem_length (n : list ascii) : is_elem n -> exists m, length n = S m.
Proof. intros (_ & Hne & _). destruct n; [congruence | eauto]. Qed.

(** [Clean] leaves [d/n] as it is when [d] and [n] are elements. *)
Lemma clean_bytes_two_elems (d n : list ascii) :
  is_elem d -> is_elem n ->
  clean_bytes (d ++ Separator :: n) = d ++ Separator :: n.
Proof.
  intros Hd Hn. pose proof Hd as (Hfree & Hne & Hdot & Hdotdot).
  destruct d as [| c rest]; [congruence |].
  pose proof Hfree as Hfree'. simpl in Hfree'.
  apply andb_prop in Hfree' as [Hc Hrest]. apply negb_true_iff in Hc.
  unfold clean_bytes. cbn [app]. rewrite Hc.
  change (length (c :: rest ++ Separator :: n))
    with (S (length (rest ++ Separator :: n))).
  cbn [clean_loop]. rewrite Hc.
  assert (H2 : is_dot c && end_or_sep (rest ++ Separator :: n) = false).
  { destruct (is_dot c) eqn:Hdc; [| reflexivity]. apply is_dot_eq in Hdc. subst c.
    destruct rest as [| c1 rest1]; [congruence |]. simpl in *.
    split_andb. assumption. }
  assert (H3 : is_dot c && is_dot (hd Separator (rest ++ Separator :: n))
               && end_or_sep (tl (rest ++ Separator :: n)) = false).
  { destruct (is_dot c) eqn:Hdc; [| reflexivity]. apply is_dot_eq in Hdc. subst c.
    destruct rest as [| c1 rest1]; [reflexivity |]. simpl in *.
    destruct (is_dot c1) eqn:Hd1; [| reflexivity]. apply is_dot_eq in Hd1. subst c1.
    destruct rest1 as [| c2 rest2]; [congruence |]. simpl in *.
    split_andb. assumption. }
  rewrite H2, H3. cbn [length Nat.eqb negb andb orb].
  change (c :: rest ++ Separator :: n) with ((c :: rest) ++ Separator :: n).
  rewrite (copy_elem_stop (c :: rest) n [] Hfree). rewrite app_nil_r.
  destruct (is_elem_length n Hn) as [m Hm].
  rewrite length_app. cbn [length]. rewrite Hm.
  replace (length rest + S (S m)) with (S (S (length rest + m))) by lia.
  rewrite clean_loop_separator, clean_loop_elem by assumption.
  unfold slashed. cbn [negb andb orb].
  assert (Hlen : (length (rev (c :: rest)) =? 0) = false).
  { rewrite length_rev. reflexivity. }
  rewrite Hlen. cbn [negb].
  destruct (rev n ++ Separator :: rev (c :: rest)) eqn:Hr.
  - apply app_eq_nil in Hr as [_ Hr]. discriminate Hr.
  - rewrite <- Hr, rev_app_distr. cbn [rev]. rewrite !rev_app_distr; simpl.
    rewrite !rev_involutive, <- !app_assoc. reflexivity.
Qed.

(** [Clean] drops a leading [./]. *)
Lemma clean_bytes_dot_elem (n : list ascii) :
  is_elem n -> clean_bytes ("."%char :: Separator :: n) = n.
Proof.
  intros Hn. destruct (is_elem_length n Hn) as [m Hm].
  unfold clean_bytes. change (IsPathSeparator ".") with false. cbv iota.
  cbn [length]. rewrite Hm.
  rewrite clean_loop_dot, clean_loop_separator, clean_loop_elem by assumption.
  unfold slashed. cbn [length Nat.eqb negb andb orb]. rewrite app_nil_r.
  destruct (rev n) eqn:Hr.
  - now apply is_elem_rev_nonempty in Hn.
  - rewrite <- Hr. apply rev_involutive.
Qed.

End JoinFacts.

Lemma string_of_list_ascii_app (l1 l2 : list ascii) :
  string_of_list_ascii (l1 ++ l2)%list
  = string_of_list_ascii l1 +:+ string_of_list_ascii l2.
Proof.
  induction l1 as [| c l1 IH]; [reflexivity |].
  change (String c (string_of_list_ascii (l1 ++ l2)%list)
          = String c (string_of_list_ascii l1 +:+ string_of_list_ascii l2)).
  now rewrite IH.
Qed.

Lemma filepath_Join_two_elems (dir name : string) :
  is_elem (list_ascii_of_string dir) -> is_elem (list_ascii_of_string name) ->
  filepath_Join dir name = dir +:+ "/" +:+ name.
Proof.
  intros Hd Hn. unfold filepath_Join.
  destruct (String.eqb_spec dir "") as [-> | _].
  { destruct Hd as (_ & Hne & _). now contradiction Hne. }
  unfold filepath_Clean.
  rewrite list_ascii_of_string_app.
  change (list_ascii_of_string ("/" +:+ name))
    with (Separator :: list_ascii_of_string name).
  rewrite clean_bytes_two_elems by assumption.
  rewrite string_of_list_ascii_app.
  change (string_of_list_ascii (Separator :: list_ascii_of_string name))
    with (String Separator (string_of_list_ascii (list_ascii_of_string name))).
  now rewrite !string_of_list_ascii_of_string.
Qed.

Lemma filepath_Join_here (dir name : string) :
  dir = "" \/ dir = "." ->
  is_elem (list_ascii_of_string name) ->
  filepath_Join dir name = name.
Proof.
  intros [-> | ->] Hn; unfold filepath_Join, filepath_Clean.
  - destruct (String.eqb_spec name "") as [-> | _].
    { destruct Hn as (_ & Hne & _). now contradiction Hne. }
    cbn [String.eqb]. rewrite clean_bytes_elem by assumption.
    apply string_of_list_ascii_of_string.
  - change ("." =? "")%string with false. cbv iota.
    change (list_ascii_of_string ("." +:+ "/" +:+ name))
      with ("."%char :: Separator :: list_ascii_of_string name).
    rewrite clean_bytes_dot_elem by assumption.
    apply string_of_list_ascii_of_string.
Qed.

(** [X16]: where the files go.  For a key without path separator, the
    file of either kind is named by the key and the suffix of the kind.
    With the default of the flag [-o], the directory [.], or with an
    empty directory, the path is this name alone, without [./]; with a
    directory that is a single path element it is the directory, a
    separator and the name. *)
Theorem artifact_path_plain (dir k : string) (kind : artifactKind) :
  no_separator k = true ->
  (dir = "" \/ dir = "." -> artifact_path dir k kind = k +:+ artifactSuffix kind)
  /\ (is_elem (list_ascii_of_string dir) ->
      artifact_path dir k kind = dir +:+ "/" +:+ k +:+ artifactSuffix kind).
Proof.
  intros Hk. pose proof (artifact_name_elem k kind Hk) as Hn.
  unfold artifact_path. split; intros Hd.
  - now apply filepath_Join_here.
  - now apply filepath_Join_two_elems.
Qed.

Lemma artifact_path_plain_witness :
  no_separator "audio" = true
  /\ artifact_path "." "audio" TestFile = "audio_elem_test.go"
  /\ artifact_path "gen" "audio" Implementation = "gen/audio_elem.go".
Proof.
  split; [reflexivity |]. split.
  - exact (proj1 (artifact_path_plain "." "audio" TestFile eq_refl)
             (or_intror eq_refl)).
  - apply (proj2 (artifact_path_plain "gen" "audio" Implementation eq_refl)).
    unfold is_elem. simpl.
    split; [reflexivity |]. split; [discriminate |]. split; discriminate.
Defined.

(* ===================================================================== *)
(** * Further properties: [usage] *)
(* ===================================================================== *)

Section BaseFacts.

Local Open Scope list_scope.

Lemma last_element_free (l : list ascii) :
  forallb (fun c => negb (IsPathSeparator c)) (last_element l) = true.
Proof.
  induction l as [| c l IH]; [reflexivity |]. simpl.
  destruct (IsPathSeparator c) eqn:Hc; [reflexivity |]. simpl.
  now rewrite Hc, IH.
Qed.

Lemma last_element_app (x y : list ascii) :
  forallb (fun c => negb (IsPathSeparator c)) x = true ->
  last_element (x ++ Separator :: y) = x /\ last_element x = x.
Proof.
  induction x as [| c x IH]; intros H; [split; reflexivity |].
  simpl in H. apply andb_prop in H as [Hc Hx]. apply negb_true_iff in Hc.
  simpl. rewrite Hc. destruct (IH Hx) as [-> ->]. split; reflexivity.
Qed.

Lemma strip_slashes_free (x : list ascii) :
  forallb (fun c => negb (IsPathSeparator c)) x = true -> strip_slashes x = x.
Proof.
  destruct x as [| c x]; [reflexivity |]. simpl. intros H.
  apply andb_prop in H as [Hc _]. apply negb_true_iff in Hc. now rewrite Hc.
Qed.

Lemma strip_slashes_head (x y : list ascii) :
  forallb (fun c => negb (IsPathSeparator c)) x = true -> x <> [] ->
  strip_slashes (x ++ y) = x ++ y.
Proof.
  destruct x as [| c x]; [congruence |]. simpl. intros H _.
  apply andb_prop in H as [Hc _]. apply negb_true_iff in Hc. now rewrite Hc.
Qed.

End BaseFacts.

Lemma list_ascii_of_string_nonempty (s : string) :
  s <> "" -> list_ascii_of_string s <> [].
Proof. destruct s; [congruence | discriminate]. Qed.

(** [path.Base] of a plain name, alone or after a directory, is the
    name. *)
Lemma path_Base_name (name : string) :
  no_separator name = true -> name <> "" ->
  path_Base name = name
  /\ forall dir, path_Base (dir +:+ "/" +:+ name) = name.
Proof.
  intros Hfree Hne. unfold no_separator in Hfree.
  set (n := list_ascii_of_string name) in *.
  assert (Hn : n <> []) by now apply list_ascii_of_string_nonempty.
  assert (Hrev : forallb (fun c => negb (IsPathSeparator c)) (rev n) = true)
    by now rewrite forallb_rev.
  assert (Hrne : rev n <> []).
  { intros H. apply Hn. apply (f_equal (@rev ascii)) in H.
    now rewrite rev_involutive in H. }
  assert (Hback : string_of_list_ascii (rev (rev n)) = name).
  { rewrite rev_involutive. apply string_of_list_ascii_of_string. }
  split.
  - unfold path_Base. destruct name as [| c name']; [congruence |].
    fold n. rewrite strip_slashes_free by exact Hrev.
    rewrite (proj2 (last_element_app (rev n) [] Hrev)).
    destruct (rev n) eqn:Hr; [congruence | exact Hback].
  - intros dir. unfold path_Base.
    destruct (dir +:+ "/" +:+ name) as [| c0 s0] eqn:Hp.
    { destruct dir; discriminate Hp. }
    rewrite <- Hp. rewrite !list_ascii_of_string_app.
    change (list_ascii_of_string "/") with [Separator]. fold n.
    rewrite !rev_app_distr. cbn [rev app]. rewrite <- app_assoc. cbn [app].
    rewrite strip_slashes_head by assumption.
    rewrite (proj1 (last_element_app (rev n) (rev (list_ascii_of_string dir)) Hrev)).
    destruct (rev n) eqn:Hr; [congruence | exact Hback].
Qed.

(** [X17]: [usage] names the program by the last element of the path it
    was started with: for a name without separator, started alone or
    through any directory, the first line of the usage text is [Usage: ]
    and the name, and the directory does not show; the defaults of the
    flags follow. *)
Theorem usage_names_program (defaults dir name : string) :
  no_separator name = true -> name <> "" ->
  usage defaults name = "Usage: " +:+ name +:+ nl +:+ defaults
  /\ usage defaults (dir +:+ "/" +:+ name)
     = "Usage: " +:+ name +:+ nl +:+ defaults.
Proof.
  intros Hfree Hne. destruct (path_Base_name name Hfree Hne) as [H1 H2].
  unfold usage. now rewrite H1, H2.
Qed.

Lemma usage_names_program_witness :
  usage "  -o string" "/usr/local/bin/elemental"
  = "Usage: elemental" +:+ nl +:+ "  -o string".
Proof.
  exact (proj2 (usage_names_program "  -o string" "/usr/local/bin" "elemental"
                  eq_refl ltac:(discriminate))).
Defined.

(** [X18]: whatever the program was started as, the name [usage] prints
    is never empty, and it holds no separator unless it is the root [/]
    itself; for an empty [os.Args[0]] it is [.]. *)
Theorem usage_name_shape (defaults arg0 : string) :
  exists name,
    usage defaults arg0 = "Usage: " +:+ name +:+ nl +:+ defaults
    /\ name <> ""
    /\ (name = "/" \/ no_separator name = true)
    /\ (arg0 = "" -> name = ".").
Proof.
  exists (path_Base arg0). split; [reflexivity |].
  unfold path_Base. destruct arg0 as [| c s]; [repeat split; auto; discriminate |].
  set (l := last_element _).
  assert (Hfree : forallb (fun c => negb (IsPathSeparator c)) l = true)
    by apply last_element_free.
  destruct l as [| c' l'] eqn:Hl; [repeat split; auto; discriminate |].
  rewrite <- Hl in *. split; [| split; [right | discriminate]].
  - intros H. apply (f_equal list_ascii_of_string) in H.
    rewrite list_ascii_of_string_of_list_ascii in H. simpl in H.
    apply (f_equal (@rev ascii)) in H. rewrite rev_involutive in H.
    rewrite Hl in H. discriminate H.
  - unfold no_separator. rewrite list_ascii_of_string_of_list_ascii.
    now rewrite forallb_rev.
Qed.

(* ===================================================================== *)
(** * Further properties: the flags *)
(* ===================================================================== *)

(** An argument that has not the form of a flag ends the parse. *)
Lemma flag_Parse_nonflag (u : string) (values : gmap string string)
  (s : string) (rest : list string) :
  (forall c1 s2, s <> String "-" (String c1 s2)) ->
  flag_Parse u values (s :: rest) = Parsed values (s :: rest).
Proof.
  intros H. destruct s as [| c0 [| c1 s2]]; [reflexivity | |].
  - each_byte c0; reflexivity.
  - each_byte c0; try reflexivity. exfalso. now apply (H c1 s2).
Qed.

Lemma flag_Parse_flag (u : string) (values : gmap string string)
  (c1 : ascii) (s2 : string) (rest : list string) :
  flag_step u values rest
    (flag_Parse u values (String "-" (String c1 s2) :: rest)).
Proof.
  assert (Hbad : forall s, exists msg,
             "bad flag syntax: " +:+ s +:+ nl +:+ u = msg +:+ u).
  { intros s. exists ("bad flag syntax: " +:+ s +:+ nl).
    now rewrite !string_app_assoc. }
  cbn [flag_Parse].
  destruct (Ascii.eqb c1 "-" && (s2 =? "")%string); [apply StepStop |].
  set (name := if Ascii.eqb c1 "-" then s2 else String c1 s2).
  destruct name as [| c name0] eqn:Hname.
  { destruct (Hbad (String "-" (String c1 s2))) as [msg ->]. apply StepExit. }
  destruct (Ascii.eqb c "-" || Ascii.eqb c "=").
  { destruct (Hbad (String "-" (String c1 s2))) as [msg ->]. apply StepExit. }
  destruct (split_flag (String c name0)) as [name' value].
  destruct (values !! name') as [old |] eqn:Hlook.
  - destruct value as [v |].
    + apply StepSet; [now rewrite Hlook | reflexivity].
    + destruct rest as [| v rest'].
      * replace ("flag needs an argument: -" +:+ name' +:+ nl +:+ u)
          with (("flag needs an argument: -" +:+ name' +:+ nl) +:+ u)
          by now rewrite !string_app_assoc.
        apply StepExit.
      * apply StepSet; [now rewrite Hlook | now apply suffix_cons_r].
  - destruct ((name' =? "help")%string || (name' =? "h")%string).
    + apply (StepExit u values rest "").
    + replace ("flag provided but not defined: -" +:+ name' +:+ nl +:+ u)
        with (("flag provided but not defined: -" +:+ name' +:+ nl) +:+ u)
        by now rewrite !string_app_assoc.
      apply StepExit.
Qed.

Lemma is_flag_dec (s : string) :
  (exists c1 s2, s = String "-" (String c1 s2))
  \/ (forall c1 s2, s <> String "-" (String c1 s2)).
Proof.
  destruct s as [| c0 [| c1 s2]]; [right; discriminate | right; discriminate |].
  destruct (Ascii.eqb_spec c0 "-") as [-> | Hne]; [left; eauto |].
  right. intros c1' s2' H. injection H as H _ _. contradiction.
Qed.

Lemma flag_Parse_bounded (u : string) (n : nat) :
  forall (values : gmap string string) (args : list string),
    (length args <= n)%nat ->
    match flag_Parse u values args with
    | ParseExit text => exists msg, text = msg +:+ u
    | Parsed values' rest =>
        dom values' = dom values /\ rest `suffix_of` args
    end.
Proof.
  induction n as [| n IH]; intros values args Hlen.
  - destruct args; [| simpl in Hlen; lia]. simpl. split; reflexivity.
  - destruct args as [| s rest]; [simpl; split; reflexivity |].
    destruct (is_flag_dec s) as [(c1 & s2 & ->) | Hnon].
    + destruct (flag_Parse_flag u values c1 s2 rest) as [msg | | name v rest' Hsome Hsuf].
      * eauto.
      * split; [reflexivity | now apply suffix_cons_r].
      * assert (Hl : (length rest' <= n)%nat).
        { apply suffix_length in Hsuf. simpl in Hlen. lia. }
        specialize (IH (<[name := v]> values) rest' Hl).
        destruct (flag_Parse u (<[name := v]> values) rest') as [values' rest'' | text];
          [| exact IH].
        destruct IH as [Hdom Hsuf']. split.
        -- rewrite Hdom. now apply dom_insert_lookup_L.
        -- apply suffix_cons_r. now transitivity rest'.
    + rewrite flag_Parse_nonflag by exact Hnon. split; reflexivity.
Qed.

(** [X19]: the two outcomes of [flag.Parse].  When it makes the program
    exit, what it has written to the standard error ends with the text of
    [usage], which [main] installs before it parses, after the message if
    there is one.  When it returns, the flags are those declared, neither
    more nor fewer, and the arguments left are the end of the command
    line. *)
Theorem flag_Parse_outcomes (u : string) (values : gmap string string)
  (args : list string) :
  match flag_Parse u values args with
  | ParseExit text => exists msg, text = msg +:+ u
  | Parsed values' rest => dom values' = dom values /\ rest `suffix_of` args
  end.
Proof. apply (flag_Parse_bounded u (length args)). lia. Qed.

(** [X20]: the flag [-o] may be given several times; the last value is
    the output directory.  The value is the argument after the flag
    whatever it is, even one that looks like a flag, and it is not
    checked. *)
Theorem flag_Parse_last_wins (u : string) (values : gmap string string)
  (dirs : list string) :
  is_Some (values !! "o") ->
  flag_Parse u values (flat_map (fun d => ["-o"; d]) dirs)
  = Parsed (match last dirs with
            | Some d => <["o" := d]> values
            | None => values
            end) [].
Proof.
  revert values. induction dirs as [| d dirs IH]; intros values [old Hold];
    [reflexivity |].
  cbn [flat_map app]. cbn [flag_Parse Ascii.eqb Bool.eqb andb orb split_flag cut_equals].
  rewrite Hold. rewrite IH by (rewrite lookup_insert_eq; eauto).
  destruct dirs as [| d' dirs']; [reflexivity |].
  rewrite last_cons_cons.
  destruct (last (d' :: dirs')) as [d'' |] eqn:Hlast.
  - now rewrite insert_insert_eq.
  - now apply last_None in Hlast.
Qed.

Lemma flag_Parse_last_wins_witness :
  flag_Parse "U" flags_literal ["-o"; "a"; "-o"; "-b"]
  = Parsed (<["o" := "-b"]> flags_literal) [].
Proof.
  apply (flag_Parse_last_wins "U" flags_literal ["a"; "-b"]).
  exists ".". reflexivity.
Defined.

(* ===================================================================== *)
(** * Further properties: the output directory *)
(* ===================================================================== *)

Lemma last_element_closed (x b : list ascii) :
  forallb (fun c => negb (IsPathSeparator c)) x = true ->
  closed b ->
  last_element (x ++ b)%list = x.
Proof.
  intros Hx [-> | [b' ->]].
  - rewrite app_nil_r. exact (proj2 (last_element_app x [] Hx)).
  - exact (proj1 (last_element_app x b' Hx)).
Qed.

(** [X21]: whatever the output directory, absolute or relative, with
    dots, empty elements or a trailing separator, the last element of the
    path of a generated file is the key and the suffix of its kind, for a
    key without path separator: the directory never changes the name of a
    file. *)
Theorem artifact_file_name (dir k : string) (kind : artifactKind) :
  no_separator k = true ->
  path_Base (artifact_path dir k kind) = k +:+ artifactSuffix kind.
Proof.
  intros Hk. pose proof (artifact_name_elem k kind Hk) as Hn.
  unfold artifact_path.
  destruct (filepath_Join_elem dir (k +:+ artifactSuffix kind) Hn) as (b & Hb & Hpath).
  set (n := list_ascii_of_string (k +:+ artifactSuffix kind)) in *.
  destruct Hn as (Hfree & Hne & _).
  assert (Hrev : forallb (fun c => negb (IsPathSeparator c)) (rev n) = true)
    by now rewrite forallb_rev.
  assert (Hrne : rev n <> []).
  { intros H. apply Hne. apply (f_equal (@rev ascii)) in H.
    now rewrite rev_involutive in H. }
  unfold path_Base.
  destruct (filepath_Join dir (k +:+ artifactSuffix kind)) as [| c0 s0] eqn:Hj.
  { simpl in Hpath. symmetry in Hpath. apply app_eq_nil in Hpath as [_ Hpath].
    contradiction. }
  rewrite Hpath, rev_app_distr, rev_involutive.
  rewrite strip_slashes_head by assumption.
  rewrite last_element_closed by assumption.
  destruct (rev n) eqn:Hr; [congruence |]. rewrite <- Hr, rev_involutive.
  apply string_of_list_ascii_of_string.
Qed.

Lemma artifact_file_name_witness :
  no_separator "audio" = true
  /\ artifact_path "/tmp/../gen/" "audio" Implementation = "/gen/audio_elem.go"
  /\ path_Base (artifact_path "/tmp/../gen/" "audio" Implementation)
     = "audio_elem.go".
Proof.
  split; [reflexivity |]. split; [vm_compute; reflexivity |].
  exact (artifact_file_name "/tmp/../gen/" "audio" Implementation eq_refl).
Defined.

Section SlashFacts.

Local Open Scope list_scope.
Local Open Scope nat_scope.

Lemma end_or_sep_before (pre x y : list ascii) :
  end_or_sep (pre ++ Separator :: x) = end_or_sep (pre ++ Separator :: y).
Proof. destruct pre; reflexivity. Qed.

Lemma copy_elem_uniform (pre buf : list ascii) :
  exists pre2 buf2,
    length pre2 <= length pre
    /\ forall x, copy_elem (pre ++ Separator :: x) buf = (pre2 ++ Separator :: x, buf2).
Proof.
  revert buf. induction pre as [| c pre IH]; intros buf.
  - exists [], buf. split; [reflexivity | reflexivity].
  - destruct (IsPathSeparator c) eqn:Hc.
    + exists (c :: pre), buf. split; [reflexivity |]. intros x. simpl. now rewrite Hc.
    + destruct (IH (c :: buf)) as (pre2 & buf2 & Hlen & Hcopy).
      exists pre2, buf2. split; [simpl; lia |]. intros x. simpl. now rewrite Hc.
Qed.

(** An empty element in the middle of a path does not change what the
    loop writes. *)
Lemma clean_loop_empty_elem (rooted : bool) (rest : list ascii) (fuel : nat) :
  forall (pre buf : list ascii) (dotdot : nat),
    length (pre ++ Separator :: Separator :: rest) <= fuel ->
    clean_loop fuel rooted (pre ++ Separator :: Separator :: rest) buf dotdot
    = clean_loop fuel rooted (pre ++ Separator :: rest) buf dotdot.
Proof.
  induction fuel as [| fuel IH]; intros pre buf dotdot Hlen.
  - rewrite length_app in Hlen. simpl in Hlen. lia.
  - destruct pre as [| c pre].
    + cbn [app]. rewrite clean_loop_separator.
      symmetry. apply clean_loop_fuel. simpl in Hlen |- *. lia.
    + rewrite length_app in Hlen. cbn [length] in Hlen.
      assert (Hpre : length (pre ++ Separator :: Separator :: rest) <= fuel)
        by (rewrite length_app; simpl; lia).
      cbn [app clean_loop].
      destruct (IsPathSeparator c) eqn:Hc; [now apply IH |].
      rewrite (end_or_sep_before pre (Separator :: rest) rest).
      destruct (is_dot c && end_or_sep (pre ++ Separator :: rest)); [now apply IH |].
      destruct pre as [| c1 pre1].
      * cbn [app hd tl]. change (is_dot Separator) with false.
        rewrite andb_false_r. cbn [andb].
        change (copy_elem (c :: Separator :: Separator :: rest) ?b)
          with (if IsPathSeparator c then (c :: Separator :: Separator :: rest, b)
                else copy_elem (Separator :: Separator :: rest) (c :: b)).
        cbn [copy_elem]. rewrite Hc.
        change (IsPathSeparator Separator) with true. cbv iota.
        apply (IH []). simpl. simpl in Hlen. lia.
      * cbn [app hd tl].
        rewrite (end_or_sep_before pre1 (Separator :: rest) rest).
        assert (Hpre1 : length (pre1 ++ Separator :: Separator :: rest) <= fuel)
          by (rewrite length_app in Hpre |- *; simpl in Hpre |- *; lia).
        destruct (is_dot c && is_dot c1 && end_or_sep (pre1 ++ Separator :: rest)).
        { destruct (dotdot <? length buf); [now apply IH |].
          destruct (negb rooted); now apply IH. }
        match goal with
        | |- context [copy_elem _ ?b1] => set (buf1 := b1)
        end.
        change (copy_elem (c :: c1 :: pre1 ++ Separator :: Separator :: rest) buf1)
          with (if IsPathSeparator c
                then (c :: c1 :: pre1 ++ Separator :: Separator :: rest, buf1)
                else copy_elem ((c1 :: pre1) ++ Separator :: Separator :: rest)
                       (c :: buf1)).
        change (copy_elem (c :: c1 :: pre1 ++ Separator :: rest) buf1)
          with (if IsPathSeparator c
                then (c :: c1 :: pre1 ++ Separator :: rest, buf1)
                else copy_elem ((c1 :: pre1) ++ Separator :: rest) (c :: buf1)).
        rewrite Hc.
        destruct (copy_elem_uniform (c1 :: pre1) (c :: buf1))
          as (pre2 & buf2 & Hl2 & Hcopy).
        rewrite !Hcopy.
        apply IH. rewrite length_app in Hpre |- *. simpl in Hpre, Hl2 |- *. lia.
Qed.

End SlashFacts.

Lemma clean_bytes_empty_elem (d rest : list ascii) :
  d <> [] ->
  clean_bytes (d ++ Separator :: Separator :: rest)%list
  = clean_bytes (d ++ Separator :: rest)%list.
Proof.
  intros Hd. destruct d as [| c d]; [congruence |].
  unfold clean_bytes. cbn [app].
  replace (length (c :: (d ++ Separator :: Separator :: rest)%list))
    with (S (length (c :: (d ++ Separator :: rest)%list)))
    by (simpl; rewrite !length_app; simpl; lia).
  destruct (IsPathSeparator c).
  - rewrite clean_loop_empty_elem by (simpl; rewrite !length_app; simpl; lia).
    rewrite clean_loop_fuel by (simpl; lia). reflexivity.
  - change (c :: (d ++ Separator :: Separator :: rest)%list)
      with ((c :: d) ++ Separator :: Separator :: rest)%list.
    rewrite clean_loop_empty_elem by (simpl; rewrite !length_app; simpl; lia).
    rewrite clean_loop_fuel by (simpl; lia). reflexivity.
Qed.

Lemma filepath_Join_trailing_slash (dir name : string) :
  dir <> "" ->
  filepath_Join (dir +:+ "/") name = filepath_Join dir name.
Proof.
  intros Hd. unfold filepath_Join.
  destruct (String.eqb_spec dir "") as [-> | _]; [congruence |].
  destruct (String.eqb_spec (dir +:+ "/") "") as [He | _].
  { destruct dir; discriminate He. }
  unfold filepath_Clean. f_equal.
  rewrite !list_ascii_of_string_app.
  change (list_ascii_of_string "/") with [Separator].
  rewrite <- !app_assoc. cbn [app].
  apply clean_bytes_empty_elem. now apply list_ascii_of_string_nonempty.
Qed.

(** Two output directories under which every name has the same path
    give the same runs. *)
Section DirectoryFacts.

Variable E : Env.
Variable dir1 : string.
Variable dir2 : string.
Hypothesis same_paths : forall n, filepath_Join dir1 n = filepath_Join dir2 n.

Lemma executeTemplate_same_paths (n : string) (t : template) (e : templElem)
  (tr : trace) :
  executeTemplate E dir1 n t e tr = executeTemplate E dir2 n t e tr.
Proof. unfold executeTemplate. now rewrite same_paths. Qed.

Lemma main_body_same_paths (kv : string * Desc) (tr : trace) :
  main_body E dir1 kv tr = main_body E dir2 kv tr.
Proof.
  destruct kv as [k v]. rewrite !main_body_cases. unfold generate.
  destruct (main_elem k v) as [e | p]; [| reflexivity].
  rewrite executeTemplate_same_paths.
  destruct (executeTemplate E dir2 _ _ e tr) as [tr1 [[] | p]]; [| reflexivity].
  apply executeTemplate_same_paths.
Qed.

Lemma main_range_same_paths (order : list (string * Desc)) (tr : trace) :
  main_range E dir1 order tr = main_range E dir2 order tr.
Proof.
  revert tr. induction order as [| kv order IH]; intros tr; [reflexivity |].
  rewrite !main_range_cons, main_body_same_paths.
  destruct (main_body E dir2 kv tr) as [tr1 [[] | p]]; [apply IH | reflexivity].
Qed.

End DirectoryFacts.

(** [X22]: a separator at the end of the output directory changes
    nothing: the runs with [-o dir/] are those with [-o dir], call by call
    and file by file, for every directory but the empty one. *)
Theorem trailing_slash_ignored (E : Env) (dir : string)
  (elements : gmap string Desc) (r : trace * result unit) :
  dir <> "" ->
  main E (dir +:+ "/") elements r <-> main E dir elements r.
Proof.
  intros Hd. unfold main, main_in_order.
  split; intros (order & Hperm & Hrun); exists order; split; try exact Hperm.
  - rewrite <- Hrun. symmetry. apply main_range_same_paths.
    intros n. now apply filepath_Join_trailing_slash.
  - rewrite <- Hrun. apply main_range_same_paths.
    intros n. now apply filepath_Join_trailing_slash.
Qed.

Lemma trailing_slash_ignored_witness :
  main env_accept "out/" elements_ab
    (main_in_order env_accept "out" [("a", desc_plain); ("b", desc_plain)]).
Proof.
  apply (proj2 (trailing_slash_ignored env_accept "out" elements_ab _
                  ltac:(discriminate))).
  exact elements_ab_run.
Defined.
